(** * mapport: the panorama viewer's camera controller and pin overlay

    A shallow embedding of [MapPortSDK] (the camera/orientation controller
    and scene mediator), of [MapportExtension] (the pin overlay
    orchestrator, [setupSdk] and the object it returns) and of
    [generateUUID], with the properties the specification states about
    them and further properties that the code has.

    JavaScript numbers are IEEE-754 binary64 values: they are modelled by
    Rocq's primitive [float], whose operations are the same binary64
    operations (round to nearest, ties to even), so that every arithmetic
    expression of the source is evaluated bit for bit as the engine does. *)

From Stdlib Require Import ZArith Floats List Bool Lia.
From stdpp Require Import base option list gmap strings.

Set Warnings "-inexact-float".
Local Open Scope Z_scope.

(** ** JavaScript numbers *)

Module JS.

Definition number := float.

(** [Math.PI], the binary64 value nearest to pi. *)
Definition Math_PI : number := 0x1.921fb54442d18p+1%float.

(** [Math.min(x, y)]: NaN if either argument is NaN; [-0] is smaller
    than [+0]. *)
Definition Math_min (x y : number) : number :=
  if is_nan x || is_nan y then nan
  else if (x <? y)%float then x
  else if (y <? x)%float then y
  else if get_sign x then x else y.

(** [Math.max(x, y)]: NaN if either argument is NaN; [+0] is larger
    than [-0]. *)
Definition Math_max (x y : number) : number :=
  if is_nan x || is_nan y then nan
  else if (x <? y)%float then y
  else if (y <? x)%float then x
  else if get_sign x then y else x.

(** Order on numbers as propositions: the IEEE comparison answers
    [true].  Both are false as soon as one side is NaN. *)
Definition le (x y : number) : Prop := (x <=? y)%float = true.
Definition lt (x y : number) : Prop := (x <? y)%float = true.

(** A number in the closed interval [[lo, hi]]. *)
Definition between (lo hi x : number) : Prop := le lo x /\ le x hi.

(** A number that is not NaN (it may be infinite). *)
Definition is_number (x : number) : Prop := is_nan x = false.

(** A finite number: what a WebIDL [double] attribute such as
    [clientX], [clientY] or [deltaY] can hold. *)
Definition finite (x : number) : Prop := is_finite x = true.

End JS.

(** ** The pieces of the rendering engine the controller calls *)

Module Three.
Import JS.

(** [THREE.MathUtils.DEG2RAD = Math.PI / 180]. *)
Definition DEG2RAD : number := (Math_PI / 180)%float.

(** [THREE.MathUtils.degToRad(degrees) = degrees * DEG2RAD]. *)
Definition degToRad (degrees : number) : number := (degrees * DEG2RAD)%float.

(** [THREE.MathUtils.clamp(value, min, max) =
    Math.max(min, Math.min(max, value))]. *)
Definition clamp (value min max : number) : number :=
  Math_max min (Math_min max value).

(** A mesh is an opaque handle owned by the engine; only its identity
    matters to the scene graph. *)
Definition Mesh := nat.

(** The scene graph: the ordered [children] of the scene object. *)
Record Scene := { children : list Mesh }.

(** [indexOf] then [splice(index, 1)]: the first occurrence goes. *)
Fixpoint remove_first (m : Mesh) (l : list Mesh) : list Mesh :=
  match l with
  | [] => []
  | x :: l' => if Nat.eqb x m then l' else x :: remove_first m l'
  end.

(** [Object3D.remove(object)]. *)
Definition Scene_remove (m : Mesh) (sc : Scene) : Scene :=
  {| children := remove_first m (children sc) |}.

(** [Object3D.add(object)]: the object is first detached from its
    current parent, then pushed at the end of [children]. *)
Definition Scene_add (m : Mesh) (sc : Scene) : Scene :=
  {| children := remove_first m (children sc) ++ [m] |}.

Definition Scene_contains (sc : Scene) (m : Mesh) : Prop :=
  m ∈ children sc.

(** The perspective camera: field of view (degrees), aspect ratio, the
    point last passed to [lookAt], and the number of calls of
    [updateProjectionMatrix]. *)
Record Camera := {
  fov : number;
  aspect : number;
  near : number;
  far : number;
  target : option (number * number * number);
  projections : nat
}.

(** The renderer: its size and the number of frames rendered. *)
Record Renderer := {
  width : number;
  height : number;
  frames : nat
}.

End Three.

(** ** MapPortSDK: the camera controller and scene mediator *)

Module MapPortSDK.
Import JS Three.
Local Open Scope float_scope.

Record PointerEvent := {
  isPrimary : bool;
  clientX : number;
  clientY : number
}.

Record WheelEvent := { deltaY : number }.

(** The fields of a [MapPortSDK] instance, with the two dimensions of
    its container that the code reads. *)
Record t := {
  clientWidth : number;
  clientHeight : number;
  camera : option Camera;
  scene : option Scene;
  renderer : option Renderer;
  isUserInteracting : bool;
  mouseDownMouseX : number;
  mouseDownMouseY : number;
  lon : number;
  targetLon : number;
  mouseDownLon : number;
  lat : number;
  targetLat : number;
  mouseDownLat : number;
  phi : number;
  theta : number
}.

Definition scale : number := 1.

(** [new MapPortSDK(container)]: the field initialisers. *)
Definition new (w h : number) : t :=
  {| clientWidth := w; clientHeight := h;
     camera := None; scene := None; renderer := None;
     isUserInteracting := false;
     mouseDownMouseX := 0; mouseDownMouseY := 0;
     lon := 0; targetLon := 0; mouseDownLon := 0;
     lat := 0; targetLat := 0; mouseDownLat := 0;
     phi := 0; theta := 0 |}.

Definition with_scene (sc : option Scene) (s : t) : t :=
  {| clientWidth := clientWidth s; clientHeight := clientHeight s;
     camera := camera s; scene := sc; renderer := renderer s;
     isUserInteracting := isUserInteracting s;
     mouseDownMouseX := mouseDownMouseX s; mouseDownMouseY := mouseDownMouseY s;
     lon := lon s; targetLon := targetLon s; mouseDownLon := mouseDownLon s;
     lat := lat s; targetLat := targetLat s; mouseDownLat := mouseDownLat s;
     phi := phi s; theta := theta s |}.

Definition with_view (c : option Camera) (r : option Renderer) (s : t) : t :=
  {| clientWidth := clientWidth s; clientHeight := clientHeight s;
     camera := c; scene := scene s; renderer := r;
     isUserInteracting := isUserInteracting s;
     mouseDownMouseX := mouseDownMouseX s; mouseDownMouseY := mouseDownMouseY s;
     lon := lon s; targetLon := targetLon s; mouseDownLon := mouseDownLon s;
     lat := lat s; targetLat := targetLat s; mouseDownLat := mouseDownLat s;
     phi := phi s; theta := theta s |}.

Definition with_container (w h : number) (s : t) : t :=
  {| clientWidth := w; clientHeight := h;
     camera := camera s; scene := scene s; renderer := renderer s;
     isUserInteracting := isUserInteracting s;
     mouseDownMouseX := mouseDownMouseX s; mouseDownMouseY := mouseDownMouseY s;
     lon := lon s; targetLon := targetLon s; mouseDownLon := mouseDownLon s;
     lat := lat s; targetLat := targetLat s; mouseDownLat := mouseDownLat s;
     phi := phi s; theta := theta s |}.

(** [addScene(mesh)]: [this.scene?.add(mesh)]. *)
Definition addScene (mesh : Mesh) (s : t) : t :=
  match scene s with
  | Some sc => with_scene (Some (Scene_add mesh sc)) s
  | None => s
  end.

(** [removeMesh(mesh)]: [this.scene?.remove(mesh)]. *)
Definition removeMesh (mesh : Mesh) (s : t) : t :=
  match scene s with
  | Some sc => with_scene (Some (Scene_remove mesh sc)) s
  | None => s
  end.

(** [updateScene(mesh, mesh2)]: the two statements, in order; each
    tests [this.scene] on its own. *)
Definition updateScene_remove (mesh : Mesh) (s : t) : t :=
  match scene s with
  | Some sc => with_scene (Some (Scene_remove mesh sc)) s
  | None => s
  end.

Definition updateScene_add (mesh2 : Mesh) (s : t) : t :=
  match scene s with
  | Some sc => with_scene (Some (Scene_add mesh2 sc)) s
  | None => s
  end.

Definition updateScene (mesh mesh2 : Mesh) (s : t) : t :=
  updateScene_add mesh2 (updateScene_remove mesh s).

(** What an observer of the scene sees: the meshes in it; nothing when
    there is no scene. *)
Definition contains (s : t) (m : Mesh) : Prop :=
  match scene s with
  | Some sc => Scene_contains sc m
  | None => False
  end.

(** [init()]: camera, scene and renderer are created, the frame loop
    and the listeners are installed. *)
Definition init (s : t) : t :=
  let cam := {| fov := 75; aspect := clientWidth s / clientHeight s;
                near := 1; far := 1100 * scale;
                target := None; projections := 0 |} in
  let rd := {| width := clientWidth s; height := clientHeight s; frames := 0 |} in
  with_scene (Some {| children := [] |}) (with_view (Some cam) (Some rd) s).

(** [onWindowResize()]. *)
Definition onWindowResize (s : t) : t :=
  match camera s with
  | None => s
  | Some cam =>
      let cam' := {| fov := fov cam; aspect := clientWidth s / clientHeight s;
                     near := near cam; far := far cam; target := target cam;
                     projections := S (projections cam) |} in
      let rd' := match renderer s with
                 | Some rd => Some {| width := clientWidth s; height := clientHeight s;
                                      frames := frames rd |}
                 | None => None
                 end in
      with_view (Some cam') rd' s
  end.

(** [onMouseDown(event)]. *)
Definition onMouseDown (event : PointerEvent) (s : t) : t :=
  if negb (isPrimary event) then s
  else
    {| clientWidth := clientWidth s; clientHeight := clientHeight s;
       camera := camera s; scene := scene s; renderer := renderer s;
       isUserInteracting := true;
       mouseDownMouseX := clientX event; mouseDownMouseY := clientY event;
       lon := lon s; targetLon := targetLon s; mouseDownLon := lon s;
       lat := lat s; targetLat := targetLat s; mouseDownLat := lat s;
       phi := phi s; theta := theta s |}.

(** [onMouseMove(event)]. *)
Definition onMouseMove (event : PointerEvent) (s : t) : t :=
  if negb (isPrimary event) || negb (isUserInteracting s) then s
  else
    {| clientWidth := clientWidth s; clientHeight := clientHeight s;
       camera := camera s; scene := scene s; renderer := renderer s;
       isUserInteracting := isUserInteracting s;
       mouseDownMouseX := mouseDownMouseX s; mouseDownMouseY := mouseDownMouseY s;
       lon := lon s;
       targetLon := (mouseDownMouseX s - clientX event) * 0.2 + mouseDownLon s;
       mouseDownLon := mouseDownLon s;
       lat := lat s;
       targetLat := (clientY event - mouseDownMouseY s) * 0.2 + mouseDownLat s;
       mouseDownLat := mouseDownLat s;
       phi := phi s; theta := theta s |}.

(** [onMouseUp(event)]. *)
Definition onMouseUp (event : PointerEvent) (s : t) : t :=
  if negb (isPrimary event) then s
  else
    {| clientWidth := clientWidth s; clientHeight := clientHeight s;
       camera := camera s; scene := scene s; renderer := renderer s;
       isUserInteracting := false;
       mouseDownMouseX := mouseDownMouseX s; mouseDownMouseY := mouseDownMouseY s;
       lon := lon s; targetLon := targetLon s; mouseDownLon := mouseDownLon s;
       lat := lat s; targetLat := targetLat s; mouseDownLat := mouseDownLat s;
       phi := phi s; theta := theta s |}.

(** [onDocumentMouseWheel(event)]. *)
Definition onDocumentMouseWheel (event : WheelEvent) (s : t) : t :=
  match camera s with
  | None => s
  | Some cam =>
      let fov1 := fov cam + deltaY event * 0.05 in
      let cam' := {| fov := clamp fov1 10 75; aspect := aspect cam;
                     near := near cam; far := far cam; target := target cam;
                     projections := S (projections cam) |} in
      with_view (Some cam') (renderer s) s
  end.

Section Animate.
(** [Math.sin] and [Math.cos], which the engine leaves to the
    platform: any two functions on numbers. *)
Variables Math_sin Math_cos : number -> number.

(** [animate()]: one tick of the frame loop. *)
Definition animate (s : t) : t :=
  match camera s, scene s, renderer s with
  | Some cam, Some sc, Some rd =>
      let lon1 := lon s + (targetLon s - lon s) * 0.1 in
      let lat1 := lat s + (targetLat s - lat s) * 0.1 in
      let lat2 := Math_max (-85) (Math_min 85 lat1) in
      let phi1 := degToRad (90 - lat2) in
      let theta1 := degToRad lon1 in
      let x := 500 * Math_sin phi1 * Math_cos theta1 * scale in
      let y := 500 * Math_cos phi1 * scale in
      let z := 500 * Math_sin phi1 * Math_sin theta1 * scale in
      let cam' := {| fov := fov cam; aspect := aspect cam;
                     near := near cam; far := far cam;
                     target := Some (x, y, z);
                     projections := projections cam |} in
      let rd' := {| width := width rd; height := height rd;
                    frames := S (frames rd) |} in
      {| clientWidth := clientWidth s; clientHeight := clientHeight s;
         camera := Some cam'; scene := Some sc; renderer := Some rd';
         isUserInteracting := isUserInteracting s;
         mouseDownMouseX := mouseDownMouseX s; mouseDownMouseY := mouseDownMouseY s;
         lon := lon1; targetLon := targetLon s; mouseDownLon := mouseDownLon s;
         lat := lat2; targetLat := targetLat s; mouseDownLat := mouseDownLat s;
         phi := phi1; theta := theta1 |}
  | _, _, _ => s
  end.

(** What the page delivers to the controller once [init] has
    installed the frame loop and the listeners. *)
Inductive event :=
| PointerDown (e : PointerEvent)
| PointerMove (e : PointerEvent)
| PointerUp (e : PointerEvent)
| Wheel (e : WheelEvent)
| Resize (w h : number)
| Frame.

Definition dispatch (s : t) (ev : event) : t :=
  match ev with
  | PointerDown e => onMouseDown e s
  | PointerMove e => onMouseMove e s
  | PointerUp e => onMouseUp e s
  | Wheel e => onDocumentMouseWheel e s
  | Resize w h => onWindowResize (with_container w h s)
  | Frame => animate s
  end.

(** The controller after [init()] and a sequence of events. *)
Definition run (w h : number) (evs : list event) : t :=
  fold_left dispatch evs (init (new w h)).

End Animate.

End MapPortSDK.

(** ** Promises *)

Module Promise.

(** The values the code throws or rejects with. *)
Inductive error :=
| Error (message : string)        (* [Error(message)] thrown by this code *)
| TypeError (message : string)    (* raised by the language, e.g. a property of [null] *)
| Failure (reason : string).      (* a rejection of an external collaborator *)

Inductive settled (A : Type) :=
| Fulfilled (v : A)
| Rejected (e : error).
Arguments Fulfilled {A} v.
Arguments Rejected {A} e.

(** A promise that settles: when (a logical time) and how. *)
Record promise (A : Type) := { settles_at : nat; result : settled A }.
Arguments settles_at {A} p.
Arguments result {A} p.

Definition is_fulfilled {A} (p : promise A) : Prop :=
  exists v, result p = Fulfilled v.

Definition is_rejected {A} (p : promise A) : Prop :=
  exists e, result p = Rejected e.

Definition resolved {A} (v : A) : promise A :=
  {| settles_at := 0; result := Fulfilled v |}.

Definition rejected {A} (e : error) : promise A :=
  {| settles_at := 0; result := Rejected e |}.

(** The rejection that settles first; of two that settle together, the
    one earlier in the list. *)
Fixpoint first_rejection {A} (ps : list (promise A)) : option (nat * error) :=
  match ps with
  | [] => None
  | p :: ps' =>
      match result p, first_rejection ps' with
      | Rejected e, Some (t', e') =>
          if Nat.leb (settles_at p) t' then Some (settles_at p, e) else Some (t', e')
      | Rejected e, None => Some (settles_at p, e)
      | Fulfilled _, r => r
      end
  end.

Fixpoint values {A} (ps : list (promise A)) : list A :=
  match ps with
  | [] => []
  | p :: ps' =>
      match result p with
      | Fulfilled v => v :: values ps'
      | Rejected _ => values ps'
      end
  end.

(** [Promise.all(ps)]: the values in the order of [ps] when all are
    fulfilled, otherwise the reason of the first rejection. *)
Definition all {A} (ps : list (promise A)) : settled (list A) :=
  match first_rejection ps with
  | Some (_, e) => Rejected e
  | None => Fulfilled (values ps)
  end.

(** The state of [new Promise((resolve, reject) => ...)] while its
    executor runs: the first call of [resolve] or [reject] settles it,
    later ones do nothing. *)
Definition executor_state (A : Type) := option (settled A).

Definition resolve {A} (v : A) (st : executor_state A) : executor_state A :=
  match st with None => Some (Fulfilled v) | Some _ => st end.

Definition reject {A} (e : error) (st : executor_state A) : executor_state A :=
  match st with None => Some (Rejected e) | Some _ => st end.

(** What a call does at once: hand back a promise, or throw. *)
Inductive completion (A : Type) :=
| Returns (p : A)
| Throws (e : error).
Arguments Returns {A} p.
Arguments Throws {A} e.

End Promise.

(** ** MapportExtension: the pin overlay orchestrator *)

Module MapportExtension.
Import JS Promise.

Definition Vector3 := (number * number * number)%type.

(** The fields of [Pinport.Pin] that the code reads; [None] is
    [undefined]. *)
Record Pin := {
  id : string;
  html : string;
  position : Vector3;
  offset : Vector3;
  opacity : number;
  enableLine : bool;
  color : option string;
  icon : option string
}.

(** An attachment handle returned by the sandbox. *)
Definition handle := string.

(** The argument of [mapport.Tag.add]. *)
Record TagDescriptor := {
  tag_id : string;
  anchorPosition : Vector3;
  stemVector : Vector3;
  attachments : list (option handle);
  tag_opacity : number;
  stemVisible : bool;
  tag_color : string;
  iconId : option string
}.

(** The external platform object [mapport].  Its answers are not
    under this code's control: the answer to the [n]-th call of each
    entry point may be anything. *)
Record Platform := {
  Tag_registerSandbox : nat -> string -> promise (list handle);
  Tag_add : nat -> TagDescriptor -> promise unit
}.

(** Arrays live in a store: a caller and [addPins] hold the same array
    when they hold the same location. *)
Definition loc := positive.
Definition store := gmap loc (list Pin).

(** The [pins] argument as the caller passes it. *)
Inductive pins_arg :=
| undefined
| null
| array (l : loc).

(** What [!] answers [true] on: [null] and [undefined] among the
    values of [pins]; [undefined] and the empty string among those of
    [model]; [null] among those of a cache. *)
Definition falsy_pins (pins : pins_arg) : bool :=
  match pins with array _ => false | _ => true end.

Definition falsy_string (s : option string) : bool :=
  match s with None => true | Some s' => String.eqb s' "" end.

Definition falsy {A : Type} (o : option A) : bool :=
  match o with None => true | Some _ => false end.

(** [pin.color || "#000"]. *)
Definition color_or_default (c : option string) : string :=
  match c with
  | Some c' => if String.eqb c' "" then "#000" else c'
  | None => "#000"
  end.

(** [pin.icon?.length ? pin.icon : undefined]. *)
Definition icon_or_undefined (i : option string) : option string :=
  match i with
  | Some i' => if String.eqb i' "" then None else Some i'
  | None => None
  end.

Definition descriptor (pin : Pin) (attach : option handle) : TagDescriptor :=
  {| tag_id := id pin;
     anchorPosition := position pin;
     stemVector := offset pin;
     attachments := [attach];
     tag_opacity := opacity pin;
     stemVisible := enableLine pin;
     tag_color := color_or_default (color pin);
     iconId := icon_or_undefined (icon pin) |}.

Definition null_Tag : error :=
  TypeError "Cannot read properties of null (reading 'Tag')".

(** The first [Promise.all]: one sandbox request per pin, all issued
    before any answer is awaited; the [i]-th promise yields
    [{ attach: answer[0], index: i }]. *)
Fixpoint attach_all (mapport : option Platform) (pins : list Pin) (i : nat)
  : list (promise (option handle * nat)) :=
  match pins with
  | [] => []
  | pin :: rest =>
      (match mapport with
       | None => rejected null_Tag
       | Some mp =>
           let answer := Tag_registerSandbox mp i (html pin) in
           {| settles_at := settles_at answer;
              result := match result answer with
                        | Fulfilled hs => Fulfilled (head hs, i)
                        | Rejected e => Rejected e
                        end |}
       end) :: attach_all mapport rest (S i)
  end.

(** The second [Promise.all]: the callbacks run in the order of the
    attachments, each up to its [await]; [existingIds] and the
    requests issued so far are threaded through. *)
Fixpoint register_all (mapport : option Platform) (pins : list Pin)
    (attachments : list (option handle * nat))
    (existingIds : gset string) (issued : list TagDescriptor)
  : list (promise unit) * list TagDescriptor :=
  match attachments with
  | [] => ([], issued)
  | (attach, index) :: rest =>
      match pins !! index with
      | None =>
          let '(ps, out) := register_all mapport pins rest existingIds issued in
          (rejected (TypeError "Cannot read properties of undefined (reading 'id')") :: ps, out)
      | Some pin =>
          let pinId := id pin in
          if decide (pinId ∈ existingIds) then
            let '(ps, out) := register_all mapport pins rest existingIds issued in
            (resolved tt :: ps, out)
          else
            let existingIds' := {[ pinId ]} ∪ existingIds in
            match mapport with
            | None =>
                let '(ps, out) := register_all mapport pins rest existingIds' issued in
                (rejected null_Tag :: ps, out)
            | Some mp =>
                let d := descriptor pin attach in
                let answer := Tag_add mp (length issued) d in
                let '(ps, out) :=
                  register_all mapport pins rest existingIds' (issued ++ [d]) in
                (answer :: ps, out)
            end
      end
  end.

(** The body of [addPins] from [const existingIds] on: the two
    [Promise.all] over the array [pins] as it stands by then.  It
    yields the outcome and the requests sent to the platform, oldest
    first. *)
Definition register_pins (mapport : option Platform) (pins : list Pin)
  : settled unit * list string * list TagDescriptor :=
  let requested := match mapport with
                   | Some _ => html <$> pins
                   | None => []
                   end in
  match Promise.all (attach_all mapport pins 0) with
  | Rejected e => (Rejected e, requested, [])
  | Fulfilled pinsAttachments =>
      let '(ps, issued) := register_all mapport pins pinsAttachments ∅ [] in
      (match Promise.all ps with
       | Rejected e => Rejected e
       | Fulfilled _ => Fulfilled tt
       end, requested, issued)
  end.

(** What one call of [addPins] leaves behind: the promise's outcome,
    the store, and the requests sent to the platform, oldest first. *)
Record call := {
  outcome : settled unit;
  final_store : store;
  sandbox_requests : list string;
  add_requests : list TagDescriptor
}.

Definition failed (e : error) (h : store) : call :=
  {| outcome := Rejected e; final_store := h;
     sandbox_requests := []; add_requests := [] |}.

Section WithContentStore.
(** [this.getPins], the content store's fetch by model identifier. *)
Variable getPins : string -> settled (list Pin).

(** The head of [addPins]: the default value of [pins], the check
    of the arguments, and the pins of the model pushed onto [pins].
    It yields the array that the rest works on, or the error
    thrown. *)
Definition collect_pins (pins : pins_arg) (model : option string) (h : store)
  : error * store + loc * store :=
  (* pins = []: a new, empty array when the argument is undefined *)
  let '(pins, h) :=
    match pins with
    | undefined => let l := fresh (dom h) in (array l, <[ l := [] ]> h)
    | _ => (pins, h)
    end in
  (* if (!pins && !model) throw Error(...) *)
  if falsy_pins pins && falsy_string model then
    inl (Error
      "To add pins, provide either a pins array or a model in the setup configuration.",
      h)
  else
    (* if (model?.length) { pins.push(...await this.getPins(model)) } *)
    let pushed :=
      match model with
      | None => inr h
      | Some m =>
          if String.eqb m "" then inr h
          else
            match getPins m with
            | Rejected e => inl (e, h)
            | Fulfilled pinsToConcat =>
                match pins with
                | array l =>
                    match h !! l with
                    | Some old => inr (<[ l := old ++ pinsToConcat ]> h)
                    | None => inl (TypeError "pins.push is not a function", h)
                    end
                | _ =>
                    inl (TypeError "Cannot read properties of null (reading 'push')", h)
                end
            end
      end in
    (* pins.map(...) *)
    match pushed, pins with
    | inl eh, _ => inl eh
    | inr h, array l => inr (l, h)
    | inr h, _ => inl (TypeError "Cannot read properties of null (reading 'map')", h)
    end.

(** [addPins(mapport, pins = [], model?)]. *)
Definition addPins (mapport : option Platform) (pins : pins_arg)
    (model : option string) (h : store) : call :=
  match collect_pins pins model h with
  | inl (e, h) => failed e h
  | inr (l, h) =>
      match h !! l with
      | None => failed (TypeError "pins.map is not a function") h
      | Some working =>
          let '(o, requested, issued) := register_pins mapport working in
          {| outcome := o; final_store := h;
             sandbox_requests := requested; add_requests := issued |}
      end
  end.

End WithContentStore.

(** *** getPosition *)

Record IntersectionResult := {
  ir_position : Vector3;
  ir_time : number
}.

Definition cannot_get_position : error := Error "Can't get current position.".

(** The executor of the promise [getPosition] builds, over the two
    caches the closure captures ([None] is [null]). *)
Definition getPosition_executor {Pose : Type}
    (intersectionCache : option IntersectionResult) (poseCache : option Pose)
  : executor_state (option IntersectionResult) :=
  let st := None in
  let st := if falsy intersectionCache || falsy poseCache
            then reject cannot_get_position st else st in
  resolve intersectionCache st.

(** [getPosition()]: an [async] arrow function, so whatever its body
    does comes back as a promise. *)
Definition getPosition {Pose : Type}
    (intersectionCache : option IntersectionResult) (poseCache : option Pose)
  : completion (option (settled (option IntersectionResult))) :=
  Returns (getPosition_executor intersectionCache poseCache).

(** The closure [setupSdk] returns: both caches are the constant
    [null]. *)
Definition setupSdk_getPosition
  : completion (option (settled (option IntersectionResult))) :=
  getPosition (Pose := unit) None None.

(** *** setupSdk and the object it returns *)








(** The variables that the closures of the returned object capture:
    the controller and the model identifier.  The other three,
    [mapport], [intersectionCache] and [poseCache], are the constant
    [null]. *)
Record Sdk := {
  mapportSdk : MapPortSDK.t;
  model : string
}.

Definition mapport : option Platform := None.

Definition no_container : error :=
  Error "The Mapport SDK requires a container for initialization.".

Definition no_model : error :=
  Error "To use the container option, you need to set the 'model' property first.".

(** [setupSdk(container, model)]: an [async] method, so what its body
    throws comes back as a rejected promise.  The container is
    [None] for [null] or [undefined], else its two dimensions. *)
Definition setupSdk (container : option (number * number))
    (model : option string) : completion (settled Sdk) :=
  Returns
    match container with
    | None => Rejected no_container
    | Some (w, h) =>
        match model with
        | None => Rejected no_model
        | Some m =>
            if String.eqb m "" then Rejected no_model
            else Fulfilled {| mapportSdk := MapPortSDK.init (MapPortSDK.new w h);
                              model := m |}
        end
    end.

(** The methods of the returned object, over the variables they
    capture. *)
Definition Sdk_addPins (getPins : string -> settled (list Pin)) (sdk : Sdk)
    (pins : pins_arg) (h : store) : call :=
  addPins getPins mapport pins (Some (model sdk)) h.

Definition Sdk_getPosition (sdk : Sdk)
  : completion (option (settled (option IntersectionResult))) :=
  setupSdk_getPosition.



Definition with_controller (c : MapPortSDK.t) (sdk : Sdk) : Sdk :=
  {| mapportSdk := c; model := model sdk |}.

Definition Sdk_addScene (mesh : Three.Mesh) (sdk : Sdk) : Sdk :=
  with_controller (MapPortSDK.addScene mesh (mapportSdk sdk)) sdk.

Definition Sdk_updateScene (mesh mesh2 : Three.Mesh) (sdk : Sdk) : Sdk :=
  with_controller (MapPortSDK.updateScene mesh mesh2 (mapportSdk sdk)) sdk.

Definition Sdk_removeMesh (mesh : Three.Mesh) (sdk : Sdk) : Sdk :=
  with_controller (MapPortSDK.removeMesh mesh (mapportSdk sdk)) sdk.

End MapportExtension.

(** ** utils/uuid: generateUUID *)

Module Uuid.
Import JS.

(** An integer as a number; exact below [2 ^ 53]. *)
Definition of_Z (n : Z) : number := SF2Prim (binary_normalize prec emax n 0 false).

(** [Math.floor(x)]: the largest integer that is not above [x]; NaN,
    the infinities and the zeros are handed back as they are. *)
Definition Math_floor (x : number) : number :=
  match Prim2SF x with
  | S754_finite s m e =>
      if 0 <=? e then x
      else
        let q := Zpos m / 2 ^ (- e) in
        let exact := Zpos m mod 2 ^ (- e) =? 0 in
        of_Z (if s then (if exact then - q else - q - 1) else q)
  | _ => x
  end.

(** The position that a number used as a property key of a string
    names: the number must be a non-negative integer. *)
Definition to_index (x : number) : option nat :=
  match Prim2SF x with
  | S754_zero _ => Some 0%nat
  | S754_finite false m e =>
      if 0 <=? e then Some (Z.to_nat (Zpos m * 2 ^ e))
      else if Zpos m mod 2 ^ (- e) =? 0
           then Some (Z.to_nat (Zpos m / 2 ^ (- e)))
           else None
  | _ => None
  end.

(** [s[i]]: the character at position [i], or [undefined]. *)
Definition String_at (s : string) (i : number) : option Ascii.ascii :=
  match to_index i with
  | Some n => String.get n s
  | None => None
  end.

(** [uuid += c], where [c] may be [undefined]. *)
Definition append_char (uuid : string) (c : option Ascii.ascii) : string :=
  match c with
  | Some c => uuid +:+ String c EmptyString
  | None => uuid +:+ "undefined"
  end.

(** [s.slice(start, end)] and [s.slice(start)], for positions that
    are not negative. *)
Definition slice (s : string) (start stop : nat) : string :=
  String.substring start (stop - start) s.

Definition slice_from (s : string) (start : nat) : string :=
  String.substring start (String.length s - start) s.

Definition chars : string := "0123456789abcdef".

Section WithRandom.
(** [Math.random]: the numbers it answers, call after call. *)
Variable Math_random : nat -> number.

(** The loop: [count] rounds are left, [calls] is the number of
    calls of [Math.random] made so far. *)
Fixpoint loop (count : nat) (calls : nat) (uuid : string) : string * nat :=
  match count with
  | O => (uuid, calls)
  | S count' =>
      let randomIndex :=
        Math_floor (Math_random calls * of_Z (Z.of_nat (String.length chars)))%float in
      loop count' (S calls) (append_char uuid (String_at chars randomIndex))
  end.

(** [generateUUID()]: the string, and the number of calls of
    [Math.random] made when it returns. *)
Definition generateUUID (calls : nat) : string * nat :=
  let '(uuid, calls) := loop 32 calls "" in
  (slice uuid 0 8 +:+ "-" +:+ slice uuid 8 12 +:+ "-" +:+ slice uuid 12 16
     +:+ "-" +:+ slice uuid 16 20 +:+ "-" +:+ slice_from uuid 20,
   calls).

End WithRandom.

End Uuid.

(** ** Definitions used to state and to prove the properties *)

Module Order.

(** A key in [Z * Z * Z], ordered lexicographically, for every number
    that is not NaN: the IEEE comparison is the comparison of keys. *)
Definition key (s : spec_float) : Z * Z * Z :=
  match s with
  | S754_zero _ => (0, 0, 0)
  | S754_infinity false => (2, 0, 0)
  | S754_infinity true => (-2, 0, 0)
  | S754_nan => (3, 0, 0)
  | S754_finite false m e => (1, e, Zpos m)
  | S754_finite true m e => (-1, - e, Zneg m)
  end.

Definition key_le (a b : Z * Z * Z) : Prop :=
  let '(a1, a2, a3) := a in
  let '(b1, b2, b3) := b in
  a1 < b1 \/ (a1 = b1 /\ (a2 < b2 \/ (a2 = b2 /\ a3 <= b3))).

Definition key_lt (a b : Z * Z * Z) : Prop :=
  let '(a1, a2, a3) := a in
  let '(b1, b2, b3) := b in
  a1 < b1 \/ (a1 = b1 /\ (a2 < b2 \/ (a2 = b2 /\ a3 < b3))).

Ltac key_cases :=
  split;
  [ intros HH; try discriminate; repeat split; try congruence; try lia
  | intros (HH1 & HH2 & HH3); try congruence; try lia; try reflexivity ].

End Order.

Module Rounding.

Abbreviation fexp := (SpecFloat.fexp prec emax).

(** *** What [binary_round_aux] computes

    The mantissa is divided by the power of two that brings it down to
    [prec] digits, moved up by one unit or not (the rounding), and
    divided once more when that carried into a new digit. *)

Definition finish (sx : bool) (m1 f : Z) : spec_float :=
  let n2 := Z.max 0 (fexp (Zdigits2 m1 + f) - f) in
  match m1 / 2 ^ n2 with
  | Z0 => S754_zero sx
  | Zpos m =>
      if f + n2 <=? emax - prec then S754_finite sx m (f + n2)
      else S754_infinity sx
  | Zneg _ => S754_nan
  end.

(** The result of rounding a non-negative mantissa is never NaN, and
    carries the sign it was given. *)
Definition signed (b : bool) (s : spec_float) : Prop :=
  match s with
  | S754_zero b' | S754_infinity b' | S754_finite b' _ _ => b' = b
  | S754_nan => False
  end.

(** Where [M / 2 ^ n] stands between the integers below and above
    it: on the lower one, or below, at or above the middle. *)
Definition location_of (M n : Z) : location :=
  if M mod 2 ^ n =? 0 then loc_Exact
  else loc_Inexact (2 * (M mod 2 ^ n) ?= 2 ^ n).

(** A shift register that holds [M] after [k] digits were dropped:
    the quotient, and where the dropped digits stand. *)
Definition shifted (M k : Z) (mrs : shr_record) : Prop :=
  shr_m mrs = M / 2 ^ k /\ loc_of_shr_record mrs = location_of M k.

(** [M / 2 ^ n] rounded to the nearest integer, ties to even. *)
Definition rnd (M n : Z) : Z :=
  round_nearest_even (M / 2 ^ n) (location_of M n).

(** The binary64 number nearest to [M * 2 ^ E], for [M > 0], with the
    sign [sx]: the mantissa is brought to the exponent [f] that a
    number of this size has, and rounded there. *)
Definition nearest (sx : bool) (M E : Z) : spec_float :=
  let f := fexp (Zdigits2 M + E) in
  let E0 := Z.min E f in
  finish sx (rnd (M * 2 ^ (E - E0)) (f - E0)) f.

(** The binary64 number nearest to [S * 2 ^ E], for any integer
    [S]. *)
Definition round_value (S E : Z) : spec_float :=
  match S with
  | Z0 => S754_zero false
  | Zpos M => nearest false (Zpos M) E
  | Zneg M => nearest true (Zpos M) E
  end.

(** The value of a finite number or of a zero, in units of
    [2 ^ E0]. *)
Definition scaled_value (s : spec_float) (E0 : Z) : Z :=
  match s with
  | S754_finite sg m e => cond_Zopp sg (Zpos m * 2 ^ (e - E0))
  | _ => 0
  end.

(** The exponent of a finite number is at least [E0]. *)
Definition above (E0 : Z) (s : spec_float) : Prop :=
  match s with
  | S754_finite _ _ e => E0 <= e
  | _ => True
  end.

Definition finite_or_zero (s : spec_float) : Prop :=
  match s with
  | S754_finite _ _ _ | S754_zero _ => True
  | _ => False
  end.

(** The exact product of a finite number or a zero with the positive
    number [mc * 2 ^ ec], as a mantissa and an exponent. *)
Definition exact_product (mc : positive) (ec : Z) (d : spec_float) : Z * Z :=
  match d with
  | S754_finite s m e => (cond_Zopp s (Zpos (m * mc)), e + ec)
  | _ => (0, ec)
  end.

(** The exact sum of the positive number [mx * 2 ^ ex] and a finite
    number or a zero, as a mantissa and an exponent. *)
Definition exact_sum (mx : positive) (ex : Z) (a : spec_float) : Z * Z :=
  match a with
  | S754_finite s m e =>
      let ez := Z.min ex e in
      (Zpos mx * 2 ^ (ex - ez) + cond_Zopp s (Zpos m * 2 ^ (e - ez)), ez)
  | _ => (Zpos mx, ex)
  end.

End Rounding.

Module Controller.
Import JS Three MapPortSDK.
Local Open Scope float_scope.

(** Camera, scene and renderer exist: [init] has run.  The frame loop
    and the listeners exist only then. *)
Definition ready (s : t) : Prop :=
  is_Some (camera s) /\ is_Some (scene s) /\ is_Some (renderer s).

(** After [init], a drag of 5000 pixels downwards: the target
    latitude is 1000 degrees. *)
Definition far_target : t :=
  onMouseMove {| isPrimary := true; clientX := 400; clientY := 5300 |}
    (onMouseDown {| isPrimary := true; clientX := 400; clientY := 300 |}
       (init (new 800 600))).

(** The drag session data is cleared: the four fields recorded at
    pointer-down hold their initial values again, as in [new]. *)
Definition DragSession_cleared (s : t) : Prop :=
  mouseDownMouseX s = 0 /\ mouseDownMouseY s = 0 /\
  mouseDownLon s = 0 /\ mouseDownLat s = 0.

(** A controller set up in an 800 by 600 container, then in the
    [Dragging] state after a primary pointer-down at (400, 300), and
    the pointer events of the scenarios. *)
Definition idle : t := init (new 800 600).

Definition pointer (primary : bool) (x y : number) : PointerEvent :=
  {| isPrimary := primary; clientX := x; clientY := y |}.

Definition dragging : t := onMouseDown (pointer true 400 300) idle.

Definition released : t := onMouseUp (pointer true 300 300) dragging.

(** The numbers an event carries are finite, as the attributes of a
    DOM event are. *)
Definition event_data_finite (ev : event) : Prop :=
  match ev with
  | PointerDown e | PointerMove e | PointerUp e =>
      finite (clientX e) /\ finite (clientY e)
  | Wheel e => finite (deltaY e)
  | Resize _ _ | Frame => True
  end.

(** What holds of the orientation state from [init] on. *)
Definition orientation_invariant (s : t) : Prop :=
  ready s /\
  between (-85) 85 (lat s) /\
  is_number (targetLat s) /\
  finite (mouseDownMouseY s) /\
  between (-85) 85 (mouseDownLat s).

(** The field of view is within its bounds. *)
Definition fov_within_bounds (s : t) : Prop :=
  exists cam, camera s = Some cam /\ between 10 75 (fov cam).

(** A scene with mesh 1 in it. *)
Definition showing_1 : t := addScene 1%nat idle.

End Controller.

Module Overlay.
Import JS Promise MapportExtension.
Local Open Scope float_scope.

(** The attachment a fulfilled sandbox request hands to [addPins]:
    the first handle of the answer. *)
Definition attach_of (mp : Platform) (i : nat) (pin : Pin) : option handle :=
  match result (Tag_registerSandbox mp i (html pin)) with
  | Fulfilled hs => head hs
  | Rejected _ => None
  end.

(** What the first [Promise.all] yields when every sandbox request is
    fulfilled. *)
Fixpoint attachments_from (mp : Platform) (i : nat) (pins : list Pin)
  : list (option handle * nat) :=
  match pins with
  | [] => []
  | pin :: rest => (attach_of mp i pin, i) :: attachments_from mp (S i) rest
  end.

(** The overlay-add requests issued for one pin identifier. *)
Definition requests_for (pid : string) (ds : list TagDescriptor)
  : list TagDescriptor :=
  filter (fun d => tag_id d = pid) ds.

Definition first_with_id (pid : string) (pins : list Pin) : option (nat * Pin) :=
  list_find (fun p => id p = pid) pins.

(** The requests issued for an identifier: one, for the first pin
    that carries it. *)
Definition one_request_per_id (mp : Platform) (pins : list Pin)
    (issued : list TagDescriptor) : Prop :=
  forall pid,
    requests_for pid issued =
      match first_with_id pid pins with
      | Some (i, p) => [descriptor p (attach_of mp i p)]
      | None => []
      end.

(** Pins, arrays and platforms of the scenarios. *)
Definition pin (i content : string) : Pin :=
  {| id := i; html := content; position := (0, 0, 0); offset := (0, 1, 0);
     opacity := 1; enableLine := true; color := None; icon := None |}.

Definition two_pins_p1 : store :=
  {[ 1%positive := [pin "p1" "<b>first</b>"; pin "p1" "<b>second</b>"] ]}.

Definition p1_then_p2 : store :=
  {[ 1%positive := [pin "p1" "<b>first</b>"; pin "p2" "<b>second</b>"] ]}.

(** A platform that fulfils every request. *)
Definition obliging : Platform :=
  {| Tag_registerSandbox := fun _ content => resolved [String.append "sandbox:" content];
     Tag_add := fun _ _ => resolved tt |}.

(** A platform that fulfils every request but the second overlay-add. *)
Definition second_add_fails : Platform :=
  {| Tag_registerSandbox := fun _ content => resolved [String.append "sandbox:" content];
     Tag_add := fun k _ =>
       match k with
       | 1%nat => {| settles_at := 2; result := Rejected (Failure "add refused") |}
       | _ => {| settles_at := 1; result := Fulfilled tt |}
       end |}.

Definition no_pins_of_model (model : string) : settled (list Pin) :=
  Fulfilled [].

Definition one_pin_of_model (model : string) : settled (list Pin) :=
  Fulfilled [pin "p3" "<i>fetched</i>"].

End Overlay.

(** ** Definitions used to state and to prove the further properties *)

Module NumberOps.
Import JS Rounding.

(** [x === y] on numbers: the IEEE equality, which takes the two
    zeros for equal and NaN for different from itself. *)
Definition same (x y : number) : Prop := (x =? y)%float = true.

Definition exponent_or (s : spec_float) (otherwise : Z) : Z :=
  match s with
  | S754_finite _ _ e => e
  | _ => otherwise
  end.

(** The exact sum of two numbers, each finite or a zero, as a
    mantissa and an exponent. *)
Definition exact_add (x a : spec_float) : Z * Z :=
  let E := Z.min (exponent_or x (exponent_or a 0))
                 (exponent_or a (exponent_or x 0)) in
  (scaled_value x E + scaled_value a E, E).

(** The integer part of a number that is positive and finite, or a
    zero. *)
Definition floor_value (s : spec_float) : Z :=
  match s with
  | S754_finite false m e =>
      if 0 <=? e then Zpos m * 2 ^ e else Zpos m / 2 ^ (- e)
  | _ => 0
  end.

(** The largest number below 1. *)
Definition below_1 : number := 0x1.fffffffffffffp-1%float.

End NumberOps.

Module Mediator.
Import JS Three MapPortSDK.

(** A call of one of the three scene methods. *)
Inductive mesh_call :=
| AddScene (mesh : Mesh)
| RemoveMesh (mesh : Mesh)
| UpdateScene (mesh mesh2 : Mesh).

Definition call_method (s : t) (c : mesh_call) : t :=
  match c with
  | AddScene mesh => addScene mesh s
  | RemoveMesh mesh => removeMesh mesh s
  | UpdateScene mesh mesh2 => updateScene mesh mesh2 s
  end.

(** The calls read as operations on a set of meshes. *)
Definition as_set_operation (X : gset Mesh) (c : mesh_call) : gset Mesh :=
  match c with
  | AddScene mesh => {[ mesh ]} ∪ X
  | RemoveMesh mesh => X ∖ {[ mesh ]}
  | UpdateScene mesh mesh2 => {[ mesh2 ]} ∪ (X ∖ {[ mesh ]})
  end.

(** The meshes shown, in the order of the scene graph; none before
    [init]. *)
Definition meshes (s : t) : list Mesh :=
  match scene s with
  | Some sc => children sc
  | None => []
  end.

(** What the scenarios deliver: a drag far downwards, two frames, a
    wheel turn and a resize. *)
Definition a_session : list event :=
  [ PointerDown {| isPrimary := true; clientX := 400; clientY := 300 |};
    PointerMove {| isPrimary := true; clientX := 400; clientY := 5300 |};
    Frame;
    Wheel {| deltaY := -2000 |};
    Resize 1024 768;
    PointerUp {| isPrimary := true; clientX := 400; clientY := 5300 |};
    Frame ]%float.

(** The events that the pointer handlers do not ignore at once: all
    but those of a pointer that is not the primary one. *)
Definition of_primary_pointer (ev : event) : bool :=
  match ev with
  | PointerDown e | PointerMove e | PointerUp e => isPrimary e
  | _ => true
  end.

Definition is_wheel (ev : event) : bool :=
  match ev with Wheel _ => true | _ => false end.

Definition is_wheel_or_resize (ev : event) : bool :=
  match ev with Wheel _ | Resize _ _ => true | _ => false end.

(** The orientation and the drag session: every field but the
    container's size, the camera, the scene and the renderer. *)
Definition orientation (s : t) :=
  (isUserInteracting s, (mouseDownMouseX s, mouseDownMouseY s),
   (lon s, targetLon s, mouseDownLon s),
   (lat s, targetLat s, mouseDownLat s), (phi s, theta s)).

Definition field_of_view (s : t) : option number := fov <$> camera s.

End Mediator.

Module ReturnedObject.
Import Three MapportExtension Mediator.

(** A call of one of the three scene methods of the object that
    [setupSdk] returns. *)
Definition Sdk_call_method (sdk : Sdk) (c : mesh_call) : Sdk :=
  match c with
  | AddScene mesh => Sdk_addScene mesh sdk
  | RemoveMesh mesh => Sdk_removeMesh mesh sdk
  | UpdateScene mesh mesh2 => Sdk_updateScene mesh mesh2 sdk
  end.

End ReturnedObject.

Module Registration.
Import JS Promise MapportExtension Overlay.

(** The pin at position [i] is the first of the array with its
    identifier. *)
Definition is_first (ws : list Pin) (ip : nat * Pin) : Prop :=
  fst <$> first_with_id (id ip.2) ws = Some ip.1.

Global Instance is_first_dec ws ip : Decision (is_first ws ip).
Proof. unfold is_first. apply _. Defined.

(** The pins of [ws] with their positions, from position [n] on. *)
Definition numbered (n : nat) (suf : list Pin) : list (nat * Pin) :=
  imap (fun j p => ((n + j)%nat, p)) suf.

(** The requests for the pins of an array that are the first with
    their identifier, in the order of the array. *)
Definition first_occurrences (mp : Platform) (ws : list Pin) : list TagDescriptor :=
  (fun ip => descriptor ip.2 (attach_of mp ip.1 ip.2))
    <$> filter (is_first ws) (numbered 0 ws).

(** The second [Promise.all] seen from a position of the array on:
    the requests it issues, given the identifiers met so far. *)
Fixpoint new_requests (mp : Platform) (i : nat) (suf : list Pin)
    (existingIds : gset string) : list TagDescriptor :=
  match suf with
  | [] => []
  | p :: rest =>
      if decide (id p ∈ existingIds) then new_requests mp (S i) rest existingIds
      else descriptor p (attach_of mp i p)
             :: new_requests mp (S i) rest ({[ id p ]} ∪ existingIds)
  end.

(** Three pins, the third with the identifier of the first; a
    platform that refuses the sandbox requests of the first two, the
    second one sooner. *)
Definition p1_p2_p1 : store :=
  {[ 1%positive := [pin "p1" "<b>a</b>"; pin "p2" "<b>b</b>"; pin "p1" "<b>c</b>"] ]}.

Definition refuses_two : Platform :=
  {| Tag_registerSandbox := fun i content =>
       match i with
       | 0%nat => {| settles_at := 5; result := Rejected (Failure "first refused") |}
       | 1%nat => {| settles_at := 2; result := Rejected (Failure "second refused") |}
       | _ => {| settles_at := 1; result := Fulfilled ["sandbox"] |}
       end;
     Tag_add := fun _ _ => resolved tt |}.

Definition fetch_fails (model : string) : settled (list Pin) :=
  Rejected (Failure "no such model").

End Registration.

Module UuidShape.
Import Strings.Ascii JS Uuid.

(** What [Math.random] promises: a number from 0 up to, not
    including, 1. *)
Definition unit_interval (x : number) : Prop := le 0%float x /\ lt x 1%float.

(** The integer part of [16 * x]. *)
Definition drawn (x : number) : nat :=
  Z.to_nat (NumberOps.floor_value (Prim2SF (x * 16)%float)).

(** The hexadecimal digit of a number below 16. *)
Definition hex (n : nat) : Ascii.ascii :=
  nth n (String.list_ascii_of_string chars) "0"%char.

Definition is_hex (c : Ascii.ascii) : Prop :=
  exists n, (n < 16)%nat /\ c = hex n.

(** The positions of the four hyphens, and the position in the
    result of the digit drawn at round [k]. *)
Definition hyphen_at (k : nat) : bool :=
  (k =? 8)%nat || (k =? 13)%nat || (k =? 18)%nat || (k =? 23)%nat.

Definition position (k : nat) : nat :=
  if (k <? 8)%nat then k
  else if (k <? 12)%nat then k + 1
  else if (k <? 16)%nat then k + 2
  else if (k <? 20)%nat then k + 3
  else k + 4.

(** The characters of the result, given the 32 digits. *)
Definition format (ds : list Ascii.ascii) : list Ascii.ascii :=
  take 8 ds ++ "-"%char :: take 4 (drop 8 ds) ++ "-"%char :: take 4 (drop 12 ds)
    ++ "-"%char :: take 4 (drop 16 ds) ++ "-"%char :: drop 20 ds.

(** A source of random numbers that always answers the same. *)
Definition constant (x : number) : nat -> number := fun _ => x.

End UuidShape.

(** * Properties *)

(** ** Numbers: comparisons *)

Module NumberFacts.
Import JS Order.

Abbreviation SF := Prim2SF.

Lemma SFcompare_Lt s1 s2 :
  SFcompare s1 s2 = Some Lt <->
  s1 <> S754_nan /\ s2 <> S754_nan /\ key_lt (key s1) (key s2).
Proof.
  destruct s1 as [[]|[]| |[] m1 e1], s2 as [[]|[]| |[] m2 e2]; simpl;
    try (key_cases; fail);
    rewrite Pos.compare_cont_spec; simpl;
    destruct (Z.compare_spec e1 e2), (Pos.compare_spec m1 m2); simpl;
    key_cases.
Qed.

Lemma SFcompare_Eq s1 s2 :
  SFcompare s1 s2 = Some Eq <->
  s1 <> S754_nan /\ s2 <> S754_nan /\ key s1 = key s2.
Proof.
  destruct s1 as [[]|[]| |[] m1 e1], s2 as [[]|[]| |[] m2 e2]; simpl;
    try (key_cases; fail);
    rewrite Pos.compare_cont_spec; simpl;
    destruct (Z.compare_spec e1 e2), (Pos.compare_spec m1 m2); simpl;
    key_cases; subst; try reflexivity;
    injection HH3; intros; lia.
Qed.

Lemma key_le_lt_eq a b : key_le a b <-> key_lt a b \/ a = b.
Proof.
  destruct a as [[a1 a2] a3], b as [[b1 b2] b3]; simpl. split.
  - intros [H|[-> [H|[-> H]]]]; try (left; lia).
    destruct (Z.eq_dec a3 b3) as [->|]; [right; reflexivity | left; lia].
  - intros [H|H]; [lia | injection H; lia].
Qed.

Lemma is_nan_SF x : is_nan x = true <-> SF x = S754_nan.
Proof.
  unfold is_nan. rewrite FloatAxioms.eqb_spec. unfold SFeqb.
  destruct (Prim2SF x) as [[]|[]| |[] m e] eqn:E; simpl;
    try rewrite Z.compare_refl, Pos.compare_cont_refl; simpl;
    split; congruence.
Qed.

Lemma is_number_SF x : is_number x <-> SF x <> S754_nan.
Proof.
  unfold is_number. pose proof (is_nan_SF x) as H.
  destruct (is_nan x); split; intros; try congruence.
  - exfalso. apply H0, H. reflexivity.
  - intros E. apply H in E. discriminate.
Qed.

Lemma lt_key x y :
  lt x y <-> is_number x /\ is_number y /\ key_lt (key (SF x)) (key (SF y)).
Proof.
  unfold lt. rewrite FloatAxioms.ltb_spec, !is_number_SF, <- SFcompare_Lt. unfold SFltb.
  destruct (SFcompare _ _) as [[]|]; split; intros; auto; discriminate.
Qed.

Lemma le_key x y :
  le x y <-> is_number x /\ is_number y /\ key_le (key (SF x)) (key (SF y)).
Proof.
  unfold le. rewrite FloatAxioms.leb_spec, !is_number_SF, key_le_lt_eq. unfold SFleb.
  pose proof (SFcompare_Lt (SF x) (SF y)) as HL.
  pose proof (SFcompare_Eq (SF x) (SF y)) as HE.
  destruct (SFcompare _ _) as [[]|]; split; intros H; auto;
    try discriminate.
  - destruct HE as [HE _]. destruct (HE eq_refl) as (? & ? & ?). auto.
  - destruct HL as [HL _]. destruct (HL eq_refl) as (? & ? & ?). auto.
  - destruct H as (H1 & H2 & [H|H]).
    + destruct HL as [_ HL]. discriminate HL; auto.
    + destruct HE as [_ HE]. discriminate HE; auto.
  - destruct H as (H1 & H2 & [H|H]).
    + destruct HL as [_ HL]. discriminate HL; auto.
    + destruct HE as [_ HE]. discriminate HE; auto.
Qed.

Lemma le_is_number_l x y : le x y -> is_number x.
Proof. rewrite le_key. tauto. Qed.

Lemma le_is_number_r x y : le x y -> is_number y.
Proof. rewrite le_key. tauto. Qed.

Lemma key_le_refl a : key_le a a.
Proof. destruct a as [[a1 a2] a3]; simpl; lia. Qed.

Lemma key_le_trans a b c : key_le a b -> key_le b c -> key_le a c.
Proof.
  destruct a as [[a1 a2] a3], b as [[b1 b2] b3], c as [[c1 c2] c3]; simpl; lia.
Qed.

Lemma key_lt_le a b : key_lt a b -> key_le a b.
Proof. destruct a as [[a1 a2] a3], b as [[b1 b2] b3]; simpl; lia. Qed.

Lemma key_total a b : key_lt a b \/ key_le b a.
Proof. destruct a as [[a1 a2] a3], b as [[b1 b2] b3]; simpl; lia. Qed.

Lemma le_refl x : is_number x -> le x x.
Proof. rewrite le_key. auto using key_le_refl. Qed.

Lemma le_trans x y z : le x y -> le y z -> le x z.
Proof.
  rewrite !le_key. intros (? & ? & ?) (? & ? & ?).
  eauto using key_le_trans.
Qed.

Lemma lt_le x y : lt x y -> le x y.
Proof. rewrite lt_key, le_key. intros (? & ? & ?). auto using key_lt_le. Qed.

(** Two numbers are comparable: when [x < y] fails, [y <= x]. *)
Lemma not_lt_le x y :
  is_number x -> is_number y -> (x <? y)%float = false -> le y x.
Proof.
  intros Hx Hy Hlt. apply le_key. repeat split; auto.
  destruct (key_total (key (SF x)) (key (SF y))) as [H|H]; auto.
  assert (lt x y) as Hc by (apply lt_key; auto).
  unfold lt in Hc. congruence.
Qed.

Lemma key_inj s1 s2 :
  s1 <> S754_nan -> s2 <> S754_nan ->
  (forall b, s1 <> S754_zero b) -> key s1 = key s2 -> s1 = s2.
Proof.
  destruct s1 as [[]|[]| |[] m1 e1], s2 as [[]|[]| |[] m2 e2]; simpl;
    intros N1 N2 Z1 K; try congruence; try discriminate;
    try (exfalso; eapply Z1; reflexivity);
    injection K; intros; f_equal; lia.
Qed.

(** Numbers that compare equal are the same number, the two zeros
    apart. *)
Lemma le_antisym x y :
  (forall b, SF x <> S754_zero b) -> le x y -> le y x -> x = y.
Proof.
  rewrite !le_key. intros Hz (Hx & Hy & H1) (_ & _ & H2).
  apply Prim2SF_inj, key_inj; try (apply is_number_SF; assumption); auto.
  destruct (key (SF x)) as [[a1 a2] a3], (key (SF y)) as [[b1 b2] b3].
  simpl in *. f_equal; [f_equal|]; lia.
Qed.

(** *** [Math.min], [Math.max] and [clamp] *)

Lemma Math_min_nan x y : is_nan x = true \/ is_nan y = true -> Math_min x y = nan.
Proof.
  unfold Math_min. intros [-> | ->]; [reflexivity|].
  rewrite orb_true_r. reflexivity.
Qed.

Lemma Math_max_nan x y : is_nan x = true \/ is_nan y = true -> Math_max x y = nan.
Proof.
  unfold Math_max. intros [-> | ->]; [reflexivity|].
  rewrite orb_true_r. reflexivity.
Qed.

(** [Math.min] answers one of its arguments, one that is below the
    other. *)
Lemma Math_min_cases x y :
  is_number x -> is_number y ->
  (Math_min x y = x /\ le x y) \/ (Math_min x y = y /\ le y x).
Proof.
  intros Hx Hy. unfold Math_min. rewrite Hx, Hy. simpl.
  destruct (x <? y)%float eqn:Hxy.
  { left. split; [reflexivity | apply lt_le, Hxy]. }
  destruct (y <? x)%float eqn:Hyx.
  { right. split; [reflexivity | apply lt_le, Hyx]. }
  destruct (get_sign x).
  - left. split; [reflexivity | apply not_lt_le; assumption].
  - right. split; [reflexivity | apply not_lt_le; assumption].
Qed.

Lemma Math_max_cases x y :
  is_number x -> is_number y ->
  (Math_max x y = x /\ le y x) \/ (Math_max x y = y /\ le x y).
Proof.
  intros Hx Hy. unfold Math_max. rewrite Hx, Hy. simpl.
  destruct (x <? y)%float eqn:Hxy.
  { right. split; [reflexivity | apply lt_le, Hxy]. }
  destruct (y <? x)%float eqn:Hyx.
  { left. split; [reflexivity | apply lt_le, Hyx]. }
  destruct (get_sign x).
  - right. split; [reflexivity | apply not_lt_le; assumption].
  - left. split; [reflexivity | apply not_lt_le; assumption].
Qed.

(** Whatever number goes in, [Math.max(lo, Math.min(hi, v))] lies in
    [[lo, hi]]. *)
Lemma clamp_between v lo hi :
  is_number v -> le lo hi -> between lo hi (Three.clamp v lo hi).
Proof.
  intros Hv Hlh. unfold Three.clamp, between.
  pose proof (le_is_number_l _ _ Hlh) as Hlo.
  pose proof (le_is_number_r _ _ Hlh) as Hhi.
  destruct (Math_min_cases hi v Hhi Hv) as [[-> Hm]|[-> Hm]].
  - destruct (Math_max_cases lo hi Hlo Hhi) as [[-> HM]|[-> HM]];
      auto using le_refl.
  - destruct (Math_max_cases lo v Hlo Hv) as [[-> HM]|[-> HM]];
      auto using le_refl.
Qed.

Lemma clamp_nan lo hi : Three.clamp nan lo hi = nan.
Proof.
  unfold Three.clamp. rewrite (Math_min_nan hi nan) by (right; reflexivity).
  apply Math_max_nan. right; reflexivity.
Qed.

(** Below the interval [clamp] answers [lo], above it [hi], inside it
    the value itself. *)
Lemma clamp_below v lo hi :
  (forall b, SF lo <> S754_zero b) ->
  le lo hi -> le v lo -> Three.clamp v lo hi = lo.
Proof.
  intros Hz Hlh Hv. unfold Three.clamp.
  pose proof (le_is_number_l _ _ Hlh) as Hlo.
  pose proof (le_is_number_r _ _ Hlh) as Hhi.
  pose proof (le_is_number_l _ _ Hv) as Hnv.
  destruct (Math_min_cases hi v Hhi Hnv) as [[-> Hm]|[-> Hm]].
  - destruct (Math_max_cases lo hi Hlo Hhi) as [[-> HM]|[-> HM]]; auto.
    symmetry. apply le_antisym; auto. eauto using le_trans.
  - destruct (Math_max_cases lo v Hlo Hnv) as [[-> HM]|[-> HM]]; auto.
    symmetry. apply le_antisym; auto.
Qed.

Lemma clamp_above v lo hi :
  (forall b, SF hi <> S754_zero b) ->
  le lo hi -> le hi v -> Three.clamp v lo hi = hi.
Proof.
  intros Hz Hlh Hv. unfold Three.clamp.
  pose proof (le_is_number_l _ _ Hlh) as Hlo.
  pose proof (le_is_number_r _ _ Hlh) as Hhi.
  pose proof (le_is_number_r _ _ Hv) as Hnv.
  assert (Math_min hi v = hi) as ->.
  { destruct (Math_min_cases hi v Hhi Hnv) as [[-> Hm]|[-> Hm]]; auto.
    symmetry. apply le_antisym; auto. }
  destruct (Math_max_cases lo hi Hlo Hhi) as [[-> HM]|[-> HM]]; auto.
  symmetry. apply le_antisym; auto.
Qed.

Lemma clamp_inside v lo hi :
  (forall b, SF lo <> S754_zero b) -> (forall b, SF hi <> S754_zero b) ->
  between lo hi v -> Three.clamp v lo hi = v.
Proof.
  intros Hzl Hzh [Hl Hh]. unfold Three.clamp.
  pose proof (le_is_number_l _ _ Hl) as Hlo.
  pose proof (le_is_number_r _ _ Hh) as Hhi.
  pose proof (le_is_number_l _ _ Hh) as Hnv.
  assert (Math_min hi v = v) as ->.
  { destruct (Math_min_cases hi v Hhi Hnv) as [[-> Hm]|[-> Hm]]; auto.
    apply le_antisym; auto. }
  destruct (Math_max_cases lo v Hlo Hnv) as [[-> HM]|[-> HM]]; auto.
  apply le_antisym; auto.
Qed.

(** [clamp] is monotone in the value it clamps. *)
Lemma clamp_mono v1 v2 lo hi :
  le lo hi -> le v1 v2 ->
  le (Three.clamp v1 lo hi) (Three.clamp v2 lo hi).
Proof.
  intros Hlh Hv. unfold Three.clamp.
  pose proof (le_is_number_l _ _ Hlh) as Hlo.
  pose proof (le_is_number_r _ _ Hlh) as Hhi.
  pose proof (le_is_number_l _ _ Hv) as H1.
  pose proof (le_is_number_r _ _ Hv) as H2.
  destruct (Math_min_cases hi v1 Hhi H1) as [[-> Hm1]|[-> Hm1]];
    destruct (Math_min_cases hi v2 Hhi H2) as [[-> Hm2]|[-> Hm2]].
  all: repeat match goal with
         | |- context [Math_max ?a ?b] =>
             let H := fresh "HM" in
             destruct (Math_max_cases a b) as [[-> H]|[-> H]]; [assumption..| |]
         end; eauto using le_refl, le_trans.
Qed.

End NumberFacts.

(** ** Numbers: rounding *)

Module RoundingFacts.
Import JS Order Rounding NumberFacts.

Abbreviation fexp := (SpecFloat.fexp prec emax).
Abbreviation bounded := (SpecFloat.bounded prec emax).
Abbreviation round_aux := (binary_round_aux prec emax).
Abbreviation round := (binary_round prec emax).

(** *** The number of binary digits *)

Lemma digits2_pos_size p : digits2_pos p = Pos.size p.
Proof. induction p; simpl; congruence. Qed.

Lemma Zdigits2_log2 m : 0 < m -> Zdigits2 m = Z.log2 m + 1.
Proof.
  destruct m as [|p|p]; try lia. intros _. simpl.
  rewrite digits2_pos_size. destruct p; simpl; lia.
Qed.

Lemma Zdigits2_0 : Zdigits2 0 = 0.
Proof. reflexivity. Qed.

Lemma Zdigits2_nonneg m : 0 <= Zdigits2 m.
Proof. destruct m; simpl; lia. Qed.

Lemma Zdigits2_le a b : 0 <= a <= b -> Zdigits2 a <= Zdigits2 b.
Proof.
  intros [Ha Hab]. destruct (Z.eq_dec a 0) as [->|].
  - apply Zdigits2_nonneg.
  - rewrite !Zdigits2_log2 by lia.
    pose proof (Z.log2_le_mono a b Hab). lia.
Qed.

Lemma Zdigits2_mul_pow2 a k :
  0 < a -> 0 <= k -> Zdigits2 (a * 2 ^ k) = Zdigits2 a + k.
Proof.
  intros Ha Hk.
  assert (0 < a * 2 ^ k)
    by (apply Z.mul_pos_pos; [lia|]; apply Z.pow_pos_nonneg; lia).
  rewrite !Zdigits2_log2 by lia.
  rewrite Z.log2_mul_pow2 by lia. lia.
Qed.

Lemma Zdigits2_bounds m :
  0 < m -> 2 ^ (Zdigits2 m - 1) <= m < 2 ^ Zdigits2 m.
Proof.
  intros Hm. rewrite Zdigits2_log2 by lia.
  replace (Z.log2 m + 1 - 1) with (Z.log2 m) by lia.
  replace (Z.log2 m + 1) with (Z.succ (Z.log2 m)) by lia.
  apply Z.log2_spec, Hm.
Qed.

Lemma Zdigits2_lt_pow2 m k : 0 <= m < 2 ^ k -> 0 <= k -> Zdigits2 m <= k.
Proof.
  intros [Hm Hlt] Hk. destruct (Z.eq_dec m 0) as [->|]; [simpl; lia|].
  rewrite Zdigits2_log2 by lia.
  assert (Z.log2 m < k) by (apply Z.log2_lt_pow2; lia). lia.
Qed.

Lemma Zdigits2_ge_pow2 m k : 2 ^ k <= m -> 0 <= k -> k + 1 <= Zdigits2 m.
Proof.
  intros Hle Hk.
  assert (0 < 2 ^ k) by (apply Z.pow_pos_nonneg; lia).
  rewrite Zdigits2_log2 by lia.
  assert (k <= Z.log2 m) by (apply Z.log2_le_pow2; lia). lia.
Qed.

Lemma Zdigits2_div_pow2 m k :
  0 < m -> 0 <= k -> k < Zdigits2 m -> Zdigits2 (m / 2 ^ k) = Zdigits2 m - k.
Proof.
  intros Hm Hk Hlt.
  pose proof (Zdigits2_bounds m Hm) as [Hlo Hhi].
  assert (0 < 2 ^ k) as Hp by (apply Z.pow_pos_nonneg; lia).
  assert (2 ^ (Zdigits2 m - 1 - k) <= m / 2 ^ k) as H1.
  { apply Z.div_le_lower_bound; [lia|].
    rewrite <- Z.pow_add_r by lia.
    replace (k + (Zdigits2 m - 1 - k)) with (Zdigits2 m - 1) by lia. lia. }
  assert (m / 2 ^ k < 2 ^ (Zdigits2 m - k)) as H2.
  { apply Z.div_lt_upper_bound; [lia|].
    rewrite <- Z.pow_add_r by lia.
    replace (k + (Zdigits2 m - k)) with (Zdigits2 m) by lia. lia. }
  pose proof (Zdigits2_lt_pow2 (m / 2 ^ k) (Zdigits2 m - k)) as H3.
  pose proof (Zdigits2_ge_pow2 (m / 2 ^ k) (Zdigits2 m - 1 - k)) as H4.
  assert (0 <= m / 2 ^ k) by (apply Z.div_pos; lia).
  lia.
Qed.

(** *** Shifting right *)

Lemma shr_1_m mrs : 0 <= shr_m mrs -> shr_m (shr_1 mrs) = shr_m mrs / 2.
Proof.
  destruct mrs as [m r s]. simpl. intros Hm.
  destruct m as [|[p|p|]|p]; try lia; try reflexivity;
    cbn [shr_1 shr_m].
  - apply Z.div_unique with 1; lia.
  - apply Z.div_unique with 0; lia.
Qed.

Lemma iter_shr_1_m p : forall mrs,
  0 <= shr_m mrs ->
  shr_m (SpecFloat.iter_pos shr_1 p mrs) = shr_m mrs / 2 ^ Zpos p.
Proof.
  assert (forall k, 0 < 2 ^ Zpos k) as Hpow
    by (intros; apply Z.pow_pos_nonneg; lia).
  induction p as [p IH|p IH|]; intros mrs Hm; cbn [SpecFloat.iter_pos].
  - set (a := shr_1 mrs).
    assert (0 <= shr_m a) as Ha
      by (unfold a; rewrite shr_1_m by assumption; apply Z.div_pos; lia).
    set (b := SpecFloat.iter_pos shr_1 p a).
    assert (0 <= shr_m b) as Hb
      by (unfold b; rewrite IH by assumption; apply Z.div_pos; auto).
    rewrite (IH b Hb). unfold b. rewrite (IH a Ha). unfold a.
    rewrite shr_1_m by assumption.
    pose proof (Hpow p).
    rewrite !Z.div_div by lia.
    f_equal. replace (Z.pos p~1) with (1 + Z.pos p + Z.pos p) by lia.
    rewrite !Z.pow_add_r by lia. change (2 ^ 1) with 2. lia.
  - set (b := SpecFloat.iter_pos shr_1 p mrs).
    assert (0 <= shr_m b) as Hb
      by (unfold b; rewrite IH by assumption; apply Z.div_pos; auto).
    rewrite (IH b Hb). unfold b. rewrite (IH mrs Hm).
    pose proof (Hpow p).
    rewrite !Z.div_div by lia.
    f_equal. replace (Z.pos p~0) with (Z.pos p + Z.pos p) by lia.
    rewrite !Z.pow_add_r by lia. reflexivity.
  - rewrite shr_1_m by assumption. reflexivity.
Qed.

(** [shr] divides the mantissa by [2 ^ n] and adds [n] to the
    exponent, when [n] is positive; otherwise it does nothing. *)
Lemma shr_m_e mrs e n :
  0 <= shr_m mrs ->
  shr_m (fst (shr mrs e n)) = shr_m mrs / 2 ^ Z.max 0 n /\
  snd (shr mrs e n) = e + Z.max 0 n.
Proof.
  intros Hm. destruct n as [|p|p]; simpl.
  - rewrite Z.div_1_r. lia.
  - rewrite iter_shr_1_m by assumption. split; [reflexivity | lia].
  - rewrite Z.div_1_r. lia.
Qed.

Lemma shr_record_of_loc_m m l : shr_m (shr_record_of_loc m l) = m.
Proof. destruct l as [|[]]; reflexivity. Qed.

Lemma round_nearest_even_cases m l :
  round_nearest_even m l = m \/ round_nearest_even m l = m + 1.
Proof.
  destruct l as [|[]]; simpl; auto. destruct (Z.even m); auto.
Qed.

Lemma round_aux_spec sx m e l :
  0 <= m ->
  let n := Z.max 0 (fexp (Zdigits2 m + e) - e) in
  exists m1, (m1 = m / 2 ^ n \/ m1 = m / 2 ^ n + 1) /\
             round_aux sx m e l = finish sx m1 (e + n).
Proof.
  intros Hm n. unfold binary_round_aux, shr_fexp.
  pose proof (shr_m_e (shr_record_of_loc m l) e (fexp (Zdigits2 m + e) - e)) as H1.
  rewrite shr_record_of_loc_m in H1. specialize (H1 Hm).
  destruct (shr (shr_record_of_loc m l) e _) as [mrs1 e1]. simpl in H1.
  destruct H1 as [Hm1 He1]. fold n in Hm1, He1.
  set (m1 := round_nearest_even (shr_m mrs1) (loc_of_shr_record mrs1)).
  assert (0 <= m / 2 ^ n) as Hq
    by (apply Z.div_pos; [lia | apply Z.pow_pos_nonneg; lia]).
  assert (m1 = m / 2 ^ n \/ m1 = m / 2 ^ n + 1) as Hcases.
  { unfold m1. rewrite <- Hm1. apply round_nearest_even_cases. }
  exists m1. split; [assumption|].
  pose proof (shr_m_e (shr_record_of_loc m1 loc_Exact) e1
                (fexp (Zdigits2 m1 + e1) - e1)) as H2.
  rewrite shr_record_of_loc_m in H2.
  assert (0 <= m1) as Hm1' by lia. specialize (H2 Hm1').
  destruct (shr (shr_record_of_loc m1 loc_Exact) e1 _) as [mrs2 e2].
  simpl in H2. destruct H2 as [Hm2 He2].
  unfold finish. rewrite <- He1, Hm2, He2. reflexivity.
Qed.

Lemma finish_signed sx m1 f : 0 <= m1 -> signed sx (finish sx m1 f).
Proof.
  intros Hm. unfold finish.
  set (n2 := Z.max 0 _).
  assert (0 <= m1 / 2 ^ n2) as Hq
    by (apply Z.div_pos; [lia | apply Z.pow_pos_nonneg; lia]).
  destruct (m1 / 2 ^ n2); try lia; simpl; auto.
  destruct (_ <=? _); simpl; auto.
Qed.

Lemma round_aux_signed sx m e l : 0 <= m -> signed sx (round_aux sx m e l).
Proof.
  intros Hm. destruct (round_aux_spec sx m e l Hm) as (m1 & Hc & ->).
  apply finish_signed.
  assert (0 <= m / 2 ^ Z.max 0 (fexp (Zdigits2 m + e) - e))
    by (apply Z.div_pos; [lia | apply Z.pow_pos_nonneg; lia]).
  lia.
Qed.

Lemma signed_not_nan b s : signed b s -> s <> S754_nan.
Proof. destruct s; simpl; congruence. Qed.

(** *** Binary64: 53 digits, exponents from -1074 to 971 *)

Lemma fexp_eq e : fexp e = Z.max (e - 53) (-1074).
Proof. reflexivity. Qed.

Lemma bounded_spec m e :
  bounded m e = true <-> fexp (Zdigits2 (Zpos m) + e) = e /\ e <= 971.
Proof.
  unfold SpecFloat.bounded, canonical_mantissa.
  rewrite andb_true_iff, Z.eqb_eq, Z.leb_le. reflexivity.
Qed.

Lemma iter_xO m d : Zpos (Pos.iter xO m d) = Zpos m * 2 ^ Zpos d.
Proof.
  induction d as [|d IH] using Pos.peano_ind.
  - simpl. lia.
  - rewrite Pos.iter_succ, Pos2Z.inj_xO, IH, Pos2Z.inj_succ.
    rewrite Z.pow_succ_r by lia. lia.
Qed.

Lemma shl_align_spec m e e' :
  Zpos (fst (shl_align m e e')) = Zpos m * 2 ^ Z.max 0 (e - e') /\
  snd (shl_align m e e') = Z.min e e'.
Proof.
  unfold shl_align. destruct (e' - e) as [|p|p] eqn:E; simpl.
  - replace (Z.max 0 (e - e')) with 0 by lia. simpl. lia.
  - replace (Z.max 0 (e - e')) with 0 by lia. simpl. lia.
  - rewrite iter_xO. replace (Z.max 0 (e - e')) with (Zpos p) by lia. lia.
Qed.

(** [binary_round] first pads the mantissa when it is short, then
    rounds. *)
Lemma round_spec sx M E :
  let f := fexp (Zdigits2 (Zpos M) + E) in
  let q := Zpos M * 2 ^ Z.max 0 (E - f) / 2 ^ Z.max 0 (f - E) in
  exists m1, (m1 = q \/ m1 = q + 1) /\ round sx M E = finish sx m1 f.
Proof.
  intros f q. unfold binary_round.
  change (Z.pos (digits2_pos M)) with (Zdigits2 (Zpos M)). fold f.
  pose proof (shl_align_spec M E f) as [Hm He].
  destruct (shl_align M E f) as [mz ez]. simpl in Hm, He.
  assert (0 < 2 ^ Z.max 0 (E - f)) as Hp by (apply Z.pow_pos_nonneg; lia).
  assert (fexp (Zdigits2 (Zpos mz) + ez) = f) as Hf.
  { rewrite Hm, Zdigits2_mul_pow2 by lia. unfold f. rewrite !fexp_eq.
    pose proof (fexp_eq (Zdigits2 (Zpos M) + E)) as Hf. fold f in Hf. lia. }
  destruct (round_aux_spec sx (Zpos mz) ez loc_Exact) as (m1 & Hc & Hr); [lia|].
  rewrite Hf in Hc, Hr.
  exists m1. split.
  - unfold q. rewrite <- Hm.
    replace (Z.max 0 (f - ez)) with (Z.max 0 (f - E)) in Hc by lia.
    exact Hc.
  - rewrite Hr. f_equal.
    pose proof (fexp_eq (Zdigits2 (Zpos M) + E)) as Hf'. fold f in Hf'. lia.
Qed.

Lemma finish_pos_spec sx m1 f :
  1 <= m1 -> -1074 <= f ->
  let n2 := Z.max 0 (Zdigits2 m1 - 53) in
  exists p, Zpos p = m1 / 2 ^ n2 /\
    finish sx m1 f =
      if f + n2 <=? 971 then S754_finite sx p (f + n2) else S754_infinity sx.
Proof.
  intros Hm Hf n2. unfold finish.
  assert (Z.max 0 (fexp (Zdigits2 m1 + f) - f) = n2) as -> .
  { unfold n2. rewrite fexp_eq. lia. }
  assert (0 < m1 / 2 ^ n2) as Hq.
  { assert (0 <= m1 / 2 ^ n2)
      by (apply Z.div_pos; [lia | apply Z.pow_pos_nonneg; lia]).
    destruct (Z.eq_dec n2 0) as [E|E].
    - rewrite E, Z.div_1_r. lia.
    - assert (Zdigits2 (m1 / 2 ^ n2) = Zdigits2 m1 - n2) as Hd
        by (apply Zdigits2_div_pow2; lia).
      destruct (Z.eq_dec (m1 / 2 ^ n2) 0) as [E0|]; [|lia].
      rewrite E0 in Hd. simpl in Hd. lia. }
  destruct (m1 / 2 ^ n2) as [|p|p]; try lia.
  exists p. split; reflexivity.
Qed.

(** Rounding cannot cross a binary64 number: what rounds a value at
    least as large as the number [mx * 2 ^ ex] is at least that
    number... *)
Lemma round_ge mx ex M E :
  bounded mx ex = true -> E <= ex ->
  Zpos mx * 2 ^ (ex - E) <= Zpos M ->
  key_le (1, ex, Zpos mx) (key (round false M E)).
Proof.
  intros Hb HE Hval. apply bounded_spec in Hb as [Hcx Hex].
  rewrite fexp_eq in Hcx.
  destruct (round_spec false M E) as (m1 & Hm1 & ->).
  set (f := fexp (Zdigits2 (Zpos M) + E)) in *.
  assert (0 < 2 ^ (ex - E)) as Hp by (apply Z.pow_pos_nonneg; lia).
  assert (Zdigits2 (Zpos mx) + (ex - E) <= Zdigits2 (Zpos M)) as Hd.
  { rewrite <- Zdigits2_mul_pow2 by lia. apply Zdigits2_le. lia. }
  assert (f = Z.max (Zdigits2 (Zpos M) + E - 53) (-1074)) as Hf
    by (unfold f; rewrite fexp_eq; reflexivity).
  assert (ex <= f) as Hexf by lia.
  replace (Z.max 0 (E - f)) with 0 in Hm1 by lia.
  replace (Z.max 0 (f - E)) with (f - E) in Hm1 by lia.
  rewrite Z.pow_0_r, Z.mul_1_r in Hm1.
  set (q := Zpos M / 2 ^ (f - E)) in *.
  assert (0 < 2 ^ (f - E)) as Hp' by (apply Z.pow_pos_nonneg; lia).
  assert (1 <= q /\ (f = ex -> Zpos mx <= q)) as [Hq1 Hq2].
  { destruct (Z.eq_dec f ex) as [E1|E1].
    - assert (Zpos mx <= q); [|split; [lia | auto]].
      unfold q. rewrite E1. apply Z.div_le_lower_bound; lia.
    - split; [|lia].
      assert (Zdigits2 q = 53) as Hdq.
      { unfold q. rewrite Zdigits2_div_pow2; lia. }
      destruct (Z.eq_dec q 0) as [E0|]; [rewrite E0 in Hdq; discriminate|].
      assert (0 <= q)
        by (unfold q; apply Z.div_pos; lia).
      lia. }
  assert (1 <= m1) as H1 by lia.
  destruct (finish_pos_spec false m1 f H1) as (p & Hp2 & ->); [lia|].
  destruct (_ <=? _) eqn:Hle; simpl; [|lia].
  destruct (Z.eq_dec (Z.max 0 (Zdigits2 m1 - 53)) 0) as [E0|E0].
  - rewrite E0, Z.div_1_r in Hp2. rewrite E0. lia.
  - lia.
Qed.

(** ... and what rounds a smaller value is at most that number. *)
Lemma round_le mx ex M E :
  bounded mx ex = true -> E <= ex ->
  Zpos M < Zpos mx * 2 ^ (ex - E) ->
  key_le (key (round false M E)) (1, ex, Zpos mx).
Proof.
  intros Hb HE Hval. apply bounded_spec in Hb as [Hcx Hex].
  rewrite fexp_eq in Hcx.
  destruct (round_spec false M E) as (m1 & Hm1 & ->).
  set (f := fexp (Zdigits2 (Zpos M) + E)) in *.
  assert (0 < 2 ^ (ex - E)) as Hp by (apply Z.pow_pos_nonneg; lia).
  assert (Zdigits2 (Zpos M) <= Zdigits2 (Zpos mx) + (ex - E)) as Hd.
  { rewrite <- Zdigits2_mul_pow2 by lia. apply Zdigits2_le. lia. }
  assert (f = Z.max (Zdigits2 (Zpos M) + E - 53) (-1074)) as Hf
    by (unfold f; rewrite fexp_eq; reflexivity).
  assert (f <= ex) as Hexf by lia.
  set (q := Zpos M * 2 ^ Z.max 0 (E - f) / 2 ^ Z.max 0 (f - E)) in *.
  pose proof (Zdigits2_bounds (Zpos M) eq_refl) as [_ HM].
  pose proof (Zdigits2_bounds (Zpos mx) eq_refl) as [Hmx1 Hmx2].
  assert (0 <= q < 2 ^ 53 /\ (f = ex -> q < Zpos mx)) as [[Hq0 Hq1] Hq2].
  { destruct (Z_le_gt_dec E f) as [Le|Gt].
    - unfold q. replace (Z.max 0 (E - f)) with 0 by lia.
      replace (Z.max 0 (f - E)) with (f - E) by lia.
      rewrite Z.pow_0_r, Z.mul_1_r.
      assert (0 < 2 ^ (f - E)) as Hp' by (apply Z.pow_pos_nonneg; lia).
      repeat split.
      + apply Z.div_pos; lia.
      + apply Z.div_lt_upper_bound; [lia|].
        rewrite <- Z.pow_add_r by lia.
        eapply Z.lt_le_trans; [exact HM|].
        apply Z.pow_le_mono_r; lia.
      + intros ->. apply Z.div_lt_upper_bound; lia.
    - unfold q. replace (Z.max 0 (f - E)) with 0 by lia.
      replace (Z.max 0 (E - f)) with (E - f) by lia.
      rewrite Z.pow_0_r, Z.div_1_r.
      assert (0 < 2 ^ (E - f)) as Hp' by (apply Z.pow_pos_nonneg; lia).
      pose proof (Zdigits2_nonneg (Zpos M)).
      split; [split|lia].
      + apply Z.mul_nonneg_nonneg; lia.
      + replace 53 with ((53 - (E - f)) + (E - f)) by lia.
        rewrite Z.pow_add_r by lia.
        apply Z.mul_lt_mono_pos_r; [lia|].
        eapply Z.lt_le_trans; [exact HM|].
        apply Z.pow_le_mono_r; lia. }
  destruct (Z.eq_dec m1 0) as [E0|E0].
  { rewrite E0. unfold finish. rewrite Z.div_0_l; simpl; [lia|].
    apply Z.pow_nonzero; lia. }
  assert (1 <= m1) as H1 by lia.
  destruct (finish_pos_spec false m1 f H1) as (p & Hp2 & ->); [lia|].
  assert (m1 <= 2 ^ 53) as Hm53 by lia.
  assert (Zdigits2 m1 <= 54) as Hd1.
  { apply Zdigits2_lt_pow2; [|lia]. change (2 ^ 54) with (2 * 2 ^ 53). lia. }
  destruct (Z_le_gt_dec (Zdigits2 m1) 53) as [Le|Gt].
  - replace (Z.max 0 (Zdigits2 m1 - 53)) with 0 in * by lia.
    rewrite Z.div_1_r in Hp2. rewrite Z.add_0_r.
    replace (f <=? 971) with true by (symmetry; apply Z.leb_le; lia).
    simpl. lia.
  - replace (Z.max 0 (Zdigits2 m1 - 53)) with 1 in * by lia.
    assert (m1 = 2 ^ 53) as Em.
    { pose proof (Zdigits2_bounds m1 ltac:(lia)) as [Hlo _].
      replace (Zdigits2 m1 - 1) with 53 in Hlo by lia. lia. }
    rewrite Em in Hp2. change (2 ^ 53 / 2 ^ 1) with (2 ^ 52) in Hp2.
    assert (f <> ex) as Hne.
    { intros ->. specialize (Hq2 eq_refl).
      assert (Zpos mx < 2 ^ 53); [|lia].
      eapply Z.lt_le_trans; [exact Hmx2|]. apply Z.pow_le_mono_r; lia. }
    replace (f + 1 <=? 971) with true by (symmetry; apply Z.leb_le; lia).
    simpl. destruct (Z.eq_dec (f + 1) ex) as [E1|E1]; [|lia].
    assert (Zdigits2 (Zpos mx) = 53) as Hdx by lia.
    rewrite Hdx in Hmx1. change (53 - 1) with 52 in Hmx1. lia.
Qed.

Lemma round_signed sx M E : signed sx (round sx M E).
Proof.
  destruct (round_spec sx M E) as (m1 & Hm1 & ->).
  apply finish_signed.
  set (q := _ / _) in Hm1.
  assert (0 <= q); [|lia].
  apply Z.div_pos; [|apply Z.pow_pos_nonneg; lia].
  apply Z.mul_nonneg_nonneg; [lia|]. apply Z.pow_nonneg. lia.
Qed.

Lemma binary_normalize_not_nan m e sz :
  binary_normalize prec emax m e sz <> S754_nan.
Proof.
  destruct m; simpl; try discriminate;
    eapply signed_not_nan, round_signed.
Qed.

Lemma signed_false_key s : signed false s -> key_le (0, 0, 0) (key s).
Proof. destruct s as [[]|[]| |[] m e]; simpl; intros; try lia; easy. Qed.

Lemma signed_true_key s : signed true s -> key_le (key s) (0, 0, 0).
Proof. destruct s as [[]|[]| |[] m e]; simpl; intros; try lia; easy. Qed.

(** *** Sums *)

(** Adding a positive number to a positive binary64 number does not
    go below it. *)
Lemma SFadd_pos_pos_ge mx ex my ey :
  bounded mx ex = true ->
  key_le (1, ex, Zpos mx)
         (key (SF64add (S754_finite false mx ex) (S754_finite false my ey))).
Proof.
  intros Hb. unfold SF64add, SFadd. cbn [cond_Zopp].
  pose proof (shl_align_spec mx ex (Z.min ex ey)) as [HA _].
  set (A := fst (shl_align mx ex (Z.min ex ey))) in *.
  set (B := fst (shl_align my ey (Z.min ex ey))) in *.
  change (Z.pos A + Z.pos B) with (Z.pos (A + B)).
  cbn [binary_normalize].
  apply round_ge; [assumption | lia |].
  replace (Z.max 0 (ex - Z.min ex ey)) with (ex - Z.min ex ey) in HA by lia.
  rewrite <- HA. lia.
Qed.

(** Adding a negative number to a positive binary64 number does not
    go above it. *)
Lemma SFadd_pos_neg_le mx ex my ey :
  bounded mx ex = true ->
  key_le (key (SF64add (S754_finite false mx ex) (S754_finite true my ey)))
         (1, ex, Zpos mx).
Proof.
  intros Hb. unfold SF64add, SFadd. cbn [cond_Zopp].
  pose proof (shl_align_spec mx ex (Z.min ex ey)) as [HA _].
  set (A := fst (shl_align mx ex (Z.min ex ey))) in *.
  set (B := fst (shl_align my ey (Z.min ex ey))) in *.
  replace (Z.max 0 (ex - Z.min ex ey)) with (ex - Z.min ex ey) in HA by lia.
  change (- Z.pos B) with (Z.neg B).
  destruct (Z.pos A + Z.neg B) as [|D|D] eqn:ED; cbn [binary_normalize].
  - simpl. lia.
  - apply round_le; [assumption | lia |]. rewrite <- HA. lia.
  - eapply key_le_trans; [apply signed_true_key, round_signed|].
    simpl. lia.
Qed.

(** *** Products by a positive constant *)

Lemma SFmul_signed b x mc ec :
  signed b x -> signed b (SF64mul x (S754_finite false mc ec)).
Proof.
  unfold SF64mul.
  destruct x as [s|s| |s m e]; simpl; intros H; try contradiction; subst;
    rewrite ?xorb_false_r; auto.
  pose proof (round_aux_signed (xorb b false) (Zpos (m * mc)) (e + ec) loc_Exact)
    as Hs.
  rewrite xorb_false_r in Hs. apply Hs. lia.
Qed.

(** *** The same facts on numbers *)

Lemma SF_valid x m e s : SF x = S754_finite s m e -> bounded m e = true.
Proof. intros H. pose proof (Prim2SF_valid x) as Hv. rewrite H in Hv. exact Hv. Qed.

Lemma is_number_signed x b : signed b (SF x) -> is_number x.
Proof. intros H. apply is_number_SF. eapply signed_not_nan, H. Qed.

Lemma finite_SF x :
  finite x <->
  (exists b, SF x = S754_zero b) \/ (exists s m e, SF x = S754_finite s m e).
Proof.
  unfold finite, is_finite, is_infinity.
  rewrite FloatAxioms.eqb_spec, abs_spec.
  change (Prim2SF infinity) with (S754_infinity false).
  pose proof (is_nan_SF x) as Hn.
  destruct (Prim2SF x) as [s|s| |s m e] eqn:E; simpl.
  - destruct (is_nan x); [destruct Hn as [Hn _]; discriminate Hn; reflexivity|].
    simpl. split; eauto.
  - rewrite orb_true_r. simpl. split; [discriminate|].
    intros [[b H]|(s' & m & e & H)]; discriminate.
  - destruct Hn as [_ Hn]. rewrite Hn by reflexivity. simpl.
    split; [discriminate|].
    intros [[b H]|(s' & m & e & H)]; discriminate.
  - destruct (is_nan x); [destruct Hn as [Hn _]; discriminate Hn; reflexivity|].
    simpl. split; eauto 6.
Qed.

Lemma finite_is_number x : finite x -> is_number x.
Proof.
  rewrite finite_SF, is_number_SF.
  intros [[b H]|(s & m & e & H)]; rewrite H; discriminate.
Qed.

(** A difference is NaN only if an operand is, or both are infinite. *)
Lemma sub_is_number t l : is_number t -> finite l -> is_number (t - l)%float.
Proof.
  rewrite finite_SF, !is_number_SF, sub_spec. unfold SF64sub.
  intros Ht [[b H]|(s & m & e & H)]; rewrite H;
    destruct (Prim2SF t) as [[]|[]| |s' m' e']; try congruence;
    try destruct b; try destruct s; simpl; try discriminate;
    apply binary_normalize_not_nan.
Qed.

Lemma add_is_number_l l y : finite l -> is_number y -> is_number (l + y)%float.
Proof.
  rewrite finite_SF, !is_number_SF, add_spec. unfold SF64add.
  intros [[b H]|(s & m & e & H)] Hy; rewrite H;
    destruct (Prim2SF y) as [[]|[]| |s' m' e']; try congruence;
    try destruct b; try destruct s; simpl; try discriminate;
    apply binary_normalize_not_nan.
Qed.

Lemma add_is_number_r y l : is_number y -> finite l -> is_number (y + l)%float.
Proof.
  rewrite finite_SF, !is_number_SF, add_spec. unfold SF64add.
  intros Hy [[b H]|(s & m & e & H)]; rewrite H;
    destruct (Prim2SF y) as [[]|[]| |s' m' e']; try congruence;
    try destruct b; try destruct s; simpl; try discriminate;
    apply binary_normalize_not_nan.
Qed.

(** A product by a finite constant other than zero is NaN only if the
    other factor is. *)
Lemma mul_is_number x c mc ec :
  SF c = S754_finite false mc ec -> is_number x -> is_number (x * c)%float.
Proof.
  rewrite !is_number_SF, mul_spec. intros -> Hx.
  destruct (Prim2SF x) as [s|s| |s m e] eqn:E; try congruence;
    eapply signed_not_nan, SFmul_signed; simpl; reflexivity.
Qed.

Lemma between_finite lo hi x :
  finite lo -> finite hi -> between lo hi x -> finite x.
Proof.
  rewrite !finite_SF. unfold between. rewrite !le_key, !is_number_SF.
  intros Hlo Hhi [(_ & Hx & H1) (_ & _ & H2)].
  destruct (Prim2SF x) as [s|[]| |s m e]; try congruence; eauto 6; exfalso.
  - destruct Hlo as [[b H]|(s & m & e & H)]; rewrite H in H1;
      try destruct s; simpl in H1; lia.
  - destruct Hhi as [[b H]|(s & m & e & H)]; rewrite H in H2;
      try destruct s; simpl in H2; lia.
Qed.

Lemma between_positive lo hi x ml el mh eh :
  SF lo = S754_finite false ml el -> SF hi = S754_finite false mh eh ->
  between lo hi x ->
  exists m e, SF x = S754_finite false m e /\ bounded m e = true.
Proof.
  unfold between. rewrite !le_key, !is_number_SF. intros -> ->.
  intros [(_ & Hx & H1) (_ & _ & H2)].
  destruct (Prim2SF x) as [s|[]| |[] m e] eqn:E; try congruence;
    simpl in H1, H2; try lia.
  exists m, e. split; [reflexivity | eapply SF_valid, E].
Qed.

Lemma le_0_cases d :
  le 0%float d -> (exists b, SF d = S754_zero b) \/ signed false (SF d).
Proof.
  rewrite le_key, !is_number_SF.
  change (Prim2SF 0%float) with (S754_zero false).
  intros (_ & Hd & H).
  destruct (Prim2SF d) as [s|[]| |[] m e]; try congruence; simpl in *;
    eauto; lia.
Qed.

Lemma le_cases_0 d :
  le d 0%float -> (exists b, SF d = S754_zero b) \/ signed true (SF d).
Proof.
  rewrite le_key, !is_number_SF.
  change (Prim2SF 0%float) with (S754_zero false).
  intros (Hd & _ & H).
  destruct (Prim2SF d) as [s|[]| |[] m e]; try congruence; simpl in *;
    eauto; lia.
Qed.

(** From a positive number, adding [d * c] with [d >= 0] and a
    positive constant [c] does not go down... *)
Lemma add_mul_up x d c mx ex mc ec :
  SF x = S754_finite false mx ex -> SF c = S754_finite false mc ec ->
  le 0%float d -> le x (x + d * c)%float.
Proof.
  intros Hx Hc Hd. pose proof (SF_valid _ _ _ _ Hx) as Hb.
  assert (key_le (1, ex, Zpos mx) (key (SF (x + d * c)%float)) /\
          SF (x + d * c)%float <> S754_nan) as [H1 H2].
  { rewrite add_spec, Hx.
    assert ((exists b, SF (d * c)%float = S754_zero b) \/
            signed false (SF (d * c)%float)) as [[b E]|Hs].
    { rewrite mul_spec, Hc.
      destruct (le_0_cases d Hd) as [[b ->]|Hs]; [left; simpl; eauto|].
      right. apply SFmul_signed, Hs. }
    - rewrite E. simpl. split; [lia | discriminate].
    - pose proof (SF_valid (d * c)%float) as Hv.
      destruct (Prim2SF (d * c)%float) as [s|s| |s m e];
        simpl in Hs; try contradiction; subst s.
      + simpl. split; [lia | discriminate].
      + simpl. split; [lia | discriminate].
      + split; [apply SFadd_pos_pos_ge, Hb|].
        apply binary_normalize_not_nan. }
  apply le_key. rewrite !is_number_SF, Hx. simpl.
  repeat split; [discriminate | assumption | assumption].
Qed.

(** ... and with [d <= 0] it does not go up. *)
Lemma add_mul_down x d c mx ex mc ec :
  SF x = S754_finite false mx ex -> SF c = S754_finite false mc ec ->
  le d 0%float -> le (x + d * c)%float x.
Proof.
  intros Hx Hc Hd. pose proof (SF_valid _ _ _ _ Hx) as Hb.
  assert (key_le (key (SF (x + d * c)%float)) (1, ex, Zpos mx) /\
          SF (x + d * c)%float <> S754_nan) as [H1 H2].
  { rewrite add_spec, Hx.
    assert ((exists b, SF (d * c)%float = S754_zero b) \/
            signed true (SF (d * c)%float)) as [[b E]|Hs].
    { rewrite mul_spec, Hc.
      destruct (le_cases_0 d Hd) as [[b ->]|Hs]; [left; simpl; eauto|].
      right. apply SFmul_signed, Hs. }
    - rewrite E. simpl. split; [lia | discriminate].
    - destruct (Prim2SF (d * c)%float) as [s|s| |s m e];
        simpl in Hs; try contradiction; subst s.
      + simpl. split; [lia | discriminate].
      + simpl. split; [lia | discriminate].
      + split; [apply SFadd_pos_neg_le, Hb|].
        apply binary_normalize_not_nan. }
  apply le_key. rewrite !is_number_SF, Hx. simpl.
  repeat split; [assumption | discriminate | assumption].
Qed.

End RoundingFacts.

(** ** Numbers: rounding is monotone *)

Module MonotoneRounding.
Import JS Order Rounding NumberFacts RoundingFacts.

(** *** What the shifts keep of the bits they drop *)

Lemma iter_pos_steps {A} (f : A -> A) (P : Z -> A -> Prop) :
  (forall k x, 0 <= k -> P k x -> P (k + 1) (f x)) ->
  forall p k x, 0 <= k -> P k x -> P (k + Zpos p) (SpecFloat.iter_pos f p x).
Proof.
  intros Hstep. induction p as [p IH|p IH|]; intros k x Hk Hx;
    cbn [SpecFloat.iter_pos].
  - replace (k + Z.pos p~1) with (k + 1 + Z.pos p + Z.pos p) by lia.
    apply IH; [lia|]. apply IH; [lia|]. apply Hstep; assumption.
  - replace (k + Z.pos p~0) with (k + Z.pos p + Z.pos p) by lia.
    apply IH; [lia|]. apply IH; assumption.
  - apply Hstep; assumption.
Qed.

Lemma shr_1_odd mrs :
  0 <= shr_m mrs ->
  shr_1 mrs = {| shr_m := shr_m mrs / 2; shr_r := Z.odd (shr_m mrs);
                 shr_s := shr_r mrs || shr_s mrs |}.
Proof.
  destruct mrs as [m r s]. cbn [shr_m shr_r shr_s]. intros Hm.
  pose proof (shr_1_m {| shr_m := m; shr_r := r; shr_s := s |} Hm) as H.
  cbn [shr_m] in H. rewrite <- H.
  destruct m as [|[p|p|]|p]; try lia; reflexivity.
Qed.

Lemma mod_pow2_succ M k :
  0 <= M -> 0 <= k ->
  M mod 2 ^ (k + 1) = M mod 2 ^ k + 2 ^ k * (M / 2 ^ k mod 2).
Proof.
  intros HM Hk. rewrite Z.pow_add_r by lia. change (2 ^ 1) with 2.
  assert (0 < 2 ^ k) by (apply Z.pow_pos_nonneg; lia).
  apply Z.rem_mul_r; lia.
Qed.

Lemma shifted_step M k mrs :
  0 <= M -> 0 <= k -> shifted M k mrs -> shifted M (k + 1) (shr_1 mrs).
Proof.
  intros HM Hk [Hm Hl].
  assert (0 < 2 ^ k) as Hp by (apply Z.pow_pos_nonneg; lia).
  assert (0 <= shr_m mrs) as Hm0 by (rewrite Hm; apply Z.div_pos; lia).
  rewrite (shr_1_odd mrs Hm0). split.
  - cbn [shr_m]. rewrite Hm, Z.div_div, Z.pow_add_r by lia. reflexivity.
  - unfold location_of in *. rewrite (mod_pow2_succ M k HM Hk).
    rewrite <- Hm.
    pose proof (Z.mod_pos_bound M (2 ^ k) Hp) as Hr.
    set (rho := M mod 2 ^ k) in *.
    assert (2 ^ (k + 1) = 2 * 2 ^ k) as Hpow
      by (rewrite Z.pow_add_r by lia; change (2 ^ 1) with 2; lia).
    rewrite Hpow.
    assert (shr_r mrs || shr_s mrs = negb (rho =? 0)) as Hrs.
    { destruct (rho =? 0); destruct mrs as [m [] []]; cbn in *;
        congruence. }
    rewrite Hrs. cbn [loc_of_shr_record].
    rewrite (Zmod_odd (shr_m mrs)).
    destruct (Z.odd (shr_m mrs)); destruct (Z.eqb_spec rho 0) as [E0|E0];
      cbn [negb].
    + replace (rho + 2 ^ k * 1 =? 0) with false
        by (symmetry; apply Z.eqb_neq; lia).
      f_equal. symmetry. apply Z.compare_eq_iff. lia.
    + replace (rho + 2 ^ k * 1 =? 0) with false
        by (symmetry; apply Z.eqb_neq; lia).
      f_equal. symmetry. apply Z.compare_gt_iff. lia.
    + replace (rho + 2 ^ k * 0 =? 0) with true
        by (symmetry; apply Z.eqb_eq; lia).
      reflexivity.
    + replace (rho + 2 ^ k * 0 =? 0) with false
        by (symmetry; apply Z.eqb_neq; lia).
      f_equal. symmetry. apply Z.compare_lt_iff. lia.
Qed.

Lemma shifted_0 M : shifted M 0 (shr_record_of_loc M loc_Exact).
Proof.
  split; cbn.
  - rewrite Z.div_1_r. reflexivity.
  - unfold location_of. rewrite Z.mod_1_r. reflexivity.
Qed.

Lemma shr_shifted M e n :
  0 <= M ->
  shifted M (Z.max 0 n) (fst (shr (shr_record_of_loc M loc_Exact) e n)).
Proof.
  intros HM. destruct n as [|p|p]; cbn [shr fst].
  - apply shifted_0.
  - replace (Z.max 0 (Z.pos p)) with (0 + Z.pos p) by lia.
    apply (iter_pos_steps shr_1 (shifted M)); [|lia|apply shifted_0].
    intros k x Hk Hx. apply shifted_step; assumption.
  - apply shifted_0.
Qed.

(** *** Rounding to nearest, ties to even *)

Lemma rnd_bounds M n :
  rnd M n = M / 2 ^ n \/ rnd M n = M / 2 ^ n + 1.
Proof. apply round_nearest_even_cases. Qed.

Lemma rnd_0 M : rnd M 0 = M.
Proof.
  unfold rnd, location_of. rewrite Z.mod_1_r, Z.div_1_r. reflexivity.
Qed.

Lemma rnd_scale M n k :
  0 <= n -> 0 <= k -> rnd (M * 2 ^ k) (n + k) = rnd M n.
Proof.
  intros Hn Hk. unfold rnd, location_of.
  assert (0 < 2 ^ k) by (apply Z.pow_pos_nonneg; lia).
  assert (0 < 2 ^ n) by (apply Z.pow_pos_nonneg; lia).
  rewrite Z.pow_add_r by lia.
  rewrite Z.div_mul_cancel_r by lia.
  rewrite Z.mul_mod_distr_r by lia.
  set (rho := M mod 2 ^ n).
  replace (rho * 2 ^ k =? 0) with (rho =? 0).
  - destruct (rho =? 0); [reflexivity|]. do 2 f_equal.
    rewrite Z.mul_assoc. symmetry. apply Zmult_compare_compat_r. lia.
  - destruct (Z.eqb_spec rho 0) as [->|Hne]; symmetry.
    + apply Z.eqb_eq. lia.
    + apply Z.eqb_neq. nia.
Qed.

Lemma rnd_mono M1 M2 n :
  0 <= M1 <= M2 -> 0 <= n -> rnd M1 n <= rnd M2 n.
Proof.
  intros [H1 H12] Hn.
  assert (0 < 2 ^ n) as Hp by (apply Z.pow_pos_nonneg; lia).
  assert (M1 / 2 ^ n <= M2 / 2 ^ n) as Hq by (apply Z.div_le_mono; lia).
  destruct (Z.eq_dec (M1 / 2 ^ n) (M2 / 2 ^ n)) as [Heq|Hne].
  2:{ destruct (rnd_bounds M1 n), (rnd_bounds M2 n); lia. }
  unfold rnd, location_of. rewrite <- Heq.
  pose proof (Z.div_mod M1 (2 ^ n) ltac:(lia)) as D1.
  pose proof (Z.div_mod M2 (2 ^ n) ltac:(lia)) as D2.
  rewrite <- Heq in D2.
  pose proof (Z.mod_pos_bound M1 (2 ^ n) Hp).
  pose proof (Z.mod_pos_bound M2 (2 ^ n) Hp).
  set (r1 := M1 mod 2 ^ n) in *. set (r2 := M2 mod 2 ^ n) in *.
  set (q := M1 / 2 ^ n) in *.
  assert (r1 <= r2) as Hr by nia.
  destruct (Z.eqb_spec r1 0), (Z.eqb_spec r2 0); cbn [round_nearest_even];
    try lia;
    repeat match goal with
      | |- context [(?a ?= ?b)] => destruct (Z.compare_spec a b)
      end;
    destruct (Z.even q); lia.
Qed.

(** *** The key of a rounded mantissa *)

Lemma finish_key m f :
  0 <= m <= 2 ^ 53 -> -1074 <= f ->
  key (finish false m f) =
    if m =? 0 then (0, 0, 0)
    else if m <? 2 ^ 53 then (if f <=? 971 then (1, f, m) else (2, 0, 0))
    else (if f + 1 <=? 971 then (1, f + 1, 2 ^ 52) else (2, 0, 0)).
Proof.
  intros [Hm0 Hm] Hf.
  destruct (Z.eqb_spec m 0) as [->|Hne].
  { unfold finish. rewrite Z.div_0_l; [reflexivity|].
    apply Z.pow_nonzero; lia. }
  assert (1 <= m) as H1 by lia.
  destruct (finish_pos_spec false m f H1 Hf) as (p & Hp & ->).
  assert (Zdigits2 m <= 54) as Hd.
  { apply Zdigits2_lt_pow2; [|lia]. change (2 ^ 54) with (2 * 2 ^ 53). lia. }
  destruct (Z.ltb_spec m (2 ^ 53)) as [Hlt|Hge].
  - assert (Zdigits2 m <= 53) by (apply Zdigits2_lt_pow2; lia).
    replace (Z.max 0 (Zdigits2 m - 53)) with 0 in * by lia.
    rewrite Z.div_1_r in Hp. rewrite Z.add_0_r.
    destruct (f <=? 971); cbn; rewrite ?Hp; reflexivity.
  - assert (m = 2 ^ 53) as -> by lia.
    change (Zdigits2 (2 ^ 53)) with 54 in *.
    change (Z.max 0 (54 - 53)) with 1 in *.
    change (2 ^ 53 / 2 ^ 1) with (2 ^ 52) in Hp.
    destruct (f + 1 <=? 971); cbn; rewrite ?Hp; reflexivity.
Qed.

Lemma finish_mono a b f :
  0 <= a <= b -> b <= 2 ^ 53 -> -1074 <= f ->
  key_le (key (finish false a f)) (key (finish false b f)).
Proof.
  intros Hab Hb Hf. rewrite !finish_key by lia.
  assert (2 ^ 52 < 2 ^ 53) by reflexivity.
  destruct (Z.eqb_spec a 0), (Z.eqb_spec b 0),
    (Z.ltb_spec a (2 ^ 53)), (Z.ltb_spec b (2 ^ 53)),
    (Z.leb_spec f 971), (Z.leb_spec (f + 1) 971); cbn; lia.
Qed.

Lemma finish_exp_lt a b f1 f2 :
  0 <= a <= 2 ^ 53 -> 2 ^ 52 <= b <= 2 ^ 53 -> -1074 <= f1 < f2 ->
  key_le (key (finish false a f1)) (key (finish false b f2)).
Proof.
  intros Ha Hb Hf. rewrite !finish_key by lia.
  assert (0 < 2 ^ 52) by reflexivity.
  assert (2 ^ 52 < 2 ^ 53) by reflexivity.
  destruct (Z.eqb_spec a 0), (Z.eqb_spec b 0),
    (Z.ltb_spec a (2 ^ 53)), (Z.ltb_spec b (2 ^ 53)),
    (Z.leb_spec f1 971), (Z.leb_spec (f1 + 1) 971),
    (Z.leb_spec f2 971), (Z.leb_spec (f2 + 1) 971); cbn; lia.
Qed.

(** *** [binary_round_aux] and [binary_round] round to nearest *)

Lemma round_aux_finish sx M E :
  0 <= M ->
  let n := Z.max 0 (fexp (Zdigits2 M + E) - E) in
  round_aux sx M E loc_Exact = finish sx (rnd M n) (E + n).
Proof.
  intros HM n. unfold binary_round_aux, shr_fexp.
  pose proof (shr_shifted M E (fexp (Zdigits2 M + E) - E) HM) as [Hs1 Hs2].
  pose proof (shr_m_e (shr_record_of_loc M loc_Exact) E
                (fexp (Zdigits2 M + E) - E)) as H1.
  rewrite shr_record_of_loc_m in H1. specialize (H1 HM).
  destruct (shr (shr_record_of_loc M loc_Exact) E _) as [mrs1 e1].
  cbn [fst snd] in *. destruct H1 as [_ He1]. fold n in Hs1, Hs2, He1.
  rewrite Hs1, Hs2. fold (rnd M n).
  assert (0 <= rnd M n) as Hr.
  { assert (0 <= M / 2 ^ n)
      by (apply Z.div_pos; [lia | apply Z.pow_pos_nonneg; lia]).
    destruct (rnd_bounds M n); lia. }
  pose proof (shr_m_e (shr_record_of_loc (rnd M n) loc_Exact) e1
                (fexp (Zdigits2 (rnd M n) + e1) - e1)) as H2.
  rewrite shr_record_of_loc_m in H2. specialize (H2 Hr).
  destruct (shr (shr_record_of_loc (rnd M n) loc_Exact) e1 _) as [mrs2 e2].
  cbn [fst snd] in H2. destruct H2 as [Hm2 He2].
  unfold finish. rewrite <- He1, Hm2, He2. reflexivity.
Qed.

Lemma nearest_base sx M E E0 :
  0 <= M -> E0 <= E -> E0 <= fexp (Zdigits2 M + E) ->
  nearest sx M E =
    finish sx (rnd (M * 2 ^ (E - E0)) (fexp (Zdigits2 M + E) - E0))
           (fexp (Zdigits2 M + E)).
Proof.
  intros HM H1 H2. unfold nearest.
  set (f := fexp (Zdigits2 M + E)) in *.
  set (E1 := Z.min E f).
  f_equal.
  replace (M * 2 ^ (E - E0)) with (M * 2 ^ (E - E1) * 2 ^ (E1 - E0)).
  - replace (f - E0) with (f - E1 + (E1 - E0)) by lia.
    symmetry. apply rnd_scale; lia.
  - rewrite <- Z.mul_assoc, <- Z.pow_add_r by lia. do 2 f_equal. lia.
Qed.

Lemma round_aux_nearest sx M E :
  0 < M -> E <= fexp (Zdigits2 M + E) ->
  round_aux sx M E loc_Exact = nearest sx M E.
Proof.
  intros HM Hal. rewrite round_aux_finish by lia.
  rewrite (nearest_base sx M E E) by lia.
  replace (Z.max 0 (fexp (Zdigits2 M + E) - E))
    with (fexp (Zdigits2 M + E) - E) by lia.
  rewrite Z.sub_diag, Z.pow_0_r, Z.mul_1_r. f_equal. lia.
Qed.

Lemma round_nearest sx M E : round sx M E = nearest sx (Zpos M) E.
Proof.
  unfold binary_round.
  change (Z.pos (digits2_pos M)) with (Zdigits2 (Zpos M)).
  set (f := fexp (Zdigits2 (Zpos M) + E)).
  pose proof (shl_align_spec M E f) as [Hm He].
  destruct (shl_align M E f) as [mz ez]. cbn [fst snd] in Hm, He.
  assert (0 < 2 ^ Z.max 0 (E - f)) as Hp by (apply Z.pow_pos_nonneg; lia).
  assert (fexp (Zdigits2 (Zpos mz) + ez) = f) as Hf.
  { rewrite Hm, Zdigits2_mul_pow2 by lia. unfold f. rewrite !fexp_eq.
    pose proof (fexp_eq (Zdigits2 (Zpos M) + E)) as Hf. fold f in Hf. lia. }
  rewrite round_aux_finish by lia. rewrite Hf.
  unfold nearest. fold f.
  replace (ez + Z.max 0 (f - ez)) with f by lia.
  f_equal. rewrite Hm.
  replace (Z.max 0 (f - ez)) with (f - Z.min E f) by lia.
  replace (Z.max 0 (E - f)) with (E - Z.min E f) by lia.
  reflexivity.
Qed.

Lemma finish_opp m f : finish true m f = SFopp (finish false m f).
Proof.
  unfold finish. destruct (m / 2 ^ _); try reflexivity.
  destruct (_ <=? _); reflexivity.
Qed.

Lemma nearest_opp M E : nearest true M E = SFopp (nearest false M E).
Proof. apply finish_opp. Qed.

(** The size of a value decides its exponent. *)
Lemma fexp_mono M1 E1 M2 E2 E0 :
  0 < M1 -> 0 < M2 -> E0 <= E1 -> E0 <= E2 ->
  M1 * 2 ^ (E1 - E0) <= M2 * 2 ^ (E2 - E0) ->
  fexp (Zdigits2 M1 + E1) <= fexp (Zdigits2 M2 + E2).
Proof.
  intros H1 H2 HE1 HE2 Hle.
  assert (0 < 2 ^ (E1 - E0)) by (apply Z.pow_pos_nonneg; lia).
  assert (Zdigits2 (M1 * 2 ^ (E1 - E0)) <= Zdigits2 (M2 * 2 ^ (E2 - E0))) as Hd.
  { apply Zdigits2_le. split; [|exact Hle].
    apply Z.mul_nonneg_nonneg; lia. }
  rewrite !Zdigits2_mul_pow2 in Hd by lia.
  rewrite !fexp_eq. lia.
Qed.

(** The rounded mantissa has at most 53 digits, carry apart; it has
    53 above the smallest exponent. *)
Lemma rnd_mantissa_bounds M E E0 :
  0 < M -> E0 <= E -> E0 <= fexp (Zdigits2 M + E) ->
  let f := fexp (Zdigits2 M + E) in
  let a := rnd (M * 2 ^ (E - E0)) (f - E0) in
  0 <= a <= 2 ^ 53 /\ (-1074 < f -> 2 ^ 52 <= a).
Proof.
  intros HM H1 H2 f a.
  assert (0 < 2 ^ (E - E0)) as Hp1 by (apply Z.pow_pos_nonneg; lia).
  assert (0 < 2 ^ (f - E0)) as Hp2 by (apply Z.pow_pos_nonneg; lia).
  set (M' := M * 2 ^ (E - E0)) in *.
  assert (0 < M') as HM' by (apply Z.mul_pos_pos; lia).
  assert (Zdigits2 M' = Zdigits2 M + (E - E0)) as Hd
    by (apply Zdigits2_mul_pow2; lia).
  pose proof (Zdigits2_bounds M' HM') as [Hlo Hhi].
  pose proof (fexp_eq (Zdigits2 M + E)) as Hf. fold f in Hf.
  assert (0 <= M' / 2 ^ (f - E0)) as Hq0 by (apply Z.div_pos; lia).
  assert (M' / 2 ^ (f - E0) < 2 ^ 53) as Hq1.
  { apply Z.div_lt_upper_bound; [lia|].
    rewrite <- Z.pow_add_r by lia.
    eapply Z.lt_le_trans; [exact Hhi|]. apply Z.pow_le_mono_r; lia. }
  split.
  - destruct (rnd_bounds M' (f - E0)); unfold a; lia.
  - intros Hmin.
    assert (2 ^ 52 <= M' / 2 ^ (f - E0)).
    { apply Z.div_le_lower_bound; [lia|].
      rewrite <- Z.pow_add_r by lia.
      eapply Z.le_trans; [|exact Hlo]. apply Z.pow_le_mono_r; lia. }
    destruct (rnd_bounds M' (f - E0)); unfold a; lia.
Qed.

(** Rounding is monotone: of two positive values, the smaller one
    does not round above the larger one. *)
Lemma nearest_mono M1 E1 M2 E2 E0 :
  0 < M1 -> 0 < M2 -> E0 <= E1 -> E0 <= E2 ->
  M1 * 2 ^ (E1 - E0) <= M2 * 2 ^ (E2 - E0) ->
  key_le (key (nearest false M1 E1)) (key (nearest false M2 E2)).
Proof.
  intros H1 H2 HE1 HE2 Hle.
  pose proof (fexp_mono _ _ _ _ _ H1 H2 HE1 HE2 Hle) as Hf.
  set (f1 := fexp (Zdigits2 M1 + E1)) in *.
  set (f2 := fexp (Zdigits2 M2 + E2)) in *.
  assert (-1074 <= f1) by (unfold f1; rewrite fexp_eq; lia).
  set (B := Z.min E0 f1).
  assert (0 < 2 ^ (E0 - B)) as Hp by (apply Z.pow_pos_nonneg; lia).
  assert (M1 * 2 ^ (E1 - B) <= M2 * 2 ^ (E2 - B)) as Hle'.
  { replace (E1 - B) with (E1 - E0 + (E0 - B)) by lia.
    replace (E2 - B) with (E2 - E0 + (E0 - B)) by lia.
    rewrite !Z.pow_add_r, !Z.mul_assoc by lia.
    apply Z.mul_le_mono_nonneg_r; lia. }
  rewrite (nearest_base false M1 E1 B) by lia.
  rewrite (nearest_base false M2 E2 B) by (fold f2; lia).
  fold f1 f2.
  destruct (rnd_mantissa_bounds M1 E1 B H1) as [Ha1 _]; [lia | fold f1; lia |].
  destruct (rnd_mantissa_bounds M2 E2 B H2) as [Ha2 Hb2]; [lia | fold f2; lia |].
  fold f1 in Ha1. fold f2 in Ha2, Hb2.
  destruct (Z.eq_dec f1 f2) as [Heq|Hne].
  - rewrite <- Heq in *. apply finish_mono; [|lia|lia].
    split; [lia|]. apply rnd_mono; [|lia].
    split; [|exact Hle'].
    apply Z.mul_nonneg_nonneg; [lia|]. apply Z.pow_nonneg. lia.
  - apply finish_exp_lt; lia.
Qed.

(** *** Signed values *)

Lemma nearest_signed sx M E : 0 < M -> signed sx (nearest sx M E).
Proof.
  intros HM. unfold nearest. apply finish_signed.
  set (f := fexp (Zdigits2 M + E)). set (E0 := Z.min E f).
  destruct (rnd_mantissa_bounds M E E0 HM) as [H _]; unfold E0; try lia.
  subst E0 f. lia.
Qed.

Lemma key_opp s :
  s <> S754_nan ->
  key (SFopp s) =
    let '(a, b, c) := key s in (- a, - b, - c).
Proof.
  destruct s as [[]|[]| |[] m e]; cbn; intros H; try congruence;
    rewrite ?Z.opp_involutive; reflexivity.
Qed.

Lemma key_le_opp a b :
  a <> S754_nan -> b <> S754_nan ->
  key_le (key a) (key b) -> key_le (key (SFopp b)) (key (SFopp a)).
Proof.
  intros Ha Hb. rewrite !key_opp by assumption.
  destruct (key a) as [[a1 a2] a3], (key b) as [[b1 b2] b3]. cbn. lia.
Qed.

Lemma round_value_signed S E :
  match S with
  | Z0 => round_value S E = S754_zero false
  | Zpos _ => signed false (round_value S E)
  | Zneg _ => signed true (round_value S E)
  end.
Proof. destruct S; cbn; [reflexivity| |]; apply nearest_signed; lia. Qed.

Lemma round_value_not_nan S E : round_value S E <> S754_nan.
Proof.
  pose proof (round_value_signed S E) as H.
  destruct S; [rewrite H; discriminate| |]; eapply signed_not_nan, H.
Qed.

(** Rounding is monotone on all values. *)
Lemma round_value_mono S1 E1 S2 E2 E0 :
  E0 <= E1 -> E0 <= E2 ->
  S1 * 2 ^ (E1 - E0) <= S2 * 2 ^ (E2 - E0) ->
  key_le (key (round_value S1 E1)) (key (round_value S2 E2)).
Proof.
  intros HE1 HE2 Hle.
  assert (0 < 2 ^ (E1 - E0)) as Hp1 by (apply Z.pow_pos_nonneg; lia).
  assert (0 < 2 ^ (E2 - E0)) as Hp2 by (apply Z.pow_pos_nonneg; lia).
  pose proof (round_value_signed S1 E1) as Hs1.
  pose proof (round_value_signed S2 E2) as Hs2.
  destruct S1 as [|M1|M1], S2 as [|M2|M2]; try (exfalso; nia).
  - rewrite Hs1, Hs2. cbn. lia.
  - rewrite Hs1. apply signed_false_key, Hs2.
  - cbn [round_value]. apply (nearest_mono _ _ _ _ E0); lia.
  - rewrite Hs2. apply signed_true_key, Hs1.
  - eapply key_le_trans; [apply signed_true_key, Hs1|].
    apply signed_false_key, Hs2.
  - cbn [round_value]. rewrite !nearest_opp.
    apply key_le_opp;
      try (eapply signed_not_nan, nearest_signed; lia).
    apply (nearest_mono _ _ _ _ E0); lia.
Qed.

Lemma binary_normalize_round_value S E :
  binary_normalize prec emax S E false = round_value S E.
Proof. destruct S; cbn; [reflexivity| |]; apply round_nearest. Qed.

(** A binary64 number rounds to itself. *)
Lemma nearest_canonical sx m e :
  bounded m e = true -> nearest sx (Zpos m) e = S754_finite sx m e.
Proof.
  intros Hb. apply bounded_spec in Hb as [Hc He].
  unfold nearest. rewrite Hc. rewrite Z.min_id, Z.sub_diag, Z.pow_0_r, Z.mul_1_r.
  rewrite rnd_0.
  destruct (finish_pos_spec sx (Zpos m) e) as (p & Hp & ->); [lia| |].
  { rewrite fexp_eq in Hc. lia. }
  rewrite fexp_eq in Hc. cbn [Zdigits2] in *.
  replace (Z.max 0 (Z.pos (digits2_pos m) - 53)) with 0 in * by lia.
  rewrite Z.div_1_r in Hp. injection Hp as ->. rewrite Z.add_0_r.
  replace (e <=? 971) with true by (symmetry; apply Z.leb_le; lia).
  reflexivity.
Qed.

(** *** The order of binary64 numbers is the order of their values *)

Lemma bounded_mantissa m e :
  bounded m e = true ->
  Zpos m < 2 ^ 53 /\ -1074 <= e /\ (-1074 < e -> 2 ^ 52 <= Zpos m).
Proof.
  intros Hb. apply bounded_spec in Hb as [Hc He]. rewrite fexp_eq in Hc.
  pose proof (Zdigits2_bounds (Zpos m) eq_refl) as [Hlo Hhi].
  split; [|split; [lia|]].
  - eapply Z.lt_le_trans; [exact Hhi|]. apply Z.pow_le_mono_r; lia.
  - intros Hmin. eapply Z.le_trans; [|exact Hlo].
    apply Z.pow_le_mono_r; lia.
Qed.

Lemma key_le_value_pos m1 e1 m2 e2 E0 :
  bounded m1 e1 = true -> bounded m2 e2 = true ->
  E0 <= e1 -> E0 <= e2 ->
  key_le (1, e1, Zpos m1) (1, e2, Zpos m2) ->
  Zpos m1 * 2 ^ (e1 - E0) <= Zpos m2 * 2 ^ (e2 - E0).
Proof.
  intros Hb1 Hb2 H1 H2 Hk.
  destruct (bounded_mantissa _ _ Hb1) as (Hm1 & He1 & _).
  destruct (bounded_mantissa _ _ Hb2) as (Hm2 & He2 & Hn2).
  assert (0 < 2 ^ (e1 - E0)) as Hp by (apply Z.pow_pos_nonneg; lia).
  cbn in Hk. destruct Hk as [Hk|[_ [Hlt|[-> Hle]]]]; [lia| |].
  - replace (e2 - E0) with (e2 - e1 + (e1 - E0)) by lia.
    rewrite Z.pow_add_r, Z.mul_assoc by lia.
    apply Z.mul_le_mono_nonneg_r; [lia|].
    assert (2 ^ 1 <= 2 ^ (e2 - e1)) by (apply Z.pow_le_mono_r; lia).
    change (2 ^ 1) with 2 in *. change (2 ^ 53) with (2 * 2 ^ 52) in *.
    specialize (Hn2 ltac:(lia)). nia.
  - apply Z.mul_le_mono_nonneg_r; lia.
Qed.

Lemma key_le_value a b E0 :
  valid_binary a = true -> valid_binary b = true ->
  finite_or_zero a -> finite_or_zero b ->
  above E0 a -> above E0 b ->
  key_le (key a) (key b) ->
  scaled_value a E0 <= scaled_value b E0.
Proof.
  intros Va Vb Fa Fb Ea Eb Hk.
  destruct a as [sa|sa| |sa ma ea], b as [sb|sb| |sb mb eb];
    try contradiction; cbn [scaled_value above] in *.
  - lia.
  - assert (0 < 2 ^ (eb - E0)) by (apply Z.pow_pos_nonneg; lia).
    destruct sb; cbn in *; [lia|nia].
  - assert (0 < 2 ^ (ea - E0)) by (apply Z.pow_pos_nonneg; lia).
    destruct sa; cbn in *; [nia|lia].
  - assert (0 < 2 ^ (ea - E0)) by (apply Z.pow_pos_nonneg; lia).
    assert (0 < 2 ^ (eb - E0)) by (apply Z.pow_pos_nonneg; lia).
    destruct sa, sb; cbn [cond_Zopp key] in *.
    + assert (Zpos mb * 2 ^ (eb - E0) <= Zpos ma * 2 ^ (ea - E0)); [|lia].
      apply key_le_value_pos; try assumption. cbn in *. lia.
    + nia.
    + cbn in Hk. lia.
    + apply key_le_value_pos; assumption.
Qed.

Lemma key_bounds s :
  s <> S754_nan ->
  key_le (-2, 0, 0) (key s) /\ key_le (key s) (2, 0, 0).
Proof. destruct s as [[]|[]| |[] m e]; cbn; intros; try congruence; lia. Qed.

(** *** Products with a positive constant of 53 digits *)

Lemma SFmul_round_value s md ed mc ec :
  Zdigits2 (Zpos mc) = 53 ->
  SF64mul (S754_finite s md ed) (S754_finite false mc ec) =
    round_value (cond_Zopp s (Zpos (md * mc))) (ed + ec).
Proof.
  intros Hd. unfold SF64mul, SFmul. rewrite xorb_false_r.
  rewrite round_aux_nearest; [destruct s; reflexivity|lia|].
  pose proof (Zdigits2_bounds (Zpos mc) eq_refl) as [Hlo _].
  rewrite Hd in Hlo. change (53 - 1) with 52 in Hlo.
  assert (52 + 1 <= Zdigits2 (Zpos (md * mc)))
    by (apply Zdigits2_ge_pow2; nia).
  rewrite fexp_eq. lia.
Qed.

Lemma SFmul_exact_product d mc ec :
  Zdigits2 (Zpos mc) = 53 -> finite_or_zero d ->
  key (SF64mul d (S754_finite false mc ec)) =
    key (round_value (fst (exact_product mc ec d))
                     (snd (exact_product mc ec d))).
Proof.
  intros Hd Hf. destruct d as [s|s| |s m e]; try contradiction.
  - reflexivity.
  - rewrite SFmul_round_value by assumption. reflexivity.
Qed.

Lemma exact_product_scaled d mc ec E0 :
  finite_or_zero d -> above E0 d ->
  fst (exact_product mc ec d) * 2 ^ (snd (exact_product mc ec d) - (E0 + ec)) =
    Zpos mc * scaled_value d E0.
Proof.
  intros Hf Ha. destruct d as [s|s| |s m e]; try contradiction;
    cbn [exact_product scaled_value fst snd above] in *; try lia.
  replace (e + ec - (E0 + ec)) with (e - E0) by lia.
  destruct s; cbn [cond_Zopp]; lia.
Qed.

Lemma common_base a b ex :
  exists E0, E0 <= 0 /\ E0 <= ex /\ above E0 a /\ above E0 b.
Proof.
  exists (Z.min (Z.min 0 ex)
                (Z.min (match a with S754_finite _ _ e => e | _ => 0 end)
                       (match b with S754_finite _ _ e => e | _ => 0 end))).
  destruct a, b; cbn; lia.
Qed.

Lemma SFmul_mono d1 d2 mc ec :
  valid_binary d1 = true -> valid_binary d2 = true ->
  finite_or_zero d1 -> finite_or_zero d2 ->
  Zdigits2 (Zpos mc) = 53 ->
  key_le (key d1) (key d2) ->
  key_le (key (SF64mul d1 (S754_finite false mc ec)))
         (key (SF64mul d2 (S754_finite false mc ec))).
Proof.
  intros V1 V2 F1 F2 Hd Hk.
  rewrite !SFmul_exact_product by assumption.
  destruct (common_base d1 d2 0) as (E0 & H0 & _ & A1 & A2).
  apply (round_value_mono _ _ _ _ (E0 + ec)).
  - destruct d1; cbn in *; lia.
  - destruct d2; cbn in *; lia.
  - rewrite !exact_product_scaled by assumption.
    apply Z.mul_le_mono_nonneg_l; [lia|].
    apply key_le_value; assumption.
Qed.

(** *** Sums with a positive number *)

Lemma SFadd_exact_sum mx ex a :
  bounded mx ex = true -> finite_or_zero a ->
  SF64add (S754_finite false mx ex) a =
    round_value (fst (exact_sum mx ex a)) (snd (exact_sum mx ex a)).
Proof.
  intros Hb Hf. destruct a as [s|s| |s m e]; try contradiction.
  - cbn [exact_sum fst snd round_value]. rewrite nearest_canonical by assumption.
    reflexivity.
  - unfold SF64add, SFadd. cbn [exact_sum fst snd cond_Zopp].
    rewrite binary_normalize_round_value.
    pose proof (shl_align_spec mx ex (Z.min ex e)) as [-> _].
    pose proof (shl_align_spec m e (Z.min ex e)) as [-> _].
    replace (Z.max 0 (ex - Z.min ex e)) with (ex - Z.min ex e) by lia.
    replace (Z.max 0 (e - Z.min ex e)) with (e - Z.min ex e) by lia.
    reflexivity.
Qed.

Lemma exact_sum_scaled mx ex a E0 :
  finite_or_zero a -> above E0 a -> E0 <= ex ->
  E0 <= snd (exact_sum mx ex a) /\
  fst (exact_sum mx ex a) * 2 ^ (snd (exact_sum mx ex a) - E0) =
    Zpos mx * 2 ^ (ex - E0) + scaled_value a E0.
Proof.
  intros Hf Ha Hx. destruct a as [s|s| |s m e]; try contradiction;
    cbn [exact_sum scaled_value fst snd above] in *; try lia.
  split; [lia|].
  set (ez := Z.min ex e).
  replace (ex - E0) with (ex - ez + (ez - E0)) by lia.
  replace (e - E0) with (e - ez + (ez - E0)) by lia.
  rewrite !Z.pow_add_r by lia.
  destruct s; cbn [cond_Zopp]; lia.
Qed.

Lemma SFadd_mono mx ex a b :
  bounded mx ex = true ->
  valid_binary a = true -> valid_binary b = true ->
  finite_or_zero a -> finite_or_zero b ->
  key_le (key a) (key b) ->
  key_le (key (SF64add (S754_finite false mx ex) a))
         (key (SF64add (S754_finite false mx ex) b)).
Proof.
  intros Hb Va Vb Fa Fb Hk.
  rewrite !SFadd_exact_sum by assumption.
  destruct (common_base a b ex) as (E0 & _ & H0 & A1' & A2').
  destruct (exact_sum_scaled mx ex a E0 Fa A1' H0) as [H1 H2].
  destruct (exact_sum_scaled mx ex b E0 Fb A2' H0) as [H3 H4].
  apply (round_value_mono _ _ _ _ E0); try assumption.
  rewrite H2, H4.
  pose proof (key_le_value a b E0 Va Vb Fa Fb A1' A2' Hk). lia.
Qed.

(** *** On JavaScript numbers *)

Lemma SF_cases x :
  is_number x ->
  (exists s, SF x = S754_infinity s) \/
  (finite_or_zero (SF x) /\ valid_binary (SF x) = true).
Proof.
  rewrite is_number_SF. intros Hn. pose proof (Prim2SF_valid x) as Hv.
  destruct (SF x) as [s|s| |s m e]; try congruence; eauto; right; cbn; auto.
Qed.

(** Multiplying by a positive constant keeps the order. *)
Lemma mul_mono d1 d2 c mc ec :
  SF c = S754_finite false mc ec -> Zdigits2 (Zpos mc) = 53 ->
  le d1 d2 -> le (d1 * c)%float (d2 * c)%float.
Proof.
  intros Hc Hd. rewrite !le_key. intros (N1 & N2 & Hk).
  split; [eapply mul_is_number; eassumption|].
  split; [eapply mul_is_number; eassumption|].
  pose proof (mul_is_number _ _ _ _ Hc N1) as R1.
  pose proof (mul_is_number _ _ _ _ Hc N2) as R2.
  rewrite is_number_SF, mul_spec, Hc in R1, R2. rewrite !mul_spec, Hc.
  destruct (SF_cases d1 N1) as [[s1 E1]|[F1 V1]];
    destruct (SF_cases d2 N2) as [[s2 E2]|[F2 V2]].
  - rewrite E1, E2 in *. destruct s1, s2; cbn in *; lia.
  - rewrite E1 in *. destruct s1.
    + apply (key_bounds _ R2).
    + exfalso. destruct (SF d2) as [?|?| |[] ? ?]; cbn in *; try contradiction; lia.
  - rewrite E2 in *. destruct s2.
    + exfalso. destruct (SF d1) as [?|?| |[] ? ?]; cbn in *; try contradiction; lia.
    + apply (key_bounds _ R1).
  - apply SFmul_mono; assumption.
Qed.

(** Adding to a positive finite number keeps the order. *)
Lemma add_mono x a b mx ex :
  SF x = S754_finite false mx ex ->
  le a b -> le (x + a)%float (x + b)%float.
Proof.
  intros Hx. pose proof (SF_valid _ _ _ _ Hx) as Hb.
  assert (finite x) as Fx by (apply finite_SF; right; eauto).
  rewrite !le_key. intros (N1 & N2 & Hk).
  pose proof (add_is_number_l x a Fx N1) as R1.
  pose proof (add_is_number_l x b Fx N2) as R2.
  split; [assumption|]. split; [assumption|].
  rewrite is_number_SF, add_spec, Hx in R1, R2. rewrite !add_spec, Hx.
  destruct (SF_cases a N1) as [[s1 E1]|[F1 V1]];
    destruct (SF_cases b N2) as [[s2 E2]|[F2 V2]].
  - rewrite E1, E2 in *. destruct s1, s2; cbn in *; lia.
  - rewrite E1 in *. destruct s1.
    + apply (key_bounds _ R2).
    + exfalso. destruct (SF b) as [?|?| |[] ? ?]; cbn in *; try contradiction; lia.
  - rewrite E2 in *. destruct s2.
    + exfalso. destruct (SF a) as [?|?| |[] ? ?]; cbn in *; try contradiction; lia.
    + apply (key_bounds _ R1).
  - apply SFadd_mono; assumption.
Qed.

End MonotoneRounding.

(** ** The camera controller *)

Module ControllerFacts.
Import JS Three MapPortSDK Order Rounding Controller NumberFacts RoundingFacts.
Import MonotoneRounding.
Local Open Scope float_scope.

Lemma init_ready w h : ready (init (new w h)).
Proof. repeat split; simpl; eauto. Qed.

Lemma SF_0_1 : exists m e, SF 0.1 = S754_finite false m e.
Proof. do 2 eexists. vm_compute. reflexivity. Qed.

Lemma SF_0_2 : exists m e, SF 0.2 = S754_finite false m e.
Proof. do 2 eexists. vm_compute. reflexivity. Qed.

Lemma SF_0_05 : exists m e, SF 0.05 = S754_finite false m e.
Proof. do 2 eexists. vm_compute. reflexivity. Qed.

Lemma SF_0_05_normal :
  exists m e, SF 0.05 = S754_finite false m e /\ Zdigits2 (Zpos m) = 53%Z.
Proof. do 2 eexists. vm_compute. split; reflexivity. Qed.

(** The damping step [x + (target - x) * 0.1] of a finite [x] towards
    a target that is a number gives a number. *)
Lemma damping_is_number x target :
  finite x -> is_number target -> is_number (x + (target - x) * 0.1).
Proof.
  intros Hx Ht. destruct SF_0_1 as (m & e & H).
  apply add_is_number_l; [assumption|].
  eapply mul_is_number; [exact H|].
  apply sub_is_number; assumption.
Qed.

Lemma finite_85 : finite 85 /\ finite (-85).
Proof. split; reflexivity. Qed.

Lemma le_85 : le (-85) 85.
Proof. reflexivity. Qed.

Lemma animate_ready sin cos s cam sc rd :
  camera s = Some cam -> scene s = Some sc -> renderer s = Some rd ->
  animate sin cos s =
    let lon1 := lon s + (targetLon s - lon s) * 0.1 in
    let lat2 := clamp (lat s + (targetLat s - lat s) * 0.1) (-85) 85 in
    let phi1 := degToRad (90 - lat2) in
    let theta1 := degToRad lon1 in
    {| clientWidth := clientWidth s; clientHeight := clientHeight s;
       camera := Some {| fov := fov cam; aspect := aspect cam;
                         near := near cam; far := far cam;
                         target := Some (500 * sin phi1 * cos theta1 * scale,
                                         500 * cos phi1 * scale,
                                         500 * sin phi1 * sin theta1 * scale);
                         projections := projections cam |};
       scene := Some sc;
       renderer := Some {| width := width rd; height := height rd;
                           frames := S (frames rd) |};
       isUserInteracting := isUserInteracting s;
       mouseDownMouseX := mouseDownMouseX s; mouseDownMouseY := mouseDownMouseY s;
       lon := lon1; targetLon := targetLon s; mouseDownLon := mouseDownLon s;
       lat := lat2; targetLat := targetLat s; mouseDownLat := mouseDownLat s;
       phi := phi1; theta := theta1 |}.
Proof. intros Hc Hs Hr. unfold animate. rewrite Hc, Hs, Hr. reflexivity. Qed.

(** One tick of [animate] from a finite latitude towards a target that
    is a number. *)
Lemma animate_tick (sin cos : number -> number) (s : t) :
  ready s -> finite (lat s) -> is_number (targetLat s) ->
  let s' := animate sin cos s in
  between (-85) 85 (lat s') /\
  phi s' = degToRad (90 - lat s') /\
  theta s' = degToRad (lon s') /\
  finite (lat s') /\ ready s' /\ targetLat s' = targetLat s.
Proof.
  intros ([cam Hc] & [sc Hs] & [rd Hr]) Hlat Htarget s'.
  unfold s'. rewrite (animate_ready _ _ _ _ _ _ Hc Hs Hr). cbn.
  assert (between (-85) 85
            (clamp (lat s + (targetLat s - lat s) * 0.1) (-85) 85)) as Hb.
  { apply clamp_between; [|exact le_85].
    apply damping_is_number; assumption. }
  split; [exact Hb|]. split; [reflexivity|]. split; [reflexivity|].
  split; [|split; [|reflexivity]].
  - destruct finite_85 as [H85 Hm85].
    apply (between_finite (-85) 85); assumption.
  - repeat split; simpl; eauto.
Qed.

Lemma animate_ticks (sin cos : number -> number) (s : t) (n : nat) :
  ready s -> finite (lat s) -> is_number (targetLat s) ->
  let s' := Nat.iter n (animate sin cos) s in
  finite (lat s') /\ ready s' /\ targetLat s' = targetLat s.
Proof.
  intros Hr Hl Ht. induction n as [|n IH]; cbn.
  - auto.
  - destruct IH as (Hl' & Hr' & Ht').
    destruct (animate_tick sin cos _ Hr' Hl') as (_ & _ & _ & H1 & H2 & H3).
    { rewrite Ht'. exact Ht. }
    split; [exact H1|]. split; [exact H2|]. exact (eq_trans H3 Ht').
Qed.

(** C1. Frame ticks, in any number, run once [init] has set up the
    frame loop, from a finite latitude and towards any target latitude
    that is a number, however far outside [[-85, 85]], even infinite:
    after each tick the latitude is within [[-85, 85]], and [phi] and
    [theta] are [degToRad(90 - lat)] and [degToRad(lon)] of the [lat]
    and [lon] that this tick has left.  The ticks change neither the
    target nor the set-up. *)
Theorem animate_lat_within_bounds
    (sin cos : number -> number) (s : t) (n : nat) :
  ready s -> finite (lat s) -> is_number (targetLat s) ->
  let s' := Nat.iter (S n) (animate sin cos) s in
  between (-85) 85 (lat s') /\
  phi s' = degToRad (90 - lat s') /\
  theta s' = degToRad (lon s') /\
  finite (lat s') /\ ready s' /\ targetLat s' = targetLat s.
Proof.
  intros Hr Hl Ht. cbn.
  destruct (animate_ticks sin cos s n Hr Hl Ht) as (Hl' & Hr' & Ht').
  rewrite <- Ht'. apply animate_tick; [assumption|assumption|].
  rewrite Ht'. exact Ht.
Qed.

(** After [init], a drag of 5000 pixels downwards asks for a latitude
    of 1000 degrees; after each of the next three ticks the latitude
    is within bounds. *)
Lemma animate_lat_within_bounds_witness :
  targetLat far_target = 1000 /\
  let s' := Nat.iter 3 (animate (fun x => x) (fun x => x)) far_target in
  between (-85) 85 (lat s') /\
  phi s' = degToRad (90 - lat s') /\
  theta s' = degToRad (lon s') /\
  finite (lat s') /\ ready s' /\ targetLat s' = targetLat far_target.
Proof.
  split; [reflexivity|].
  apply (animate_lat_within_bounds (fun x => x) (fun x => x) far_target 2).
  - repeat split; eexists; reflexivity.
  - reflexivity.
  - reflexivity.
Defined.

(** Were the target NaN, the latitude would become NaN; no run of the
    controller reaches such a state ([run_invariant] below). *)
Lemma animate_nan_target :
  let s := onMouseMove (pointer true 400 nan) dragging in
  is_nan (targetLat s) = true /\
  is_nan (lat (animate (fun x => x) (fun x => x) s)) = true.
Proof. split; reflexivity. Qed.

(** Before [init] the tick does nothing. *)
Lemma animate_before_init sin cos w h :
  animate sin cos (new w h) = new w h.
Proof. reflexivity. Qed.

(** *** Zoom *)

Lemma le_10_75 : le 10 75.
Proof. reflexivity. Qed.

Lemma nonzero_10 b : SF 10 <> S754_zero b.
Proof. intros H. vm_compute in H. discriminate. Qed.

Lemma nonzero_75 b : SF 75 <> S754_zero b.
Proof. intros H. vm_compute in H. discriminate. Qed.

Lemma fov_positive x :
  between 10 75 x -> exists m e, SF x = S754_finite false m e.
Proof.
  intros H.
  assert (exists m e, SF 10 = S754_finite false m e) as (ml & el & Hl)
    by (do 2 eexists; vm_compute; reflexivity).
  assert (exists m e, SF 75 = S754_finite false m e) as (mh & eh & Hh)
    by (do 2 eexists; vm_compute; reflexivity).
  destruct (between_positive _ _ _ _ _ _ _ Hl Hh H) as (m & e & Hx & _).
  eauto.
Qed.

(** C5. A wheel event, whatever the interaction state: the new field
    of view is [clamp(fov + deltaY * 0.05, 10, 75)], where [clamp]
    answers 10 below the interval, 75 above it and the value itself
    inside, so the result lies in [[10, 75]] whenever the sum is a
    number.  From a field of view in [[10, 75]] the update follows the
    direction of the delta: a delta [>= 0] never lowers it, a delta
    [<= 0] never raises it, and a larger delta never gives a smaller
    field of view than a smaller one.  It is idempotent at the bounds:
    from 75 a delta [>= 0] leaves 75, from 10 a delta [<= 0] leaves
    10. *)
Theorem wheel_zoom_clamped (s : t) (event : WheelEvent) (cam : Camera) :
  camera s = Some cam ->
  let v := fov cam + deltaY event * 0.05 in
  let s' := onDocumentMouseWheel event s in
  exists cam',
    camera s' = Some cam' /\
    fov cam' = clamp v 10 75 /\
    isUserInteracting s' = isUserInteracting s /\
    (is_number v -> between 10 75 (fov cam')) /\
    (le v 10 -> fov cam' = 10) /\
    (le 75 v -> fov cam' = 75) /\
    (between 10 75 v -> fov cam' = v) /\
    (between 10 75 (fov cam) ->
     (le 0 (deltaY event) -> le (fov cam) (fov cam')) /\
     (le (deltaY event) 0 -> le (fov cam') (fov cam)) /\
     (forall event2 cam2,
        le (deltaY event) (deltaY event2) ->
        camera (onDocumentMouseWheel event2 s) = Some cam2 ->
        le (fov cam') (fov cam2))) /\
    (fov cam = 75 -> le 0 (deltaY event) -> fov cam' = 75) /\
    (fov cam = 10 -> le (deltaY event) 0 -> fov cam' = 10).
Proof.
  intros Hc v s'. unfold s', onDocumentMouseWheel. rewrite Hc. cbn.
  fold v. eexists. split; [reflexivity|]. cbn.
  destruct SF_0_05 as (mc & ec & Hsc).
  assert (forall x, between 10 75 x -> le 0 (deltaY event) ->
                    le x (x + deltaY event * 0.05)) as Hup.
  { intros x Hx Hd. destruct (fov_positive x Hx) as (m & e & Hm).
    eapply add_mul_up; eauto. }
  assert (forall x, between 10 75 x -> le (deltaY event) 0 ->
                    le (x + deltaY event * 0.05) x) as Hdown.
  { intros x Hx Hd. destruct (fov_positive x Hx) as (m & e & Hm).
    eapply add_mul_down; eauto. }
  split; [reflexivity|]. split; [reflexivity|].
  split; [|split; [|split; [|split; [|split; [|split]]]]].
  - intros Hv. apply clamp_between; [assumption | exact le_10_75].
  - apply clamp_below; [exact nonzero_10 | exact le_10_75].
  - apply clamp_above; [exact nonzero_75 | exact le_10_75].
  - apply clamp_inside; [exact nonzero_10 | exact nonzero_75].
  - intros Hb.
    pose proof (clamp_inside (fov cam) 10 75 nonzero_10 nonzero_75 Hb) as Hid.
    split; [|split].
    + intros Hd. rewrite <- Hid at 1.
      apply clamp_mono; [exact le_10_75 | apply Hup; assumption].
    + intros Hd. rewrite <- Hid at 2.
      apply clamp_mono; [exact le_10_75 | apply Hdown; assumption].
    + intros event2 cam2 Hd [= <-]. cbn.
      destruct SF_0_05_normal as (mn & en & Hn & Hdig).
      destruct (fov_positive _ Hb) as (m & e & Hm).
      apply clamp_mono; [exact le_10_75|].
      eapply add_mono; [exact Hm|].
      eapply mul_mono; eassumption.
  - intros E Hd. apply clamp_above; [exact nonzero_75 | exact le_10_75 |].
    unfold v. rewrite E. apply Hup; [split; reflexivity | assumption].
  - intros E Hd. apply clamp_below; [exact nonzero_10 | exact le_10_75 |].
    unfold v. rewrite E. apply Hdown; [split; reflexivity | assumption].
Qed.

(** The scenario of the specification: container 800 by 600, field of
    view 75 after [init]; a wheel event with [deltaY = +500] leaves
    it at 75. *)
Lemma wheel_zoom_clamped_witness :
  exists cam',
    camera (onDocumentMouseWheel {| deltaY := 500 |} idle) = Some cam' /\
    fov cam' = 75.
Proof.
  destruct (wheel_zoom_clamped idle {| deltaY := 500 |} _ eq_refl)
    as (cam' & Hc & _ & _ & _ & _ & _ & _ & _ & Hmax & _).
  exists cam'. split; [exact Hc|].
  apply Hmax; reflexivity.
Defined.

(** *** Dragging *)




(** The targets are not clamped by the move: a drag of 5000 pixels
    downwards asks for a latitude of 1000 degrees. *)
Lemma pointer_move_target_beyond_bounds :
  targetLat far_target = 1000 /\ lt 85 (targetLat far_target).
Proof. split; reflexivity. Qed.

(** Pointer events of a pointer that is not the primary one are
    ignored in every state. *)
Lemma not_primary_ignored (s : t) (event : PointerEvent) :
  isPrimary event = false ->
  onMouseDown event s = s /\ onMouseMove event s = s /\ onMouseUp event s = s.
Proof.
  intros H. unfold onMouseDown, onMouseMove, onMouseUp. rewrite H.
  repeat split.
Qed.

(** C4, as the code has it. A pointer-up of the primary pointer only
    lowers the flag [isUserInteracting]: the coordinates and the
    orientation recorded at drag start keep their values, and the
    targets are left as they are (no snap-back).  The values left
    behind are not read while idle (a pointer-move changes nothing)
    and the next primary pointer-down overwrites all four. *)
Theorem pointer_up_keeps_session_data (s : t) (event : PointerEvent) :
  isPrimary event = true ->
  let s' := onMouseUp event s in
  isUserInteracting s' = false /\
  mouseDownMouseX s' = mouseDownMouseX s /\
  mouseDownMouseY s' = mouseDownMouseY s /\
  mouseDownLon s' = mouseDownLon s /\
  mouseDownLat s' = mouseDownLat s /\
  targetLon s' = targetLon s /\ targetLat s' = targetLat s /\
  lon s' = lon s /\ lat s' = lat s /\
  (forall move, onMouseMove move s' = s') /\
  (forall down, isPrimary down = true ->
     let s2 := onMouseDown down s' in
     mouseDownMouseX s2 = clientX down /\ mouseDownMouseY s2 = clientY down /\
     mouseDownLon s2 = lon s /\ mouseDownLat s2 = lat s).
Proof.
  intros Hp s'. unfold s', onMouseUp. rewrite Hp. cbn.
  repeat split.
  - intros move. unfold onMouseMove. cbn. rewrite orb_true_r. reflexivity.
  - unfold onMouseDown. rewrite H. reflexivity.
  - unfold onMouseDown. rewrite H. reflexivity.
  - unfold onMouseDown. rewrite H. reflexivity.
  - unfold onMouseDown. rewrite H. reflexivity.
Qed.

Lemma pointer_up_keeps_session_data_witness :
  isUserInteracting released = false /\
  mouseDownMouseX released = 400 /\ mouseDownMouseY released = 300.
Proof.
  destruct (pointer_up_keeps_session_data dragging (pointer true 300 300) eq_refl)
    as (H1 & H2 & H3 & _).
  split; [exact H1|]. split; [exact H2 | exact H3].
Defined.

(** The claim as stated fails: after a drag started at (400, 300) the
    pointer-up leaves 400 and 300 in the drag-start coordinates; only
    the flag is lowered. *)
Lemma pointer_up_not_cleared_counterexample :
  isUserInteracting dragging = true /\
  isUserInteracting released = false /\
  mouseDownMouseX released = 400 /\ mouseDownMouseY released = 300 /\
  ~ DragSession_cleared released.
Proof.
  repeat split. intros (H & _).
  apply (f_equal (fun x => (x <? 10))) in H. vm_compute in H. discriminate.
Qed.

(** *** The latitude on every run *)

Lemma between_85_0 : between (-85) 85 0.
Proof. split; reflexivity. Qed.

Lemma between_85_finite x : between (-85) 85 x -> finite x.
Proof. destruct finite_85. apply (between_finite (-85) 85); assumption. Qed.

Lemma init_invariant w h : orientation_invariant (init (new w h)).
Proof.
  split; [apply init_ready|]. cbn.
  repeat split; reflexivity.
Qed.

Lemma ready_unfold s :
  ready s -> exists cam sc rd,
    camera s = Some cam /\ scene s = Some sc /\ renderer s = Some rd.
Proof. intros ([cam Hc] & [sc Hs] & [rd Hr]). eauto 7. Qed.

Lemma dispatch_invariant sin cos s ev :
  orientation_invariant s -> event_data_finite ev ->
  orientation_invariant (dispatch sin cos s ev).
Proof.
  intros Hinv Hev. pose proof Hinv as (Hr & Hlat & Ht & Hy & Hl).
  destruct (ready_unfold s Hr) as (cam & sc & rd & Hc & Hs & Hrd).
  destruct ev as [e|e|e|e|w h|]; cbn [dispatch].
  - (* pointer down *)
    unfold onMouseDown. destruct (isPrimary e); cbn; [|exact Hinv].
    destruct Hev as [_ Hfy].
    unfold orientation_invariant, ready; cbn.
    rewrite Hc, Hs, Hrd. repeat split; eauto; apply Hlat.
  - (* pointer move *)
    unfold onMouseMove.
    destruct (negb (isPrimary e) || negb (isUserInteracting s));
      [exact Hinv|].
    destruct Hev as [_ Hfy]. destruct SF_0_2 as (m & e2 & H02).
    unfold orientation_invariant, ready; cbn.
    rewrite Hc, Hs, Hrd. repeat split; eauto; try apply Hlat; try apply Hl.
    apply add_is_number_r; [|apply between_85_finite; exact Hl].
    eapply mul_is_number; [exact H02|].
    apply sub_is_number; [apply finite_is_number|]; assumption.
  - (* pointer up *)
    unfold onMouseUp. destruct (isPrimary e); cbn; [|exact Hinv].
    unfold orientation_invariant, ready; cbn.
    rewrite Hc, Hs, Hrd. repeat split; eauto; try apply Hlat; apply Hl.
  - (* wheel *)
    unfold onDocumentMouseWheel. rewrite Hc.
    unfold orientation_invariant, ready; cbn.
    rewrite Hs. repeat split; eauto; try apply Hlat; apply Hl.
  - (* resize *)
    unfold onWindowResize. cbn. rewrite Hc, Hrd.
    unfold orientation_invariant, ready; cbn.
    rewrite Hs. repeat split; eauto; try apply Hlat; apply Hl.
  - (* frame *)
    rewrite (animate_ready _ _ _ _ _ _ Hc Hs Hrd).
    unfold orientation_invariant, ready; cbn.
    repeat split; eauto; try apply Hl;
      apply clamp_between; try exact le_85;
      apply damping_is_number; try assumption;
      apply between_85_finite; assumption.
Qed.

(** On every run of the controller ([init], then pointer, wheel and
    resize events carrying finite numbers, and frame ticks in any
    order), the latitude is within [[-85, 85]] at all times and the
    target latitude is a number: the per-tick theorem applies at every
    tick. *)
Lemma run_invariant sin cos w h evs :
  Forall event_data_finite evs ->
  orientation_invariant (run sin cos w h evs).
Proof.
  unfold run. generalize (init_invariant w h).
  generalize (init (new w h)) as s.
  induction evs as [|ev evs IH]; intros s Hs Hall; [exact Hs|].
  cbn [fold_left]. inversion Hall; subst.
  apply IH; [apply dispatch_invariant|]; assumption.
Qed.

Lemma fov_finite x : between 10 75 x -> finite x.
Proof. apply (between_finite 10 75); reflexivity. Qed.

Lemma dispatch_fov sin cos s ev :
  fov_within_bounds s -> event_data_finite ev ->
  fov_within_bounds (dispatch sin cos s ev).
Proof.
  intros Hinv Hev. pose proof Hinv as (cam & Hc & Hb).
  destruct ev as [e|e|e|e|w h|]; cbn [dispatch].
  - unfold onMouseDown. destruct (isPrimary e); cbn; [|exact Hinv].
    exists cam. split; assumption.
  - unfold onMouseMove.
    destruct (negb (isPrimary e) || negb (isUserInteracting s));
      [exact Hinv|].
    exists cam. split; assumption.
  - unfold onMouseUp. destruct (isPrimary e); cbn; [|exact Hinv].
    exists cam. split; assumption.
  - unfold onDocumentMouseWheel. rewrite Hc. eexists. split; [reflexivity|].
    cbn. apply clamp_between; [|exact le_10_75].
    destruct SF_0_05 as (m & e2 & H).
    apply add_is_number_l; [apply fov_finite, Hb|].
    eapply mul_is_number; [exact H|].
    apply finite_is_number, Hev.
  - unfold onWindowResize. cbn. rewrite Hc. eexists. split; [reflexivity|].
    exact Hb.
  - unfold animate. rewrite Hc.
    destruct (scene s); [|exact Hinv].
    destruct (renderer s); [|exact Hinv].
    eexists. split; [reflexivity|]. exact Hb.
Qed.

(** On every such run the field of view stays within [[10, 75]]. *)
Lemma run_fov_within_bounds sin cos w h evs :
  Forall event_data_finite evs ->
  fov_within_bounds (run sin cos w h evs).
Proof.
  unfold run.
  assert (fov_within_bounds (init (new w h))) as H0
    by (eexists; split; [reflexivity | split; reflexivity]).
  revert H0. generalize (init (new w h)) as s.
  induction evs as [|ev evs IH]; intros s Hs Hall; [exact Hs|].
  cbn [fold_left]. inversion Hall; subst.
  apply IH; [apply dispatch_fov|]; assumption.
Qed.

(** *** The scene mediator *)

Lemma remove_first_elem_of m x l : x ∈ remove_first m l -> x ∈ l.
Proof.
  induction l as [|y l IH]; simpl; [tauto|].
  destruct (Nat.eqb y m); rewrite ?elem_of_cons; tauto.
Qed.

Lemma remove_first_other m x l : x <> m -> x ∈ l -> x ∈ remove_first m l.
Proof.
  intros Hne. induction l as [|y l IH]; simpl; [tauto|].
  destruct (Nat.eqb_spec y m) as [->|]; rewrite ?elem_of_cons;
    intuition congruence.
Qed.

Lemma remove_first_NoDup m l :
  NoDup l -> NoDup (remove_first m l) /\ m ∉ remove_first m l.
Proof.
  induction 1 as [|y l Hy Hl [IH1 IH2]]; simpl.
  - split; [constructor | apply not_elem_of_nil].
  - destruct (Nat.eqb_spec y m) as [->|Hne]; [split; assumption|].
    split.
    + constructor; [|assumption]. intros Hin. apply Hy.
      eapply remove_first_elem_of, Hin.
    + rewrite elem_of_cons. intuition congruence.
Qed.

Lemma Scene_add_NoDup m sc :
  NoDup (children sc) -> NoDup (children (Scene_add m sc)).
Proof.
  intros H. destruct (remove_first_NoDup m _ H) as [H1 H2]. simpl.
  apply NoDup_app. repeat split; [assumption| |apply NoDup_singleton].
  intros x Hx Hin. apply list_elem_of_singleton in Hin. congruence.
Qed.

Lemma updateScene_unfold s sc A B :
  scene s = Some sc ->
  scene (updateScene A B s) = Some (Scene_add B (Scene_remove A sc)).
Proof.
  intros Hs. unfold updateScene, updateScene_add, updateScene_remove.
  rewrite Hs. reflexivity.
Qed.

(** C9, as the code has it. With an active scene (one that holds a
    mesh at most once, as the engine keeps it) and two distinct
    meshes, after [updateScene(A, B)] the scene contains [B] and not
    [A], and every other mesh is in it exactly if it was.  The call is
    the removal of [A] followed by the addition of [B]; between the
    two the scene holds neither (unless [B] was in it before). *)
Theorem updateScene_replaces (s : t) (sc : Scene) (A B : Mesh) :
  scene s = Some sc -> NoDup (children sc) -> A <> B ->
  let s' := updateScene A B s in
  let between_the_two := removeMesh A s in
  contains s' B /\ ~ contains s' A /\
  s' = addScene B between_the_two /\
  ~ contains between_the_two A /\
  (~ contains s B -> ~ contains between_the_two B) /\
  (forall m, m <> A -> m <> B -> (contains s' m <-> contains s m)).
Proof.
  intros Hs Hnd Hne s' mid.
  assert (s' = addScene B mid) as Heq by reflexivity.
  destruct (remove_first_NoDup A _ Hnd) as [Hnd' HA].
  assert (scene s' = Some (Scene_add B (Scene_remove A sc))) as Hs'
    by (apply updateScene_unfold, Hs).
  assert (scene mid = Some (Scene_remove A sc)) as Hmid
    by (unfold mid, removeMesh; rewrite Hs; reflexivity).
  unfold contains. rewrite Hs', Hmid, Hs. unfold Scene_contains. cbn.
  rewrite !elem_of_app, !list_elem_of_singleton.
  split; [right; reflexivity|].
  split.
  { intros [Hin|Hin]; [|congruence].
    apply remove_first_elem_of in Hin. contradiction. }
  split; [exact Heq|]. split; [assumption|].
  split; [intros Hn Hin; apply Hn; eapply remove_first_elem_of, Hin|].
  intros m HmA HmB. rewrite elem_of_app, list_elem_of_singleton. split.
  - intros [Hin|Hin]; [|congruence].
    eapply remove_first_elem_of, remove_first_elem_of, Hin.
  - intros Hin. left.
    apply remove_first_other; [assumption|].
    apply remove_first_other; assumption.
Qed.

Lemma updateScene_replaces_witness :
  contains showing_1 1%nat /\
  let s' := updateScene 1%nat 2%nat showing_1 in
  contains s' 2%nat /\ ~ contains s' 1%nat.
Proof.
  split; [apply list_elem_of_singleton; reflexivity|].
  destruct (updateScene_replaces showing_1 {| children := [1%nat] |} 1%nat 2%nat)
    as (H1 & H2 & _).
  - reflexivity.
  - apply NoDup_singleton.
  - discriminate.
  - split; assumption.
Defined.

(** The claim as stated fails in two ways: before [init] there is no
    scene and [updateScene] does nothing, so no scene contains [B];
    and when both arguments are the same mesh, that mesh is in the
    scene afterwards. *)
Lemma updateScene_counterexample :
  (let s' := updateScene 1%nat 2%nat (new 800 600) in ~ contains s' 2%nat) /\
  (let s' := updateScene 1%nat 1%nat idle in contains s' 1%nat).
Proof.
  split; cbn; [tauto|].
  apply list_elem_of_singleton. reflexivity.
Qed.

Lemma updateScene_no_scene s A B : scene s = None -> updateScene A B s = s.
Proof.
  intros H. unfold updateScene, updateScene_add, updateScene_remove.
  rewrite H. cbn. rewrite H. reflexivity.
Qed.

(** The mediator keeps the scene free of duplicates. *)
Lemma mediator_NoDup s sc A B :
  scene s = Some sc -> NoDup (children sc) ->
  (forall sc', scene (addScene A s) = Some sc' -> NoDup (children sc')) /\
  (forall sc', scene (removeMesh A s) = Some sc' -> NoDup (children sc')) /\
  (forall sc', scene (updateScene A B s) = Some sc' -> NoDup (children sc')).
Proof.
  intros Hs Hnd. repeat split; intros sc'.
  - unfold addScene. rewrite Hs. cbn. intros [= <-].
    apply Scene_add_NoDup, Hnd.
  - unfold removeMesh. rewrite Hs. cbn. intros [= <-].
    apply remove_first_NoDup, Hnd.
  - rewrite (updateScene_unfold _ _ _ _ Hs). intros [= <-].
    apply Scene_add_NoDup. apply remove_first_NoDup, Hnd.
Qed.

End ControllerFacts.

(** ** The pin overlay *)

Module OverlayFacts.
Import JS Promise MapportExtension Overlay.

(** *** [Promise.all] *)

Lemma fulfilled_or_rejected {A} (p : promise A) : is_fulfilled p \/ is_rejected p.
Proof. unfold is_fulfilled, is_rejected. destruct (result p); eauto. Qed.

Lemma not_fulfilled_rejected {A} (p : promise A) :
  is_fulfilled p -> is_rejected p -> False.
Proof. intros [v Hv] [e He]. congruence. Qed.

Lemma first_rejection_None {A} (ps : list (promise A)) :
  first_rejection ps = None <-> Forall is_fulfilled ps.
Proof.
  induction ps as [|p ps IH]; simpl.
  - split; [constructor | reflexivity].
  - rewrite Forall_cons. unfold is_fulfilled at 1.
    destruct (result p) as [v|e].
    + rewrite IH. split; [intros; eauto | tauto].
    + split.
      * destruct (first_rejection ps) as [[t' e']|];
          [destruct (settles_at p <=? t')%nat|]; discriminate.
      * intros [[v Hv] _]. discriminate.
Qed.

(** The reason [Promise.all] rejects with is the reason of one of the
    promises. *)
Lemma first_rejection_Some {A} (ps : list (promise A)) t e :
  first_rejection ps = Some (t, e) ->
  exists p, p ∈ ps /\ result p = Rejected e.
Proof.
  revert t e. induction ps as [|p ps IH]; simpl; intros t e; [discriminate|].
  destruct (result p) as [v|e0] eqn:Hp.
  - intros H. destruct (IH _ _ H) as (q & Hq & Hr).
    exists q. split; [right|]; assumption.
  - destruct (first_rejection ps) as [[t' e']|] eqn:Hf.
    + destruct (settles_at p <=? t')%nat; intros [= <- <-].
      * exists p. split; [left|]; assumption.
      * destruct (IH _ _ eq_refl) as (q & Hq & Hr).
        exists q. split; [right|]; assumption.
    + intros [= <- <-]. exists p. split; [left|]; assumption.
Qed.

Lemma all_Fulfilled {A} (ps : list (promise A)) :
  Forall is_fulfilled ps <-> Promise.all ps = Fulfilled (values ps).
Proof.
  rewrite <- first_rejection_None. unfold Promise.all.
  destruct (first_rejection ps) as [[t e]|]; split; congruence.
Qed.

Lemma all_Rejected {A} (ps : list (promise A)) :
  ~ Forall is_fulfilled ps ->
  exists e p, Promise.all ps = Rejected e /\ p ∈ ps /\ result p = Rejected e.
Proof.
  rewrite <- first_rejection_None. unfold Promise.all.
  destruct (first_rejection ps) as [[t e]|] eqn:Hf; [|congruence].
  intros _. destruct (first_rejection_Some _ _ _ Hf) as (p & Hp & Hr).
  eauto.
Qed.

Lemma fulfilled_or_rejected_all {A} (ps : list (promise A)) :
  Forall is_fulfilled ps \/ ~ Forall is_fulfilled ps.
Proof.
  rewrite <- first_rejection_None.
  destruct (first_rejection ps); [right; discriminate | left; reflexivity].
Qed.

(** *** The sandbox requests *)

Lemma attach_all_fulfilled mp pins : forall i,
  (forall k pin, pins !! k = Some pin ->
                 is_fulfilled (Tag_registerSandbox mp (i + k) (html pin))) ->
  Promise.all (attach_all (Some mp) pins i) = Fulfilled (attachments_from mp i pins).
Proof.
  induction pins as [|pin pins IH]; intros i Hok; [reflexivity|].
  assert (is_fulfilled (Tag_registerSandbox mp i (html pin))) as [hs Hhs].
  { specialize (Hok 0%nat pin eq_refl). rewrite Nat.add_0_r in Hok. exact Hok. }
  specialize (IH (S i)).
  assert (Promise.all (attach_all (Some mp) pins (S i))
          = Fulfilled (attachments_from mp (S i) pins)) as IH'.
  { apply IH. intros k p Hk. specialize (Hok (S k) p Hk).
    rewrite Nat.add_succ_r in Hok. exact Hok. }
  unfold Promise.all in *. cbn [attach_all first_rejection values result].
  rewrite Hhs. cbn [attachments_from]. unfold attach_of. rewrite Hhs.
  destruct (first_rejection (attach_all (Some mp) pins (S i))) as [[t e]|];
    [discriminate|].
  injection IH' as ->. reflexivity.
Qed.

Lemma attach_all_rejected mp pins : forall i k pin,
  pins !! k = Some pin ->
  is_rejected (Tag_registerSandbox mp (i + k) (html pin)) ->
  exists e, Promise.all (attach_all (Some mp) pins i) = Rejected e.
Proof.
  intros i k pin Hk Hrej.
  destruct (all_Rejected (attach_all (Some mp) pins i)) as (e & p & He & _);
    [|eauto].
  rewrite Forall_forall. intros Hall.
  revert i k Hk Hrej Hall.
  induction pins as [|q pins IH]; intros i k Hk Hrej Hall; [discriminate|].
  destruct k as [|k]; simpl in Hk.
  - injection Hk as ->. rewrite Nat.add_0_r in Hrej.
    destruct Hrej as [e He].
    destruct (Hall _ (list_elem_of_here _ _)) as [v Hv].
    simpl in Hv. rewrite He in Hv. discriminate.
  - apply (IH (S i) k Hk).
    + rewrite Nat.add_succ_r in Hrej. exact Hrej.
    + intros p Hp. apply Hall. right. exact Hp.
Qed.

(** *** The overlay-add requests *)

Lemma register_all_cons mp ws a i atts E issued pin :
  ws !! i = Some pin ->
  register_all (Some mp) ws ((a, i) :: atts) E issued =
    if decide (id pin ∈ E) then
      let r := register_all (Some mp) ws atts E issued in
      (resolved tt :: r.1, r.2)
    else
      let d := descriptor pin a in
      let r := register_all (Some mp) ws atts ({[ id pin ]} ∪ E) (issued ++ [d]) in
      (Tag_add mp (length issued) d :: r.1, r.2).
Proof.
  intros Hi. cbn [register_all]. rewrite Hi.
  destruct (decide (id pin ∈ E)); cbn zeta;
    destruct (register_all _ _ _ _ _); reflexivity.
Qed.

Lemma first_with_id_None pid pins :
  first_with_id pid pins = None <-> pid ∉ id <$> pins.
Proof.
  unfold first_with_id. rewrite list_find_None, Forall_forall, list_elem_of_fmap.
  split.
  - intros H (p & -> & Hp). exact (H p Hp eq_refl).
  - intros H p Hp E. apply H. exists p. auto.
Qed.

Lemma first_with_id_snoc pid pre pin :
  first_with_id pid (pre ++ [pin]) =
    match first_with_id pid pre with
    | Some r => Some r
    | None => if decide (id pin = pid) then Some (length pre, pin) else None
    end.
Proof.
  unfold first_with_id.
  destruct (list_find (fun p => id p = pid) pre) as [[i p]|] eqn:E.
  - apply list_find_app_l, E.
  - rewrite (list_find_app_r _ _ _ E). cbn.
    destruct (decide (id pin = pid)); cbn; rewrite ?Nat.add_0_r; reflexivity.
Qed.

Lemma register_all_dedup mp ws : forall suf pre E issued,
  ws = pre ++ suf ->
  (forall x, x ∈ E <-> x ∈ id <$> pre) ->
  one_request_per_id mp pre issued ->
  one_request_per_id mp ws
    (register_all (Some mp) ws (attachments_from mp (length pre) suf) E issued).2.
Proof.
  induction suf as [|pin suf IH]; intros pre E issued Hws HE Hreq.
  - rewrite app_nil_r in Hws. subst. exact Hreq.
  - cbn [attachments_from].
    assert (ws !! length pre = Some pin) as Hi
      by (subst ws; apply list_lookup_middle; reflexivity).
    rewrite (register_all_cons _ _ _ _ _ _ _ _ Hi).
    assert (ws = (pre ++ [pin]) ++ suf) as Hws'
      by (rewrite <- app_assoc; exact Hws).
    assert (S (length pre) = length (pre ++ [pin])) as Hlen
      by (rewrite length_app; simpl; lia).
    rewrite Hlen.
    destruct (decide (id pin ∈ E)) as [Hin|Hnin]; cbn zeta; cbn [snd].
    + apply (IH _ _ _ Hws').
      * intros x. rewrite fmap_app, elem_of_app, HE. cbn.
        rewrite list_elem_of_singleton. split; [tauto|].
        intros [H| ->]; [exact H | apply HE, Hin].
      * intros pid. rewrite first_with_id_snoc, Hreq.
        destruct (first_with_id pid pre) as [[i p]|] eqn:Ef; [reflexivity|].
        destruct (decide (id pin = pid)) as [<- |]; [|reflexivity].
        apply first_with_id_None in Ef. exfalso. apply Ef, HE, Hin.
    + apply (IH _ _ _ Hws').
      * intros x. rewrite fmap_app, elem_of_app, elem_of_union, elem_of_singleton, HE.
        cbn. rewrite list_elem_of_singleton. tauto.
      * intros pid. rewrite first_with_id_snoc.
        unfold requests_for. rewrite filter_app. fold (requests_for pid issued).
        rewrite Hreq.
        destruct (first_with_id pid pre) as [[i p]|] eqn:Ef.
        -- assert (id pin <> pid) as Hne.
           { intros <-. apply Hnin, HE.
             apply list_find_Some in Ef as (Hl & Hp & _).
             apply list_elem_of_fmap. exists p. split; [congruence|].
             eapply list_elem_of_lookup_2, Hl. }
           rewrite filter_cons_False by (cbn; exact Hne). reflexivity.
        -- destruct (decide (id pin = pid)) as [Heq|Hne].
           ++ rewrite filter_cons_True by (cbn; exact Heq). reflexivity.
           ++ rewrite filter_cons_False by (cbn; exact Hne). reflexivity.
Qed.

Lemma attachments_from_elem mp suf : forall n a i,
  (a, i) ∈ attachments_from mp n suf ->
  exists k pin, suf !! k = Some pin /\ i = (n + k)%nat.
Proof.
  induction suf as [|pin suf IH]; intros n a i Hin; cbn in Hin.
  - apply elem_of_nil in Hin. contradiction.
  - apply elem_of_cons in Hin as [[= -> ->]|Hin].
    + exists 0%nat, pin. split; [reflexivity | lia].
    + destruct (IH _ _ _ Hin) as (k & p & Hk & ->).
      exists (S k), p. split; [exact Hk | lia].
Qed.

(** Every promise of the second [Promise.all] is either the settled
    promise of a pin that was dropped, or the platform's answer to one
    of the requests issued; every request issued has its answer among
    them. *)
Lemma register_all_answers mp ws atts : forall E issued,
  (forall a i, (a, i) ∈ atts -> is_Some (ws !! i)) ->
  let r := register_all (Some mp) ws atts E issued in
  exists new,
    r.2 = issued ++ new /\
    (forall p, p ∈ r.1 ->
       p = resolved tt \/
       exists k d, new !! k = Some d /\ p = Tag_add mp (length issued + k) d) /\
    (forall k d, new !! k = Some d -> Tag_add mp (length issued + k) d ∈ r.1).
Proof.
  induction atts as [|[a i] atts IH]; intros E issued Hidx r.
  - exists []. unfold r. cbn. rewrite app_nil_r.
    split; [reflexivity|]. split.
    + intros p Hp. apply elem_of_nil in Hp. contradiction.
    + intros k d Hk. discriminate.
  - destruct (Hidx a i (list_elem_of_here _ _)) as [pin Hi].
    assert (forall a' i', (a', i') ∈ atts -> is_Some (ws !! i')) as Hidx'
      by (intros; eapply Hidx; right; eassumption).
    unfold r. rewrite (register_all_cons _ _ _ _ _ _ _ _ Hi).
    destruct (decide (id pin ∈ E)); cbn zeta; cbn [fst snd].
    + destruct (IH E issued Hidx') as (new & Hout & Hps & Hreq).
      exists new. split; [exact Hout|]. split.
      * intros p Hp. apply elem_of_cons in Hp as [-> |Hp]; [left; reflexivity|].
        apply Hps, Hp.
      * intros k d Hk. right. apply Hreq, Hk.
    + set (d := descriptor pin a).
      destruct (IH ({[ id pin ]} ∪ E) (issued ++ [d]) Hidx')
        as (new & Hout & Hps & Hreq).
      rewrite length_app in Hps, Hreq. cbn in Hps, Hreq.
      exists (d :: new). split; [rewrite Hout, <- app_assoc; reflexivity|].
      split.
      * intros p Hp. apply elem_of_cons in Hp as [-> |Hp].
        -- right. exists 0%nat, d. rewrite Nat.add_0_r. split; reflexivity.
        -- destruct (Hps p Hp) as [-> |(k & d' & Hk & ->)]; [left; reflexivity|].
           right. exists (S k), d'. split; [exact Hk|]. f_equal. lia.
      * intros [|k] d' Hk; cbn in Hk.
        -- injection Hk as <-. rewrite Nat.add_0_r. left.
        -- right. replace (length issued + S k)%nat
             with (length issued + 1 + k)%nat by lia.
           apply Hreq, Hk.
Qed.

Lemma attachments_from_valid mp ws a i :
  (a, i) ∈ attachments_from mp 0 ws -> is_Some (ws !! i).
Proof.
  intros H. destruct (attachments_from_elem _ _ _ _ _ H) as (k & pin & Hk & ->).
  eauto.
Qed.

(** The two [Promise.all] of [addPins] when every sandbox request is
    fulfilled. *)
Lemma register_pins_spec mp ws :
  (forall i pin, ws !! i = Some pin ->
                 is_fulfilled (Tag_registerSandbox mp i (html pin))) ->
  let r := register_pins (Some mp) ws in
  r.1.2 = html <$> ws /\
  one_request_per_id mp ws r.2 /\
  (r.1.1 = Fulfilled tt <->
   forall k d, r.2 !! k = Some d -> is_fulfilled (Tag_add mp k d)).
Proof.
  intros Hok r. unfold r, register_pins.
  rewrite (attach_all_fulfilled mp ws 0 Hok).
  pose proof (register_all_dedup mp ws ws [] ∅ [] eq_refl) as Hd.
  pose proof (register_all_answers mp ws (attachments_from mp 0 ws) ∅ []
                (attachments_from_valid mp ws)) as Ha.
  cbn [length] in Hd. cbn zeta in Ha.
  destruct (register_all (Some mp) ws (attachments_from mp 0 ws) ∅ [])
    as [ps issued]. cbn [fst snd] in *.
  destruct Ha as (new & -> & Hps & Hreq). cbn [app length Nat.add] in *.
  split; [reflexivity|]. split.
  { apply Hd; [intros x; cbn; rewrite elem_of_nil; set_solver|].
    intros pid. reflexivity. }
  pose proof (all_Fulfilled ps) as Hall.
  split.
  - intros Ho k d Hk. specialize (Hreq k d Hk).
    assert (Forall is_fulfilled ps) as Hf.
    { destruct (fulfilled_or_rejected_all ps) as [Hf|Hnf]; [exact Hf|].
      destruct (all_Rejected ps Hnf) as (e & p & He & _).
      rewrite He in Ho. discriminate. }
    rewrite Forall_forall in Hf. apply Hf, Hreq.
  - intros Hk.
    assert (Forall is_fulfilled ps) as Hf.
    { rewrite Forall_forall. intros p Hp.
      destruct (Hps p Hp) as [-> |(k & d & Hkd & ->)];
        [eexists; reflexivity | apply (Hk k d Hkd)]. }
    apply Hall in Hf. rewrite Hf. reflexivity.
Qed.

Lemma addPins_unfold getPins mapport arg model h l h' ws :
  collect_pins getPins arg model h = inr (l, h') -> h' !! l = Some ws ->
  addPins getPins mapport arg model h =
    {| outcome := (register_pins mapport ws).1.1;
       final_store := h';
       sandbox_requests := (register_pins mapport ws).1.2;
       add_requests := (register_pins mapport ws).2 |}.
Proof.
  intros Hc Hl. unfold addPins. rewrite Hc, Hl.
  destruct (register_pins mapport ws) as [[o req] iss]. reflexivity.
Qed.

(** C2. [addPins] on a platform, once its head has produced the array
    [ws] to work on and every sandbox request is fulfilled: for every
    identifier, exactly one overlay-add request is issued, and it
    carries the first pin of [ws] with that identifier together with
    that pin's attachment; identifiers that no pin carries get none.
    The pins dropped raise no error: the call is fulfilled exactly
    when the platform fulfils every request issued. *)
Theorem addPins_registers_first_of_each_id
    (getPins : string -> settled (list Pin)) (mp : Platform)
    (arg : pins_arg) (model : option string) (h h' : store) (l : loc)
    (ws : list Pin) :
  collect_pins getPins arg model h = inr (l, h') -> h' !! l = Some ws ->
  (forall i pin, ws !! i = Some pin ->
                 is_fulfilled (Tag_registerSandbox mp i (html pin))) ->
  let r := addPins getPins (Some mp) arg model h in
  (forall pid i pin,
      ws !! i = Some pin -> id pin = pid ->
      (forall j other, ws !! j = Some other -> id other = pid -> (i <= j)%nat) ->
      requests_for pid (add_requests r) = [descriptor pin (attach_of mp i pin)]) /\
  (forall pid, pid ∉ id <$> ws -> requests_for pid (add_requests r) = []) /\
  (outcome r = Fulfilled tt <->
   forall k d, add_requests r !! k = Some d -> is_fulfilled (Tag_add mp k d)).
Proof.
  intros Hc Hl Hok r. unfold r.
  rewrite (addPins_unfold _ _ _ _ _ _ _ _ Hc Hl).
  cbn [add_requests outcome].
  destruct (register_pins_spec mp ws Hok) as (_ & Hone & Hout).
  unfold one_request_per_id in Hone.
  split; [|split; [|exact Hout]].
  - intros pid i pin Hi Hid Hfirst. rewrite Hone.
    assert (first_with_id pid ws = Some (i, pin)) as ->; [|reflexivity].
    apply list_find_Some. split; [exact Hi|]. split; [exact Hid|].
    intros j other Hj Hlt Hp. specialize (Hfirst j other Hj Hp). lia.
  - intros pid Hn. rewrite Hone.
    apply first_with_id_None in Hn. rewrite Hn. reflexivity.
Qed.

(** The scenario of the specification: two pins share [id = "p1"];
    one overlay-add request is issued for ["p1"], for the first of
    the two, and the call is fulfilled. *)
Lemma addPins_registers_first_of_each_id_witness :
  let r := addPins no_pins_of_model (Some obliging) (array 1%positive) None
             two_pins_p1 in
  requests_for "p1" (add_requests r)
    = [descriptor (pin "p1" "<b>first</b>") (Some "sandbox:<b>first</b>")] /\
  outcome r = Fulfilled tt.
Proof.
  destruct (addPins_registers_first_of_each_id no_pins_of_model obliging
              (array 1%positive) None two_pins_p1 two_pins_p1 1%positive
              [pin "p1" "<b>first</b>"; pin "p1" "<b>second</b>"])
    as (H1 & _ & H3).
  - reflexivity.
  - reflexivity.
  - intros i p _. eexists. reflexivity.
  - split.
    + apply (H1 "p1" 0%nat (pin "p1" "<b>first</b>")); [reflexivity..|].
      intros j other _ _. lia.
    + apply H3. intros k d _. eexists. reflexivity.
Defined.

(** C7. When a sandbox request or an overlay-add request that
    [addPins] has sent is rejected, the call as a whole is rejected:
    its outcome is one rejection, which carries a reason and nothing
    about the requests that went through. *)
Theorem addPins_fails_as_a_whole
    (getPins : string -> settled (list Pin)) (mp : Platform)
    (arg : pins_arg) (model : option string) (h : store) :
  let r := addPins getPins (Some mp) arg model h in
  (exists i content, sandbox_requests r !! i = Some content /\
                     is_rejected (Tag_registerSandbox mp i content)) \/
  (exists k d, add_requests r !! k = Some d /\ is_rejected (Tag_add mp k d)) ->
  exists e, outcome r = Rejected e.
Proof.
  intros r Hfail.
  destruct (collect_pins getPins arg model h) as [[e h']|[l h']] eqn:Hc.
  { unfold r, addPins. rewrite Hc. cbn. eauto. }
  destruct (h' !! l) as [ws|] eqn:Hl.
  2:{ unfold r, addPins. rewrite Hc, Hl. cbn. eauto. }
  unfold r in *. rewrite (addPins_unfold _ _ _ _ _ _ _ _ Hc Hl) in *.
  cbn in *. clear r.
  destruct (Promise.all (attach_all (Some mp) ws 0)) as [atts|e] eqn:Hall.
  2:{ unfold register_pins. rewrite Hall. cbn. eauto. }
  assert (forall i pin, ws !! i = Some pin ->
                        is_fulfilled (Tag_registerSandbox mp i (html pin))) as Hok.
  { intros i pin Hi.
    destruct (fulfilled_or_rejected (Tag_registerSandbox mp i (html pin)))
      as [Hf|Hr]; [exact Hf|].
    destruct (attach_all_rejected mp ws 0 i pin Hi Hr) as [e He].
    rewrite He in Hall. discriminate. }
  destruct (register_pins_spec mp ws Hok) as (Hreq & _ & Hout).
  destruct Hfail as [(i & content & Hi & Hrej)|(k & d & Hk & Hrej)].
  - exfalso. rewrite Hreq, list_lookup_fmap in Hi.
    destruct (ws !! i) as [pin|] eqn:Hp; [|discriminate].
    injection Hi as <-.
    exact (not_fulfilled_rejected _ (Hok i pin Hp) Hrej).
  - destruct ((register_pins (Some mp) ws).1.1) as [[]|e] eqn:Ho; [|eauto].
    exfalso. destruct Hout as [Hout _].
    exact (not_fulfilled_rejected _ (Hout eq_refl k d Hk) Hrej).
Qed.

(** A batch of two pins on a platform that fulfils everything but the
    second overlay-add: the first registration has taken effect on the
    platform, and the call is rejected all the same. *)
Lemma addPins_fails_as_a_whole_witness :
  let r := addPins no_pins_of_model (Some second_add_fails) (array 1%positive)
             None p1_then_p2 in
  tag_id <$> add_requests r = ["p1"; "p2"] /\
  (exists e, outcome r = Rejected e).
Proof.
  split; [reflexivity|].
  apply (addPins_fails_as_a_whole no_pins_of_model second_add_fails
           (array 1%positive) None p1_then_p2).
  right. exists 1%nat. eexists. split; [reflexivity|].
  eexists. reflexivity.
Defined.

Lemma second_add_fails_first_took_effect :
  let r := addPins no_pins_of_model (Some second_add_fails) (array 1%positive)
             None p1_then_p2 in
  outcome r = Rejected (Failure "add refused") /\
  (forall d, add_requests r !! 0%nat = Some d ->
             result (Tag_add second_add_fails 0 d) = Fulfilled tt).
Proof. split; [reflexivity | intros d _; reflexivity]. Qed.

(** C10. [addPins] with an array of the caller and a model identifier
    that is not empty, when the fetch of the model's pins succeeds:
    the pins fetched are appended to that same array, after the pins
    it held, whatever the platform does afterwards; no other array of
    the store changes. *)
Theorem addPins_pushes_onto_callers_array
    (getPins : string -> settled (list Pin)) (mapport : option Platform)
    (l : loc) (model : string) (h : store) (original fetched : list Pin) :
  h !! l = Some original -> model <> "" ->
  getPins model = Fulfilled fetched ->
  let r := addPins getPins mapport (array l) (Some model) h in
  final_store r !! l = Some (original ++ fetched) /\
  (forall l', l' <> l -> final_store r !! l' = h !! l').
Proof.
  intros Hl Hm Hg r.
  assert (collect_pins getPins (array l) (Some model) h
          = inr (l, <[ l := original ++ fetched ]> h)) as Hc.
  { unfold collect_pins. cbn.
    destruct (String.eqb_spec model "") as [->|_]; [contradiction|].
    rewrite Hg, Hl. reflexivity. }
  unfold r.
  rewrite (addPins_unfold _ _ _ _ _ _ _ (original ++ fetched) Hc)
    by apply lookup_insert_eq.
  cbn. split; [apply lookup_insert_eq|].
  intros l' Hne. apply lookup_insert_ne. congruence.
Qed.

Lemma addPins_pushes_onto_callers_array_witness :
  let r := addPins one_pin_of_model None (array 1%positive) (Some "model-1")
             two_pins_p1 in
  final_store r !! 1%positive
    = Some [pin "p1" "<b>first</b>"; pin "p1" "<b>second</b>";
            pin "p3" "<i>fetched</i>"].
Proof.
  apply (addPins_pushes_onto_callers_array one_pin_of_model None 1%positive
           "model-1" two_pins_p1
           [pin "p1" "<b>first</b>"; pin "p1" "<b>second</b>"]
           [pin "p3" "<i>fetched</i>"]).
  - reflexivity.
  - discriminate.
  - reflexivity.
Defined.

(** C3: what the code does. Called with no pin list and no model
    identifier (none, or the empty one), [addPins] does not fail: the
    default value of [pins] is an empty array, which is not falsy, so
    the check of the arguments passes; nothing is fetched, no request
    is sent, and the call is fulfilled. *)
Theorem addPins_without_pins_or_model
    (getPins : string -> settled (list Pin)) (mapport : option Platform)
    (h : store) :
  let r := addPins getPins mapport undefined None h in
  let r' := addPins getPins mapport undefined (Some "") h in
  (outcome r = Fulfilled tt /\ sandbox_requests r = [] /\ add_requests r = []) /\
  (outcome r' = Fulfilled tt /\ sandbox_requests r' = [] /\ add_requests r' = []).
Proof.
  intros r r'.
  set (l := fresh (dom h)).
  assert (collect_pins getPins undefined None h = inr (l, <[ l := [] ]> h))
    as Hc by reflexivity.
  assert (collect_pins getPins undefined (Some "") h = inr (l, <[ l := [] ]> h))
    as Hc' by reflexivity.
  unfold r, r'.
  rewrite (addPins_unfold _ _ _ _ _ _ _ [] Hc) by apply lookup_insert_eq.
  rewrite (addPins_unfold _ _ _ _ _ _ _ [] Hc') by apply lookup_insert_eq.
  destruct mapport; repeat split.
Qed.

(** The check of the arguments fires only on an explicit [null]. *)
Lemma addPins_null_and_no_model
    (getPins : string -> settled (list Pin)) (mapport : option Platform)
    (h : store) :
  outcome (addPins getPins mapport null None h)
  = Rejected (Error
      "To add pins, provide either a pins array or a model in the setup configuration.").
Proof. reflexivity. Qed.

(** *** getPosition *)

(** C8. [getPosition] never throws: it hands back a promise.  With a
    position and a pose in the caches, the promise is fulfilled with
    the cached position and its timestamp; with either cache empty it
    is rejected with the error ["Can't get current position."].  The
    closure that [setupSdk] returns has both caches empty. *)
Theorem getPosition_never_throws {Pose : Type}
    (intersectionCache : option IntersectionResult) (poseCache : option Pose) :
  getPosition intersectionCache poseCache =
    Returns (Some match intersectionCache, poseCache with
                  | Some position, Some _ => Fulfilled (Some position)
                  | _, _ => Rejected (Error "Can't get current position.")
                  end) /\
  setupSdk_getPosition =
    Returns (Some (Rejected (Error "Can't get current position."))).
Proof.
  split; [|reflexivity].
  destruct intersectionCache, poseCache; reflexivity.
Qed.

End OverlayFacts.

(** ** Numbers: sums, differences and [===] *)

Module SumFacts.
Import JS Order Rounding NumberOps NumberFacts RoundingFacts MonotoneRounding.

Lemma same_key x y :
  same x y <-> is_number x /\ is_number y /\ key (SF x) = key (SF y).
Proof.
  unfold same. rewrite FloatAxioms.eqb_spec, !is_number_SF, <- SFcompare_Eq.
  unfold SFeqb.
  destruct (SFcompare _ _) as [[]|]; split; intros; auto; discriminate.
Qed.

Lemma same_le x y : same x y <-> le x y /\ le y x.
Proof.
  rewrite same_key, !le_key. split.
  - intros (Hx & Hy & Hk). rewrite Hk. auto 10 using key_le_refl.
  - intros ((Hx & Hy & H1) & (_ & _ & H2)). repeat split; trivial.
    destruct (key (SF x)) as [[a1 a2] a3], (key (SF y)) as [[b1 b2] b3].
    simpl in *. f_equal; [f_equal|]; lia.
Qed.

Lemma same_refl x : is_number x -> same x x.
Proof. intros H. apply same_le. auto using le_refl. Qed.

Lemma same_sym x y : same x y -> same y x.
Proof. rewrite !same_le. tauto. Qed.

Lemma same_trans x y z : same x y -> same y z -> same x z.
Proof. rewrite !same_le. intros [] []. eauto using le_trans. Qed.

Lemma le_lt_trans x y z : le x y -> lt y z -> lt x z.
Proof.
  rewrite le_key, !lt_key. intros (Hx & Hy & H1) (_ & Hz & H2).
  repeat split; trivial.
  destruct (key (SF x)) as [[a1 a2] a3], (key (SF y)) as [[b1 b2] b3],
    (key (SF z)) as [[c1 c2] c3]. simpl in *. lia.
Qed.

Lemma lt_le_trans x y z : lt x y -> le y z -> lt x z.
Proof.
  rewrite le_key, !lt_key. intros (Hx & Hy & H1) (_ & Hz & H2).
  repeat split; trivial.
  destruct (key (SF x)) as [[a1 a2] a3], (key (SF y)) as [[b1 b2] b3],
    (key (SF z)) as [[c1 c2] c3]. simpl in *. lia.
Qed.

(** *** Differences are sums *)

Lemma cond_Zopp_negb s z : cond_Zopp (negb s) z = - cond_Zopp s z.
Proof. destruct s; cbn; lia. Qed.

Lemma SFsub_add_opp x y : SF64sub x y = SF64add x (SFopp y).
Proof.
  unfold SF64sub, SF64add.
  destruct x as [[]|[]| |sx mx ex], y as [[]|[]| |sy my ey]; try reflexivity.
  cbn [SFsub SFadd SFopp]. rewrite cond_Zopp_negb. reflexivity.
Qed.

Lemma sub_add_opp x y : (x - y)%float = (x + - y)%float.
Proof.
  apply Prim2SF_inj. rewrite sub_spec, add_spec, opp_spec.
  apply SFsub_add_opp.
Qed.

Lemma opp_is_number x : is_number x -> is_number (- x)%float.
Proof.
  rewrite !is_number_SF, opp_spec. destruct (SF x); cbn; congruence.
Qed.

Lemma opp_finite x : finite x -> finite (- x)%float.
Proof.
  rewrite !finite_SF, opp_spec.
  intros [[b ->]|(s & m & e & ->)]; cbn; eauto 6.
Qed.

(** Changing the signs turns the order round. *)
Lemma opp_le x y : le x y -> le (- y)%float (- x)%float.
Proof.
  rewrite !le_key. intros (Hx & Hy & Hk).
  split; [apply opp_is_number, Hy|]. split; [apply opp_is_number, Hx|].
  rewrite !opp_spec. apply key_le_opp; try apply is_number_SF; assumption.
Qed.

(** *** Sums of two numbers of any sign *)

Lemma scaled_value_rebase s E E0 :
  E0 <= E -> above E s ->
  scaled_value s E * 2 ^ (E - E0) = scaled_value s E0.
Proof.
  intros H0 Ha. destruct s as [b|b| |b m e]; cbn in *; try lia.
  replace (e - E0) with (e - E + (E - E0)) by lia.
  rewrite Z.pow_add_r by lia. destruct b; cbn; lia.
Qed.

Lemma exact_add_above x a :
  above (snd (exact_add x a)) x /\ above (snd (exact_add x a)) a.
Proof. destruct x, a; cbn; lia. Qed.

Lemma round_value_cond_Zopp s m e :
  round_value (cond_Zopp s (Zpos m)) e = nearest s (Zpos m) e.
Proof. destruct s; reflexivity. Qed.

Lemma SFadd_exact_add x a :
  valid_binary x = true -> valid_binary a = true ->
  finite_or_zero x -> finite_or_zero a ->
  key (SF64add x a) =
    key (round_value (fst (exact_add x a)) (snd (exact_add x a))).
Proof.
  intros Vx Va Fx Fa.
  destruct x as [sx|sx| |sx mx ex], a as [sa|sa| |sa ma ea];
    try contradiction.
  - destruct sx, sa; reflexivity.
  - cbn [SF64add SFadd exact_add exponent_or scaled_value fst snd]. unfold SF64add. cbn [SFadd].
    rewrite Z.min_id, Z.sub_diag, Z.mul_1_r, Z.add_0_l.
    rewrite round_value_cond_Zopp, nearest_canonical by exact Va.
    reflexivity.
  - unfold SF64add. cbn [SFadd exact_add exponent_or scaled_value fst snd].
    rewrite Z.min_id, Z.sub_diag, Z.mul_1_r, Z.add_0_r.
    rewrite round_value_cond_Zopp, nearest_canonical by exact Vx.
    reflexivity.
  - unfold SF64add. cbn [SFadd exact_add exponent_or scaled_value fst snd].
    rewrite binary_normalize_round_value.
    pose proof (shl_align_spec mx ex (Z.min ex ea)) as [-> _].
    pose proof (shl_align_spec ma ea (Z.min ex ea)) as [-> _].
    replace (Z.max 0 (ex - Z.min ex ea)) with (ex - Z.min ex ea) by lia.
    replace (Z.max 0 (ea - Z.min ex ea)) with (ea - Z.min ex ea) by lia.
    reflexivity.
Qed.

Lemma exact_add_scaled x a E0 :
  above E0 x -> above E0 a -> E0 <= 0 ->
  E0 <= snd (exact_add x a) /\
  fst (exact_add x a) * 2 ^ (snd (exact_add x a) - E0) =
    scaled_value x E0 + scaled_value a E0.
Proof.
  intros Ax Aa H0.
  assert (E0 <= snd (exact_add x a)) as HE
    by (destruct x, a; cbn in *; lia).
  split; [exact HE|].
  destruct (exact_add_above x a) as [Bx Ba].
  cbn [exact_add fst snd] in *.
  rewrite Z.mul_add_distr_r, !scaled_value_rebase by assumption.
  reflexivity.
Qed.

Lemma common_base3 x a b :
  exists E0, E0 <= 0 /\ above E0 x /\ above E0 a /\ above E0 b.
Proof.
  exists (Z.min (Z.min 0 (exponent_or x 0))
                (Z.min (exponent_or a 0) (exponent_or b 0))).
  destruct x, a, b; cbn; lia.
Qed.

Lemma SFadd_mono_r x a b :
  valid_binary x = true -> valid_binary a = true -> valid_binary b = true ->
  finite_or_zero x -> finite_or_zero a -> finite_or_zero b ->
  key_le (key a) (key b) ->
  key_le (key (SF64add x a)) (key (SF64add x b)).
Proof.
  intros Vx Va Vb Fx Fa Fb Hk.
  rewrite !SFadd_exact_add by assumption.
  destruct (common_base3 x a b) as (E0 & H0 & Ax & Aa & Ab).
  destruct (exact_add_scaled x a E0 Ax Aa H0) as [H1 H2].
  destruct (exact_add_scaled x b E0 Ax Ab H0) as [H3 H4].
  apply (round_value_mono _ _ _ _ E0); try assumption.
  rewrite H2, H4.
  pose proof (key_le_value a b E0 Va Vb Fa Fb Aa Ab Hk). lia.
Qed.

Lemma exact_add_comm x a : exact_add x a = exact_add a x.
Proof. unfold exact_add. rewrite Z.min_comm, Z.add_comm. reflexivity. Qed.

Lemma SFadd_comm_key x a :
  valid_binary x = true -> valid_binary a = true ->
  key (SF64add x a) = key (SF64add a x).
Proof.
  intros Vx Va.
  destruct x as [sx|sx| |sx mx ex] eqn:Ex, a as [sa|sa| |sa ma ea] eqn:Ea;
    try (destruct sx, sa; reflexivity); try (destruct sx; reflexivity);
    try (destruct sa; reflexivity); try reflexivity;
    rewrite <- Ex, <- Ea in *;
    rewrite (SFadd_exact_add x a), (SFadd_exact_add a x), exact_add_comm;
    subst; cbn; trivial.
Qed.

(** Adding a finite number on the left keeps the order. *)
Lemma add_mono_r x a b :
  finite x -> le a b -> le (x + a)%float (x + b)%float.
Proof.
  intros Fx. pose proof (finite_is_number x Fx) as Nx.
  rewrite !le_key. intros (N1 & N2 & Hk).
  pose proof (add_is_number_l x a Fx N1) as R1.
  pose proof (add_is_number_l x b Fx N2) as R2.
  split; [assumption|]. split; [assumption|].
  rewrite is_number_SF, add_spec in R1, R2. rewrite !add_spec.
  assert (finite_or_zero (SF x) /\ valid_binary (SF x) = true) as [Fx' Vx].
  { pose proof (Prim2SF_valid x) as Hv. apply finite_SF in Fx.
    destruct Fx as [[b0 ->]|(s & m & e & E)]; [cbn; auto|].
    rewrite E in *. cbn. auto. }
  destruct (SF_cases a N1) as [[s1 E1]|[F1 V1]];
    destruct (SF_cases b N2) as [[s2 E2]|[F2 V2]].
  - rewrite E1, E2 in *.
    destruct (SF x) as [?|?| |? ? ?]; try contradiction;
      destruct s1, s2; cbn in *; lia.
  - rewrite E1 in *. destruct s1.
    + destruct (SF x) as [?|?| |? ? ?]; try contradiction;
        apply (key_bounds _ R2).
    + exfalso. destruct (SF b) as [?|?| |[] ? ?]; cbn in *; try contradiction; lia.
  - rewrite E2 in *. destruct s2.
    + exfalso. destruct (SF a) as [?|?| |[] ? ?]; cbn in *; try contradiction; lia.
    + destruct (SF x) as [?|?| |? ? ?]; try contradiction;
        apply (key_bounds _ R1).
  - apply SFadd_mono_r; assumption.
Qed.

Lemma add_comm_same x y :
  is_number (x + y)%float -> same (x + y)%float (y + x)%float.
Proof.
  intros N. apply same_key.
  assert (key (SF (x + y)%float) = key (SF (y + x)%float)) as Hk.
  { rewrite !add_spec.
    apply SFadd_comm_key; apply Prim2SF_valid. }
  split; [exact N|]. split; [|exact Hk].
  apply is_number_SF. intros E. apply is_number_SF in N.
  rewrite E in Hk. destruct (SF (x + y)%float) as [[]|[]| |[] ? ?];
    cbn in Hk; congruence.
Qed.

(** Adding a finite number on the right keeps the order. *)
Lemma add_mono_l y a b :
  finite y -> le a b -> le (a + y)%float (b + y)%float.
Proof.
  intros Fy Hab.
  pose proof (add_mono_r y a b Fy Hab) as H.
  pose proof (le_is_number_l _ _ H) as N1.
  pose proof (le_is_number_r _ _ H) as N2.
  destruct (proj1 (same_le _ _) (add_comm_same y a N1)) as [_ H1].
  destruct (proj1 (same_le _ _) (add_comm_same y b N2)) as [H2 _].
  eauto using le_trans.
Qed.

(** Subtracting a finite number keeps the order; subtracting from a
    finite number turns it round. *)
Lemma sub_mono_l y a b :
  finite y -> le a b -> le (a - y)%float (b - y)%float.
Proof.
  intros Fy Hab. rewrite !sub_add_opp.
  apply add_mono_l; [apply opp_finite, Fy | exact Hab].
Qed.

Lemma sub_mono_r x a b :
  finite x -> le a b -> le (x - b)%float (x - a)%float.
Proof.
  intros Fx Hab. rewrite !sub_add_opp.
  apply add_mono_r; [exact Fx | apply opp_le, Hab].
Qed.

(** *** Zeros *)

Lemma sub_self x : finite x -> SF (x - x)%float = S754_zero false.
Proof.
  intros Fx. rewrite sub_spec. apply finite_SF in Fx.
  destruct Fx as [[b ->]|(s & m & e & ->)].
  - destruct b; reflexivity.
  - unfold SF64sub. cbn [SFsub]. rewrite Z.sub_diag. reflexivity.
Qed.

Lemma mul_zero_l z c mc ec :
  SF z = S754_zero false -> SF c = S754_finite false mc ec ->
  SF (z * c)%float = S754_zero false.
Proof. intros Hz Hc. rewrite mul_spec, Hz, Hc. reflexivity. Qed.

Lemma add_zero_r x z :
  is_number x -> SF z = S754_zero false -> same (x + z)%float x.
Proof.
  intros Nx Hz. apply same_key.
  assert (SF (x + z)%float = SF x \/
          (SF x = S754_zero true /\ SF (x + z)%float = S754_zero false))
    as H.
  { rewrite add_spec, Hz. apply is_number_SF in Nx.
    destruct (SF x) as [[]|[]| |? ? ?]; try congruence; auto. }
  split; [|split; [exact Nx|]].
  - apply is_number_SF. apply is_number_SF in Nx.
    destruct H as [-> |[_ ->]]; [exact Nx | discriminate].
  - destruct H as [-> |[-> ->]]; reflexivity.
Qed.

Lemma add_zero_l x z :
  is_number x -> SF z = S754_zero false -> same (z + x)%float x.
Proof.
  intros Nx Hz. apply same_key.
  assert (SF (z + x)%float = SF x \/
          (SF x = S754_zero true /\ SF (z + x)%float = S754_zero false))
    as H.
  { rewrite add_spec, Hz. apply is_number_SF in Nx.
    destruct (SF x) as [[]|[]| |? ? ?]; try congruence; auto. }
  split; [|split; [exact Nx|]].
  - apply is_number_SF. apply is_number_SF in Nx.
    destruct H as [-> |[_ ->]]; [exact Nx | discriminate].
  - destruct H as [-> |[-> ->]]; reflexivity.
Qed.

End SumFacts.

(** ** Numbers: how far rounding can move a value *)

Module ErrorBounds.
Import JS Order Rounding NumberOps NumberFacts RoundingFacts MonotoneRounding.
Import SumFacts.

(** Rounding to nearest at most doubles a value. *)
Lemma rnd_le_double M n : 0 <= M -> 0 <= n -> rnd M n * 2 ^ n <= 2 * M.
Proof.
  intros HM Hn.
  assert (0 < 2 ^ n) as Hp by (apply Z.pow_pos_nonneg; lia).
  pose proof (Z.div_mod M (2 ^ n) ltac:(lia)) as Hdm.
  pose proof (Z.mod_pos_bound M (2 ^ n) Hp) as Hr.
  assert (0 <= M / 2 ^ n) as Hq by (apply Z.div_pos; lia).
  unfold rnd, location_of.
  destruct (Z.eqb_spec (M mod 2 ^ n) 0) as [E|NE]; unfold round_nearest_even.
  - nia.
  - destruct (Z.compare_spec (2 * (M mod 2 ^ n)) (2 ^ n)) as [Hc|Hc|Hc].
    + destruct (Z.even (M / 2 ^ n)) eqn:Hev; [nia|].
      assert (M / 2 ^ n <> 0) by (intros E0; rewrite E0 in Hev; discriminate).
      nia.
    + nia.
    + nia.
Qed.

Lemma rnd_nonneg M n : 0 <= M -> 0 <= n -> 0 <= rnd M n.
Proof.
  intros HM Hn.
  assert (0 <= M / 2 ^ n)
    by (apply Z.div_pos; [lia | apply Z.pow_pos_nonneg; lia]).
  destruct (rnd_bounds M n); lia.
Qed.

Lemma finish_le a f s m e :
  0 <= a -> finish false a f = S754_finite s m e ->
  f <= e /\ Zpos m * 2 ^ (e - f) <= a.
Proof.
  unfold finish. set (n2 := Z.max 0 _). intros Ha.
  assert (0 < 2 ^ n2) as Hp by (apply Z.pow_pos_nonneg; lia).
  pose proof (Z.mul_div_le a (2 ^ n2) Hp) as Hle.
  destruct (a / 2 ^ n2) as [|q|q] eqn:E; try discriminate.
  destruct (f + n2 <=? emax - prec); [|discriminate].
  intros [= _ <- <-]. split; [lia|].
  replace (f + n2 - f) with n2 by lia. lia.
Qed.

Lemma nearest_le_double M E s m e E0 :
  0 < M -> E0 <= E -> E0 <= -1074 ->
  nearest false M E = S754_finite s m e ->
  E0 <= e /\ Zpos m * 2 ^ (e - E0) <= 2 * (M * 2 ^ (E - E0)).
Proof.
  intros HM HE H0 Hn.
  set (f := fexp (Zdigits2 M + E)) in *.
  assert (-1074 <= f) as Hf by (unfold f; rewrite fexp_eq; lia).
  rewrite (nearest_base false M E E0) in Hn by lia. fold f in Hn.
  assert (0 < 2 ^ (E - E0)) as Hp1 by (apply Z.pow_pos_nonneg; lia).
  assert (0 < 2 ^ (f - E0)) as Hp2 by (apply Z.pow_pos_nonneg; lia).
  set (a := rnd (M * 2 ^ (E - E0)) (f - E0)) in *.
  assert (0 <= a) as Ha by (apply rnd_nonneg; nia).
  destruct (finish_le a f s m e Ha Hn) as [Hfe Hm].
  pose proof (rnd_le_double (M * 2 ^ (E - E0)) (f - E0) ltac:(nia) ltac:(lia))
    as Hd. fold a in Hd.
  split; [lia|].
  replace (e - E0) with (e - f + (f - E0)) by lia.
  rewrite Z.pow_add_r by lia.
  assert (0 < 2 ^ (e - f)) by (apply Z.pow_pos_nonneg; lia).
  nia.
Qed.

Lemma scaled_value_opp s E0 :
  scaled_value (SFopp s) E0 = - scaled_value s E0.
Proof. destruct s as [b|b| |[] m e]; cbn; lia. Qed.

Lemma finite_or_zero_opp s : finite_or_zero (SFopp s) <-> finite_or_zero s.
Proof. destruct s; cbn; tauto. Qed.

(** The value rounded lies between 0 and twice the exact value. *)
Lemma round_value_bound S E E0 :
  E0 <= E -> E0 <= -1074 -> finite_or_zero (round_value S E) ->
  let v := scaled_value (round_value S E) E0 in
  (0 <= S -> 0 <= v <= 2 * (S * 2 ^ (E - E0))) /\
  (S <= 0 -> 2 * (S * 2 ^ (E - E0)) <= v <= 0).
Proof.
  intros HE H0.
  assert (0 < 2 ^ (E - E0)) as Hp by (apply Z.pow_pos_nonneg; lia).
  assert (forall M, finite_or_zero (nearest false (Zpos M) E) ->
            0 <= scaled_value (nearest false (Zpos M) E) E0
              <= 2 * (Zpos M * 2 ^ (E - E0))) as Hpos.
  { intros M Hf.
    pose proof (nearest_signed false (Zpos M) E eq_refl) as Hs.
    destruct (nearest false (Zpos M) E) as [b|b| |s m e] eqn:En;
      try contradiction.
    - cbn. nia.
    - cbn in Hs. subst s.
      destruct (nearest_le_double (Zpos M) E false m e E0 eq_refl HE H0 En)
        as [He Hm].
      cbn. assert (0 < 2 ^ (e - E0)) by (apply Z.pow_pos_nonneg; lia). nia. }
  destruct S as [|M|M]; cbn [round_value]; intros Hf; cbv zeta.
  - cbn. lia.
  - split; [intros _; apply Hpos, Hf | lia].
  - rewrite nearest_opp in Hf |- *. rewrite scaled_value_opp.
    apply (proj1 (finite_or_zero_opp _)) in Hf. specialize (Hpos M Hf).
    split; [lia|]. intros _.
    replace (Z.neg M * 2 ^ (E - E0)) with (- (Zpos M * 2 ^ (E - E0))) by lia.
    lia.
Qed.

Lemma key_scaled a b E0 :
  key a = key b -> a <> S754_nan -> b <> S754_nan ->
  scaled_value a E0 = scaled_value b E0 /\
  (finite_or_zero a -> finite_or_zero b).
Proof.
  intros K Na Nb.
  assert (a = b \/ exists s s', a = S754_zero s /\ b = S754_zero s') as [-> |H].
  { destruct a as [[]|[]| |[] m e], b as [[]|[]| |[] m' e']; cbn in K;
      try congruence; try discriminate K; eauto.
    - left. injection K as He Hm. apply Z.opp_inj in He. congruence.
    - left. injection K as He Hm. congruence. }
  - split; [reflexivity | tauto].
  - destruct H as (s & s' & -> & ->). split; [reflexivity | tauto].
Qed.

Lemma valid_above s : valid_binary s = true -> above (-1074) s.
Proof.
  destruct s as [b|b| |b m e]; cbn; trivial. intros H.
  apply (bounded_mantissa m e H).
Qed.

Lemma valid_opp s : valid_binary (SFopp s) = valid_binary s.
Proof. destruct s; reflexivity. Qed.

(** A number is the rounding of its own value. *)
Lemma self_round s E0 :
  valid_binary s = true -> finite_or_zero s -> above E0 s ->
  exists S E, key s = key (round_value S E) /\ E0 <= E /\
              S * 2 ^ (E - E0) = scaled_value s E0.
Proof.
  intros V F A. destruct s as [b|b| |b m e]; try contradiction.
  - exists 0, E0. cbn. split; [reflexivity | lia].
  - exists (cond_Zopp b (Zpos m)), e.
    rewrite round_value_cond_Zopp, nearest_canonical by exact V.
    split; [reflexivity|]. split; [exact A|].
    destruct b; cbn; lia.
Qed.

Lemma finite_parts y :
  finite y ->
  finite_or_zero (SF y) /\ valid_binary (SF y) = true /\
  above (-1074) (SF y) /\ SF y <> S754_nan.
Proof.
  intros Fy. pose proof (Prim2SF_valid y) as V.
  split; [|split; [exact V|split; [apply valid_above, V|]]].
  - apply finite_SF in Fy as [[b ->]|(s & m & e & ->)]; exact I.
  - apply is_number_SF, finite_is_number, Fy.
Qed.

(** The step [x + (t - x) * c], for a factor [c] of at most a
    quarter and without overflow, ends between [x] and [t]. *)
Lemma step_between x t c mc ec :
  SF c = S754_finite false mc ec -> Zdigits2 (Zpos mc) = 53 ->
  ec <= 0 -> 4 * Zpos mc <= 2 ^ (- ec) ->
  finite x -> finite t -> finite (t - x)%float -> finite ((t - x) * c)%float ->
  let x' := (x + (t - x) * c)%float in
  (le x t -> le x x' /\ le x' t) /\ (le t x -> le t x' /\ le x' x).
Proof.
  intros Hc Hdig Hec Hquarter Fx Ft Fd Fp x'.
  destruct (finite_parts x Fx) as (Fx' & Vx & Ax & Nx).
  destruct (finite_parts t Ft) as (Ft' & Vt & At' & Nt).
  destruct (finite_parts _ Fd) as (Fd' & Vd & Ad & Nd).
  destruct (finite_parts _ Fp) as (Fp' & Vp & Ap & Np).
  set (E0 := -1074) in *.
  set (K := 2 ^ (- ec)) in *.
  assert (0 < K) as HK by (apply Z.pow_pos_nonneg; lia).
  (* the difference *)
  assert (SF (t - x)%float = SF64add (SF t) (SFopp (SF x))) as HD
    by (rewrite sub_spec; apply SFsub_add_opp).
  pose proof (SFadd_exact_add (SF t) (SFopp (SF x)) Vt
                ltac:(rewrite valid_opp; exact Vx) Ft'
                ltac:(apply finite_or_zero_opp; exact Fx')) as KD.
  rewrite <- HD in KD.
  destruct (exact_add_scaled (SF t) (SFopp (SF x)) E0 At'
              ltac:(destruct (SF x); exact Ax) ltac:(unfold E0; lia))
    as [HED HSD].
  rewrite scaled_value_opp in HSD.
  destruct (key_scaled _ _ E0 KD Nd (round_value_not_nan _ _)) as [EvD FrD].
  destruct (round_value_bound _ _ E0 HED ltac:(unfold E0; lia) (FrD Fd'))
    as [BD1 BD2].
  rewrite <- EvD in BD1, BD2.
  set (vd := scaled_value (SF (t - x)%float) E0) in *.
  set (SD := fst (exact_add (SF t) (SFopp (SF x)))) in *.
  set (ED := snd (exact_add (SF t) (SFopp (SF x)))) in *.
  assert (0 < 2 ^ (ED - E0)) as HpD by (apply Z.pow_pos_nonneg; lia).
  (* the product *)
  pose proof (SFmul_exact_product (SF (t - x)%float) mc ec Hdig Fd') as KP.
  assert (SF ((t - x) * c)%float
          = SF64mul (SF (t - x)%float) (S754_finite false mc ec)) as HP
    by (rewrite mul_spec, Hc; reflexivity).
  rewrite <- HP in KP.
  pose proof (exact_product_scaled (SF (t - x)%float) mc ec E0 Fd' Ad) as HSP.
  set (SP := fst (exact_product mc ec (SF (t - x)%float))) in *.
  set (EP := snd (exact_product mc ec (SF (t - x)%float))) in *.
  assert (E0 + ec <= EP) as HEP.
  { unfold EP. destruct (SF (t - x)%float); cbn in *; unfold E0 in *; lia. }
  destruct (key_scaled _ _ (E0 + ec) KP Np (round_value_not_nan _ _))
    as [EvP FrP].
  destruct (round_value_bound _ _ (E0 + ec) HEP ltac:(unfold E0; lia) (FrP Fp'))
    as [BP1 BP2].
  rewrite <- EvP in BP1, BP2. fold vd in HSP. rewrite HSP in BP1, BP2.
  pose proof (scaled_value_rebase (SF ((t - x) * c)%float) E0 (E0 + ec)
                ltac:(lia) Ap) as HR.
  replace (E0 - (E0 + ec)) with (- ec) in HR by lia. fold K in HR.
  rewrite <- HR in BP1, BP2.
  set (vp := scaled_value (SF ((t - x) * c)%float) E0) in *.
  assert (0 < 2 ^ (EP - (E0 + ec))) as HpP by (apply Z.pow_pos_nonneg; lia).
  (* the sum *)
  pose proof (SFadd_exact_add (SF x) (SF ((t - x) * c)%float) Vx Vp Fx' Fp')
    as KX.
  assert (SF x' = SF64add (SF x) (SF ((t - x) * c)%float)) as HX
    by (unfold x'; apply add_spec).
  rewrite <- HX in KX.
  destruct (exact_add_scaled (SF x) (SF ((t - x) * c)%float) E0 Ax Ap
              ltac:(unfold E0; lia)) as [HEX HSX].
  fold vp in HSX.
  destruct (self_round (SF x) E0 Vx Fx' Ax) as (Sx & Ex & Kx & HEx & HSx).
  destruct (self_round (SF t) E0 Vt Ft' At') as (St & Et & Kt & HEt & HSt).
  assert (is_number x') as Nx'.
  { unfold x'. apply add_is_number_l; [exact Fx|].
    apply finite_is_number, Fp. }
  pose proof (finite_is_number x Fx) as Nnx.
  pose proof (finite_is_number t Ft) as Nnt.
  set (vx := scaled_value (SF x) E0) in *.
  set (vt := scaled_value (SF t) E0) in *.
  split; intros Hle; apply le_key in Hle as (_ & _ & Hk).
  - pose proof (key_le_value _ _ E0 Vx Vt Fx' Ft' Ax At' Hk) as Hv.
    fold vx vt in Hv.
    assert (0 <= SD) as HSD0 by nia.
    assert (0 <= vd <= 2 * (vt - vx)) as Hvd
      by (replace (vt - vx) with (SD * 2 ^ (ED - E0)) by lia; apply BD1, HSD0).
    assert (0 <= SP) as HSP0 by nia.
    assert (0 <= vp * K <= 2 * (Zpos mc * vd)) as Hvp by (apply BP1, HSP0).
    assert (0 <= vp <= vt - vx) as Hp by nia.
    split; apply le_key; (split; [assumption|]); (split; [assumption|]).
    + rewrite Kx, KX. apply (round_value_mono _ _ _ _ E0); try assumption.
      rewrite HSx, HSX. lia.
    + rewrite Kt, KX. apply (round_value_mono _ _ _ _ E0); try assumption.
      rewrite HSt, HSX. lia.
  - pose proof (key_le_value _ _ E0 Vt Vx Ft' Fx' At' Ax Hk) as Hv.
    fold vx vt in Hv.
    assert (SD <= 0) as HSD0 by nia.
    assert (2 * (vt - vx) <= vd <= 0) as Hvd
      by (replace (vt - vx) with (SD * 2 ^ (ED - E0)) by lia; apply BD2, HSD0).
    assert (SP <= 0) as HSP0 by nia.
    assert (2 * (Zpos mc * vd) <= vp * K <= 0) as Hvp by (apply BP2, HSP0).
    assert (vt - vx <= vp <= 0) as Hp by nia.
    split; apply le_key; (split; [assumption|]); (split; [assumption|]).
    + rewrite Kt, KX. apply (round_value_mono _ _ _ _ E0); try assumption.
      rewrite HSt, HSX. lia.
    + rewrite Kx, KX. apply (round_value_mono _ _ _ _ E0); try assumption.
      rewrite HSx, HSX. lia.
Qed.

End ErrorBounds.

(** ** The camera controller: runs, ticks and drags *)

Module OrientationFacts.
Import JS Three MapPortSDK Order Rounding NumberOps Controller Mediator.
Import NumberFacts RoundingFacts MonotoneRounding SumFacts ErrorBounds.
Import ControllerFacts.
Local Open Scope float_scope.

(** X1. On every run of the controller, that is [init] followed by
    pointer, wheel and resize events that carry finite numbers and by
    frame ticks, in any order and number, the latitude is within
    [[-85, 85]] after each event, not only after a tick, and the
    target latitude is a number. *)
Theorem lat_within_bounds_on_every_run
    (sin cos : number -> number) (w h : number) (evs : list event) :
  Forall event_data_finite evs ->
  let s := run sin cos w h evs in
  between (-85) 85 (lat s) /\ is_number (targetLat s) /\
  is_Some (camera s) /\ is_Some (scene s) /\ is_Some (renderer s).
Proof.
  intros Hev s.
  destruct (run_invariant sin cos w h evs Hev) as (Hr & Hl & Ht & _).
  split; [exact Hl|]. split; [exact Ht|]. exact Hr.
Qed.

Lemma lat_within_bounds_on_every_run_witness :
  let s := run (fun x => x) (fun x => x) 800 600 a_session in
  between (-85) 85 (lat s) /\ is_number (targetLat s) /\
  is_Some (camera s) /\ is_Some (scene s) /\ is_Some (renderer s).
Proof.
  apply (lat_within_bounds_on_every_run (fun x => x) (fun x => x) 800 600
           a_session).
  repeat constructor.
Defined.

(** X2. On every such run the field of view is within [[10, 75]] after
    each event. *)
Theorem fov_within_bounds_on_every_run
    (sin cos : number -> number) (w h : number) (evs : list event) :
  Forall event_data_finite evs ->
  exists cam, camera (run sin cos w h evs) = Some cam /\
              between 10 75 (fov cam).
Proof. intros Hev. exact (run_fov_within_bounds sin cos w h evs Hev). Qed.

Lemma fov_within_bounds_on_every_run_witness :
  exists cam,
    camera (run (fun x => x) (fun x => x) 800 600 a_session) = Some cam /\
    between 10 75 (fov cam).
Proof.
  apply (fov_within_bounds_on_every_run (fun x => x) (fun x => x) 800 600
           a_session).
  repeat constructor.
Defined.

(** *** Damping *)

Lemma SF_0_1_normal :
  exists m e, SF 0.1 = S754_finite false m e /\ Zdigits2 (Zpos m) = 53%Z.
Proof. do 2 eexists. vm_compute. split; reflexivity. Qed.

Lemma SF_0_2_normal :
  exists m e, SF 0.2 = S754_finite false m e /\ Zdigits2 (Zpos m) = 53%Z.
Proof. do 2 eexists. vm_compute. split; reflexivity. Qed.

(** The step [x + (target - x) * 0.1] does not go below [x] when the
    target is not below [x], nor above when the target is not above. *)
Lemma damping_up x target :
  finite x -> le x target -> le x (x + (target - x) * 0.1).
Proof.
  intros Fx Hle. destruct SF_0_1_normal as (m & e & Hc & Hd).
  pose proof (sub_mono_l x x target Fx Hle) as H1.
  pose proof (mul_mono _ _ _ _ _ Hc Hd H1) as H2.
  pose proof (add_mono_r x _ _ Fx H2) as H3.
  pose proof (mul_zero_l _ _ _ _ (sub_self x Fx) Hc) as Hz.
  destruct (proj1 (same_le _ _)
              (add_zero_r x _ (finite_is_number x Fx) Hz)) as [_ H4].
  eauto using le_trans.
Qed.

Lemma damping_down x target :
  finite x -> le target x -> le (x + (target - x) * 0.1) x.
Proof.
  intros Fx Hle. destruct SF_0_1_normal as (m & e & Hc & Hd).
  pose proof (sub_mono_l x target x Fx Hle) as H1.
  pose proof (mul_mono _ _ _ _ _ Hc Hd H1) as H2.
  pose proof (add_mono_r x _ _ Fx H2) as H3.
  pose proof (mul_zero_l _ _ _ _ (sub_self x Fx) Hc) as Hz.
  destruct (proj1 (same_le _ _)
              (add_zero_r x _ (finite_is_number x Fx) Hz)) as [H4 _].
  eauto using le_trans.
Qed.

Lemma damping_rest x : finite x -> same (x + (x - x) * 0.1) x.
Proof.
  intros Fx. destruct SF_0_1 as (m & e & Hc).
  apply add_zero_r; [apply finite_is_number, Fx|].
  eapply mul_zero_l; [apply sub_self, Fx | exact Hc].
Qed.

Lemma nonzero_85 b : SF 85 <> S754_zero b.
Proof. intros H. vm_compute in H. discriminate. Qed.

Lemma nonzero_m85 b : SF (-85) <> S754_zero b.
Proof. intros H. vm_compute in H. discriminate. Qed.

Lemma clamp_85_id x : between (-85) 85 x -> clamp x (-85) 85 = x.
Proof. apply clamp_inside; [exact nonzero_m85 | exact nonzero_85]. Qed.

(** X3. A tick never moves the view away from its target: when the
    target is not below the displayed value, the value does not go
    down, and when it is not above, the value does not go up.  This
    holds of the longitude and, within its bounds, of the
    latitude. *)
Theorem tick_moves_towards_target (sin cos : number -> number) (s : t) :
  ready s -> finite (lon s) -> between (-85) 85 (lat s) ->
  let s' := animate sin cos s in
  (le (lon s) (targetLon s) -> le (lon s) (lon s')) /\
  (le (targetLon s) (lon s) -> le (lon s') (lon s)) /\
  (le (lat s) (targetLat s) -> le (lat s) (lat s')) /\
  (le (targetLat s) (lat s) -> le (lat s') (lat s)).
Proof.
  intros Hr Flon Hlat s'.
  destruct (ready_unfold s Hr) as (cam & sc & rd & Hc & Hs & Hrd).
  unfold s'. rewrite (animate_ready _ _ _ _ _ _ Hc Hs Hrd). cbn.
  pose proof (between_85_finite _ Hlat) as Flat.
  split; [apply damping_up, Flon|]. split; [apply damping_down, Flon|].
  split; intros Hle.
  - pose proof (clamp_mono _ _ (-85) 85 le_85
                  (damping_up (lat s) (targetLat s) Flat Hle)) as H.
    rewrite (clamp_85_id _ Hlat) in H. exact H.
  - pose proof (clamp_mono _ _ (-85) 85 le_85
                  (damping_down (lat s) (targetLat s) Flat Hle)) as H.
    rewrite (clamp_85_id _ Hlat) in H. exact H.
Qed.

Lemma tick_moves_towards_target_witness :
  le (lat far_target) (lat (animate (fun x => x) (fun x => x) far_target)).
Proof.
  destruct (tick_moves_towards_target (fun x => x) (fun x => x) far_target)
    as (_ & _ & H & _).
  - repeat split; eexists; reflexivity.
  - reflexivity.
  - split; reflexivity.
  - apply H. reflexivity.
Defined.

(** X4. At rest the view stays at rest: when the displayed longitude and
    latitude are their targets, a tick leaves both as they are. *)
Theorem tick_at_rest (sin cos : number -> number) (s : t) :
  ready s -> finite (lon s) -> between (-85) 85 (lat s) ->
  targetLon s = lon s -> targetLat s = lat s ->
  let s' := animate sin cos s in
  same (lon s') (lon s) /\ same (lat s') (lat s).
Proof.
  intros Hr Flon Hlat Elon Elat s'.
  destruct (ready_unfold s Hr) as (cam & sc & rd & Hc & Hs & Hrd).
  unfold s'. rewrite (animate_ready _ _ _ _ _ _ Hc Hs Hrd). cbn.
  rewrite Elon, Elat.
  pose proof (between_85_finite _ Hlat) as Flat.
  split; [apply damping_rest, Flon|].
  pose proof (damping_rest (lat s) Flat) as Hsame.
  destruct (proj1 (same_le _ _) Hsame) as [H1 H2].
  destruct Hlat as [Hlo Hhi].
  rewrite clamp_85_id; [exact Hsame|].
  split; eauto using le_trans.
Qed.

Lemma tick_at_rest_witness :
  let s' := animate (fun x => x) (fun x => x) idle in
  same (lon s') (lon idle) /\ same (lat s') (lat idle).
Proof.
  apply (tick_at_rest (fun x => x) (fun x => x) idle).
  - repeat split; eexists; reflexivity.
  - reflexivity.
  - split; reflexivity.
  - reflexivity.
  - reflexivity.
Defined.

(** *** No overshoot *)

Lemma SF_0_1_quarter :
  exists m e, SF 0.1 = S754_finite false m e /\ Zdigits2 (Zpos m) = 53%Z /\
              (e <= 0)%Z /\ (4 * Zpos m <= 2 ^ (- e))%Z.
Proof.
  do 2 eexists. split; [vm_compute; reflexivity|].
  split; [reflexivity|]. split; [lia|]. vm_compute. discriminate.
Qed.

Lemma finite_between_max d :
  finite d -> between (-0x1.fffffffffffffp+1023) 0x1.fffffffffffffp+1023 d.
Proof.
  intros Fd. destruct (finite_parts d Fd) as (F & V & _ & N).
  unfold between. rewrite !le_key.
  change (key (SF 0x1.fffffffffffffp+1023))
    with (1, 971, 9007199254740991)%Z.
  change (key (SF (-0x1.fffffffffffffp+1023)))
    with (-1, -971, -9007199254740991)%Z.
  pose proof (finite_is_number d Fd) as Nd.
  assert (key_le (-1, -971, -9007199254740991)%Z (key (SF d)) /\
          key_le (key (SF d)) (1, 971, 9007199254740991)%Z) as [H1 H2].
  { destruct (SF d) as [b|b| |b m e]; try contradiction; [cbn; lia|].
    destruct (bounded_mantissa m e V) as (Hm & _ & _).
    apply bounded_spec in V as [_ He].
    change (2 ^ 53)%Z with 9007199254740992%Z in Hm.
    destruct b; cbn; lia. }
  split; (split; [first [reflexivity | exact Nd]|]);
    (split; [first [reflexivity | exact Nd]|]); assumption.
Qed.

Lemma tenth_finite d : finite d -> finite (d * 0.1).
Proof.
  intros Fd. destruct (finite_between_max d Fd) as [Hlo Hhi].
  destruct SF_0_1_normal as (m & e & Hc & Hd).
  apply (between_finite ((-0x1.fffffffffffffp+1023) * 0.1)
                        (0x1.fffffffffffffp+1023 * 0.1));
    [reflexivity | reflexivity |].
  split; apply (mul_mono _ _ _ _ _ Hc Hd); assumption.
Qed.

Lemma lat_difference_finite x target :
  between (-85) 85 x -> finite target -> finite (target - x).
Proof.
  intros [Hlo Hhi] Ft. pose proof (between_85_finite x (conj Hlo Hhi)) as Fx.
  destruct (finite_between_max target Ft) as [Tlo Thi].
  apply (between_finite ((-0x1.fffffffffffffp+1023) - 85)
                        (0x1.fffffffffffffp+1023 - (-85)));
    [reflexivity | reflexivity |].
  split.
  - eapply le_trans; [|apply (sub_mono_l x _ _ Fx Tlo)].
    apply sub_mono_r; [reflexivity | exact Hhi].
  - eapply le_trans; [apply (sub_mono_l x _ _ Fx Thi)|].
    apply sub_mono_r; [reflexivity | exact Hlo].
Qed.

Lemma damping_between x target :
  finite x -> finite target -> finite (target - x) ->
  (le x target -> le (x + (target - x) * 0.1) target) /\
  (le target x -> le target (x + (target - x) * 0.1)).
Proof.
  intros Fx Ft Fd.
  destruct SF_0_1_quarter as (m & e & Hc & Hd & He & Hq).
  destruct (step_between x target 0.1 m e Hc Hd He Hq Fx Ft Fd
              (tenth_finite _ Fd)) as [Hup Hdown].
  split; intros Hle; [apply Hup, Hle | apply Hdown, Hle].
Qed.

Lemma number_cases t :
  is_number t -> finite t \/ SF t = S754_infinity false \/ SF t = S754_infinity true.
Proof.
  intros N. rewrite finite_SF. apply is_number_SF in N.
  destruct (SF t) as [b|[]| |b m e]; try congruence; eauto 8.
Qed.

Lemma le_infinity x t :
  is_number x -> SF t = S754_infinity false -> le x t.
Proof.
  intros Nx Ht. apply le_key. split; [exact Nx|].
  split; [apply is_number_SF; rewrite Ht; discriminate|].
  rewrite Ht. apply key_bounds, is_number_SF, Nx.
Qed.

Lemma infinity_le x t :
  is_number x -> SF t = S754_infinity true -> le t x.
Proof.
  intros Nx Ht. apply le_key.
  split; [apply is_number_SF; rewrite Ht; discriminate|].
  split; [exact Nx|].
  rewrite Ht. apply key_bounds, is_number_SF, Nx.
Qed.

Lemma finite_not_infinite x t b :
  finite x -> SF t = S754_infinity b ->
  (b = false -> ~ le t x) /\ (b = true -> ~ le x t).
Proof.
  intros Fx Ht. destruct (finite_parts x Fx) as (F & _ & _ & _).
  split; intros -> Hle; apply le_key in Hle as (_ & _ & Hk);
    rewrite Ht in Hk; destruct (SF x) as [?|?| |[] ? ?]; try contradiction;
    cbn in Hk; lia.
Qed.

(** The damped latitude, clamped, does not pass its target. *)
Lemma clamped_damping_between x target :
  between (-85) 85 x -> is_number target ->
  let v := clamp (x + (target - x) * 0.1) (-85) 85 in
  (le x target -> le v target) /\ (le target x -> le target v).
Proof.
  intros Hx Nt v. pose proof (between_85_finite x Hx) as Fx.
  assert (between (-85) 85 v) as [Vlo Vhi].
  { apply clamp_between; [|exact le_85]. apply damping_is_number; assumption. }
  pose proof (le_is_number_r _ _ Vlo) as Nv.
  destruct Hx as [Xlo Xhi].
  destruct (number_cases target Nt) as [Ft|[Hinf|Hinf]].
  - pose proof (lat_difference_finite x target (conj Xlo Xhi) Ft) as Fd.
    destruct (damping_between x target Fx Ft Fd) as [Hup Hdown].
    pose proof (finite_is_number _ Ft) as Nt'.
    split; intros Hle.
    + destruct (85 <? target) eqn:E85.
      * eapply le_trans; [exact Vhi | apply lt_le, E85].
      * assert (le target 85) as T85
          by (apply not_lt_le; [reflexivity | exact Nt | exact E85]).
        rewrite <- (clamp_85_id target); [|split; eauto using le_trans].
        apply clamp_mono; [exact le_85 | apply Hup, Hle].
    + destruct (target <? -85) eqn:E85.
      * eapply le_trans; [apply lt_le, E85 | exact Vlo].
      * assert (le (-85) target) as T85
          by (apply not_lt_le; [exact Nt | reflexivity | exact E85]).
        rewrite <- (clamp_85_id target) at 1; [|split; eauto using le_trans].
        apply clamp_mono; [exact le_85 | apply Hdown, Hle].
  - split; intros Hle; [apply le_infinity; assumption|].
    exfalso. exact (proj1 (finite_not_infinite x target false Fx Hinf) eq_refl Hle).
  - split; intros Hle; [|apply infinity_le; assumption].
    exfalso. exact (proj2 (finite_not_infinite x target true Fx Hinf) eq_refl Hle).
Qed.

(** X5. A tick does not carry the view past its target: when the
    target latitude is not below the displayed one, the new latitude
    is not above the target, and conversely; the same holds of the
    longitude, provided the longitude, its target and their
    difference are finite. *)
Theorem tick_never_overshoots (sin cos : number -> number) (s : t) :
  ready s -> between (-85) 85 (lat s) -> is_number (targetLat s) ->
  finite (lon s) -> finite (targetLon s) -> finite (targetLon s - lon s) ->
  let s' := animate sin cos s in
  (le (lat s) (targetLat s) -> le (lat s') (targetLat s)) /\
  (le (targetLat s) (lat s) -> le (targetLat s) (lat s')) /\
  (le (lon s) (targetLon s) -> le (lon s') (targetLon s)) /\
  (le (targetLon s) (lon s) -> le (targetLon s) (lon s')).
Proof.
  intros Hr Hlat Nt Flon Ftlon Fd s'.
  destruct (ready_unfold s Hr) as (cam & sc & rd & Hc & Hs & Hrd).
  unfold s'. rewrite (animate_ready _ _ _ _ _ _ Hc Hs Hrd). cbn.
  destruct (clamped_damping_between (lat s) (targetLat s) Hlat Nt) as [H1 H2].
  destruct (damping_between (lon s) (targetLon s) Flon Ftlon Fd) as [H3 H4].
  auto.
Qed.

Lemma tick_never_overshoots_witness :
  let s' := animate (fun x => x) (fun x => x) far_target in
  le (lat s') (targetLat far_target) /\ le (lon s') (targetLon far_target).
Proof.
  destruct (tick_never_overshoots (fun x => x) (fun x => x) far_target)
    as (H1 & _ & H3 & _).
  - repeat split; eexists; reflexivity.
  - split; reflexivity.
  - reflexivity.
  - reflexivity.
  - reflexivity.
  - reflexivity.
  - split; [apply H1 | apply H3]; reflexivity.
Defined.

(** *** The polar angle *)

Lemma SF_DEG2RAD_normal :
  exists m e, SF DEG2RAD = S754_finite false m e /\ Zdigits2 (Zpos m) = 53%Z.
Proof. do 2 eexists. vm_compute. split; reflexivity. Qed.

Lemma finite_90 : finite 90.
Proof. reflexivity. Qed.

(** X6. After a tick the polar angle [phi] lies between [degToRad(5)]
    and [degToRad(175)], strictly inside the interval from 0 to
    [Math.PI]: the camera never looks straight up or down. *)
Theorem tick_keeps_phi_off_the_poles (sin cos : number -> number) (s : t) :
  ready s -> finite (lat s) -> is_number (targetLat s) ->
  let s' := animate sin cos s in
  between (degToRad 5) (degToRad 175) (phi s') /\
  lt 0 (phi s') /\ lt (phi s') Math_PI.
Proof.
  intros Hr Flat Nt s'.
  destruct (animate_tick sin cos s Hr Flat Nt) as ([Hlo Hhi] & Hphi & _).
  fold s' in Hlo, Hhi, Hphi. rewrite Hphi.
  destruct SF_DEG2RAD_normal as (m & e & Hc & Hd).
  assert (between (degToRad 5) (degToRad 175) (degToRad (90 - lat s'))) as Hb.
  { unfold degToRad. split.
    - apply (mul_mono _ _ _ _ _ Hc Hd).
      exact (sub_mono_r 90 _ _ finite_90 Hhi).
    - apply (mul_mono _ _ _ _ _ Hc Hd).
      exact (sub_mono_r 90 _ _ finite_90 Hlo). }
  split; [exact Hb|]. destruct Hb as [H5 H175]. split.
  - eapply lt_le_trans; [|exact H5]. reflexivity.
  - eapply le_lt_trans; [exact H175|]. reflexivity.
Qed.

Lemma tick_keeps_phi_off_the_poles_witness :
  let s' := animate (fun x => x) (fun x => x) far_target in
  between (degToRad 5) (degToRad 175) (phi s') /\
  lt 0 (phi s') /\ lt (phi s') Math_PI.
Proof.
  apply (tick_keeps_phi_off_the_poles (fun x => x) (fun x => x) far_target).
  - repeat split; eexists; reflexivity.
  - reflexivity.
  - reflexivity.
Defined.

(** *** Drags *)

(** X7. Pointer moves do not add up: after two moves the controller is
    where the second one alone would have brought it. *)
Theorem last_pointer_position_wins (s : t) (e1 e2 : PointerEvent) :
  isPrimary e2 = true ->
  onMouseMove e2 (onMouseMove e1 s) = onMouseMove e2 s.
Proof.
  intros H2. unfold onMouseMove. rewrite H2.
  destruct (isPrimary e1), (isUserInteracting s) eqn:Hi; cbn;
    rewrite ?Hi; reflexivity.
Qed.

Lemma last_pointer_position_wins_witness :
  onMouseMove (pointer true 300 300) (onMouseMove (pointer true 350 200) dragging)
  = onMouseMove (pointer true 300 300) dragging.
Proof.
  apply (last_pointer_position_wins dragging (pointer true 350 200)
           (pointer true 300 300)).
  reflexivity.
Defined.

(** X8. A drag is anchored at the orientation displayed when the pointer
    went down, not at the targets: a press followed by a move to the
    same point sets the targets to the displayed longitude and
    latitude. *)
Theorem drag_anchors_at_displayed_orientation (s : t) (down move : PointerEvent) :
  isPrimary down = true -> isPrimary move = true ->
  finite (clientX down) -> finite (clientY down) ->
  clientX move = clientX down -> clientY move = clientY down ->
  is_number (lon s) -> is_number (lat s) ->
  let s' := onMouseMove move (onMouseDown down s) in
  same (targetLon s') (lon s) /\ same (targetLat s') (lat s) /\
  lon s' = lon s /\ lat s' = lat s.
Proof.
  intros Hd Hm Fx Fy Ex Ey Nlon Nlat s'.
  unfold s', onMouseMove, onMouseDown. rewrite Hd, Hm. cbn.
  rewrite Ex, Ey. destruct SF_0_2 as (m & e & Hc).
  split; [|split; [|split; reflexivity]].
  - apply add_zero_l; [exact Nlon|].
    eapply mul_zero_l; [apply sub_self, Fx | exact Hc].
  - apply add_zero_l; [exact Nlat|].
    eapply mul_zero_l; [apply sub_self, Fy | exact Hc].
Qed.

Lemma drag_anchors_at_displayed_orientation_witness :
  let s' := onMouseMove (pointer true 10 20) (onMouseDown (pointer true 10 20) far_target) in
  same (targetLon s') (lon far_target) /\ same (targetLat s') (lat far_target) /\
  lon s' = lon far_target /\ lat s' = lat far_target.
Proof.
  apply (drag_anchors_at_displayed_orientation far_target
           (pointer true 10 20) (pointer true 10 20));
    reflexivity.
Defined.

End OrientationFacts.

(** ** The scene mediator and the view *)

Module SceneFacts.
Import JS Three MapPortSDK Order Controller Mediator.
Import NumberFacts RoundingFacts ControllerFacts.
Local Open Scope float_scope.

Lemma meshes_call s c sc :
  scene s = Some sc ->
  exists sc', scene (call_method s c) = Some sc' /\
    children sc' =
      match c with
      | AddScene m => remove_first m (children sc) ++ [m]
      | RemoveMesh m => remove_first m (children sc)
      | UpdateScene a b => remove_first b (remove_first a (children sc)) ++ [b]
      end.
Proof.
  intros Hs. destruct c as [m|m|a b]; cbn [call_method].
  - unfold addScene. rewrite Hs. eexists. split; reflexivity.
  - unfold removeMesh. rewrite Hs. eexists. split; reflexivity.
  - rewrite (updateScene_unfold _ _ _ _ Hs). eexists. split; reflexivity.
Qed.

Lemma elem_of_remove_first m x l :
  NoDup l -> x ∈ remove_first m l <-> x <> m /\ x ∈ l.
Proof.
  intros Hnd. destruct (remove_first_NoDup m l Hnd) as [_ Hm]. split.
  - intros Hx. split; [congruence | eapply remove_first_elem_of, Hx].
  - intros [Hne Hx]. apply remove_first_other; assumption.
Qed.

Lemma call_method_set s c sc (X : gset Mesh) :
  scene s = Some sc -> NoDup (children sc) ->
  (forall x, x ∈ children sc <-> x ∈ X) ->
  exists sc', scene (call_method s c) = Some sc' /\ NoDup (children sc') /\
    (forall x, x ∈ children sc' <-> x ∈ as_set_operation X c).
Proof.
  intros Hs Hnd HX. destruct (meshes_call s c sc Hs) as (sc' & Hs' & Hch).
  exists sc'. split; [exact Hs'|]. rewrite Hch. clear Hs' Hch.
  destruct c as [m|m|a b]; cbn [as_set_operation].
  - split; [apply (Scene_add_NoDup m sc Hnd)|].
    intros x. rewrite elem_of_app, elem_of_remove_first by assumption.
    rewrite list_elem_of_singleton, HX, elem_of_union, elem_of_singleton.
    destruct (decide (x = m)); tauto.
  - split; [apply remove_first_NoDup, Hnd|].
    intros x. rewrite elem_of_remove_first by assumption.
    rewrite HX, elem_of_difference, elem_of_singleton. tauto.
  - pose proof (proj1 (remove_first_NoDup a _ Hnd)) as Hnd'.
    split.
    { apply (Scene_add_NoDup b {| children := remove_first a (children sc) |}).
      exact Hnd'. }
    intros x. rewrite elem_of_app, !elem_of_remove_first by assumption.
    rewrite list_elem_of_singleton, HX, elem_of_union, elem_of_difference,
      !elem_of_singleton.
    destruct (decide (x = b)); tauto.
Qed.

Lemma calls_keep_a_set w h calls :
  let s := fold_left call_method calls (init (new w h)) in
  NoDup (meshes s) /\
  forall x, x ∈ meshes s <-> x ∈ fold_left as_set_operation calls ∅.
Proof.
  intros s.
  assert (exists sc, scene s = Some sc /\ NoDup (children sc) /\
            forall x, x ∈ children sc <-> x ∈ fold_left as_set_operation calls ∅)
    as (sc & Hs & Hnd & HX).
  { unfold s.
    assert (exists sc, scene (init (new w h)) = Some sc /\ NoDup (children sc) /\
              forall x, x ∈ children sc <-> x ∈ (∅ : gset Mesh)) as H0.
    { eexists. split; [reflexivity|]. split; [constructor|].
      intros x. cbn. rewrite elem_of_nil, elem_of_empty. tauto. }
    revert H0. generalize (init (new w h)) as s0. generalize (∅ : gset Mesh) as X.
    induction calls as [|c calls IH]; intros X s0 H0; [exact H0|].
    cbn [fold_left]. apply IH.
    destruct H0 as (sc & Hs & Hnd & HX).
    exact (call_method_set s0 c sc X Hs Hnd HX). }
  unfold meshes. rewrite Hs. split; assumption.
Qed.

(** X9. After [init], the three scene methods keep a set of meshes: after
    any sequence of calls of [addScene], [removeMesh] and
    [updateScene] no mesh is in the scene twice, and the meshes in it
    are those of the set obtained by reading [addScene] as an
    insertion, [removeMesh] as a removal and [updateScene(a, b)] as
    the removal of [a] followed by the insertion of [b]. *)
Theorem scene_methods_keep_a_set (w h : number) (calls : list mesh_call) :
  let s := fold_left call_method calls (init (new w h)) in
  NoDup (meshes s) /\
  forall x, x ∈ meshes s <-> x ∈ fold_left as_set_operation calls ∅.
Proof.
  intros s. destruct (calls_keep_a_set w h calls) as [Hnd Hx].
  split; [exact Hnd | exact Hx].
Qed.

(** X10. Before [init] the scene methods do nothing, and [init] starts
    from an empty scene: meshes handed over before [init] are not
    shown. *)
Theorem meshes_before_init_are_dropped (w h : number) (calls : list mesh_call) :
  fold_left call_method calls (new w h) = new w h /\
  meshes (init (fold_left call_method calls (new w h))) = [].
Proof.
  assert (fold_left call_method calls (new w h) = new w h) as H.
  { induction calls as [|c calls IH]; [reflexivity|].
    cbn [fold_left].
    assert (call_method (new w h) c = new w h) as ->
      by (destruct c; reflexivity).
    exact IH. }
  rewrite H. split; reflexivity.
Qed.

Lemma with_scene_dispatch sin cos s ev (f : Scene -> Scene) :
  dispatch sin cos
    (match scene s with Some sc => with_scene (Some (f sc)) s | None => s end) ev
  = match scene (dispatch sin cos s ev) with
    | Some sc => with_scene (Some (f sc)) (dispatch sin cos s ev)
    | None => dispatch sin cos s ev
    end.
Proof.
  destruct ev as [e|e|e|e|w h|]; cbn [dispatch].
  - unfold onMouseDown.
    destruct (scene s) eqn:Hs; destruct (isPrimary e); cbn;
      rewrite ?Hs; reflexivity.
  - unfold onMouseMove.
    destruct (scene s) eqn:Hs; cbn;
      destruct (negb (isPrimary e) || negb (isUserInteracting s));
      cbn; rewrite ?Hs; reflexivity.
  - unfold onMouseUp.
    destruct (scene s) eqn:Hs; destruct (isPrimary e); cbn;
      rewrite ?Hs; reflexivity.
  - unfold onDocumentMouseWheel.
    destruct (scene s) eqn:Hs; cbn; destruct (camera s); cbn;
      rewrite ?Hs; reflexivity.
  - unfold onWindowResize.
    destruct (scene s) eqn:Hs; cbn; destruct (camera s); cbn;
      rewrite ?Hs; reflexivity.
  - unfold animate.
    destruct (scene s) eqn:Hs; cbn; destruct (camera s); cbn;
      rewrite ?Hs; try reflexivity;
      destruct (renderer s); cbn; rewrite ?Hs; reflexivity.
Qed.

Lemma call_method_dispatch sin cos s c ev :
  dispatch sin cos (call_method s c) ev = call_method (dispatch sin cos s ev) c.
Proof.
  destruct c as [m|m|a b]; cbn [call_method].
  - apply (with_scene_dispatch sin cos s ev (Scene_add m)).
  - apply (with_scene_dispatch sin cos s ev (Scene_remove m)).
  - unfold updateScene, updateScene_add.
    rewrite (with_scene_dispatch sin cos _ ev (Scene_add b)).
    unfold updateScene_remove.
    rewrite (with_scene_dispatch sin cos s ev (Scene_remove a)).
    reflexivity.
Qed.

(** X11. The scene methods and the handling of events do not interfere: a
    call of [addScene], [removeMesh] or [updateScene] made before a
    sequence of pointer, wheel and resize events and frame ticks
    leaves the controller as the same call made after it. *)
Theorem scene_methods_commute_with_events
    (sin cos : number -> number) (s : t) (c : mesh_call) (evs : list event) :
  fold_left (dispatch sin cos) evs (call_method s c)
  = call_method (fold_left (dispatch sin cos) evs s) c.
Proof.
  revert s. induction evs as [|ev evs IH]; intros s; [reflexivity|].
  cbn [fold_left]. rewrite call_method_dispatch. apply IH.
Qed.

Lemma dispatch_projection sin cos s ev cam rd :
  camera s = Some cam -> renderer s = Some rd ->
  aspect cam = width rd / height rd -> near cam = 1 -> far cam = 1100 ->
  exists cam' rd',
    camera (dispatch sin cos s ev) = Some cam' /\
    renderer (dispatch sin cos s ev) = Some rd' /\
    aspect cam' = width rd' / height rd' /\ near cam' = 1 /\ far cam' = 1100.
Proof.
  intros Hc Hr Ha Hn Hf.
  destruct ev as [e|e|e|e|w h|]; cbn [dispatch].
  - unfold onMouseDown. destruct (isPrimary e); cbn; eauto 10.
  - unfold onMouseMove.
    destruct (negb (isPrimary e) || negb (isUserInteracting s)); cbn; eauto 10.
  - unfold onMouseUp. destruct (isPrimary e); cbn; eauto 10.
  - unfold onDocumentMouseWheel. rewrite Hc. cbn. eauto 10.
  - unfold onWindowResize. cbn. rewrite Hc, Hr. cbn. eauto 10.
  - unfold animate. rewrite Hc, Hr. destruct (scene s); cbn; eauto 10.
Qed.

Lemma run_projection sin cos w h evs :
  exists cam rd,
    camera (run sin cos w h evs) = Some cam /\
    renderer (run sin cos w h evs) = Some rd /\
    aspect cam = width rd / height rd /\ near cam = 1 /\ far cam = 1100.
Proof.
  unfold run.
  assert (exists cam rd,
            camera (init (new w h)) = Some cam /\
            renderer (init (new w h)) = Some rd /\
            aspect cam = width rd / height rd /\ near cam = 1 /\ far cam = 1100)
    as H0 by (do 2 eexists; repeat split; reflexivity).
  revert H0. generalize (init (new w h)) as s.
  induction evs as [|ev evs IH]; intros s H0; [exact H0|].
  cbn [fold_left]. apply IH.
  destruct H0 as (cam & rd & Hc & Hr & Ha & Hn & Hf).
  exact (dispatch_projection sin cos s ev cam rd Hc Hr Ha Hn Hf).
Qed.

(** X12. On every run the camera's aspect ratio is the width of the
    renderer divided by its height, and the near and far planes stay
    at 1 and 1100: only [init] and the resize handler set the aspect
    and the size, and they set them together. *)
Theorem aspect_matches_renderer_on_every_run
    (sin cos : number -> number) (w h : number) (evs : list event) :
  exists cam rd,
    camera (run sin cos w h evs) = Some cam /\
    renderer (run sin cos w h evs) = Some rd /\
    aspect cam = width rd / height rd /\ near cam = 1 /\ far cam = 1100.
Proof.
  destruct (run_projection sin cos w h evs) as (cam & rd & H).
  exists cam, rd. exact H.
Qed.

Lemma div_by_zero w :
  finite w -> lt 0 w -> w / 0 = infinity.
Proof.
  intros Fw Hw. apply Prim2SF_inj. rewrite div_spec.
  apply lt_key in Hw as (_ & _ & Hk). apply finite_SF in Fw.
  change (key (SF 0)) with (0, 0, 0)%Z in Hk.
  destruct Fw as [[b E]|(s & m & e & E)]; rewrite E in *.
  - cbn in Hk. lia.
  - destruct s; [cbn in Hk; lia|]. reflexivity.
Qed.

(** X13. Neither [init] nor the resize handler guards against a container
    without height: with a width that is finite and positive and a
    height of 0, the aspect ratio of the camera becomes [Infinity]. *)
Theorem aspect_of_a_container_without_height
    (sin cos : number -> number) (w w' h' : number) (evs : list event) :
  finite w -> lt 0 w ->
  (exists cam, camera (init (new w 0)) = Some cam /\ aspect cam = infinity) /\
  (exists cam,
     camera (dispatch sin cos (run sin cos w' h' evs) (Resize w 0)) = Some cam /\
     aspect cam = infinity).
Proof.
  intros Fw Hw. split.
  - eexists. split; [reflexivity|]. cbn. apply div_by_zero; assumption.
  - destruct (run_projection sin cos w' h' evs) as (cam & rd & Hc & Hr & _).
    cbn [dispatch]. unfold onWindowResize. cbn. rewrite Hc, Hr. cbn.
    eexists. split; [reflexivity|]. cbn. apply div_by_zero; assumption.
Qed.

Lemma aspect_of_a_container_without_height_witness :
  (exists cam, camera (init (new 800 0)) = Some cam /\ aspect cam = infinity) /\
  (exists cam,
     camera (dispatch (fun x => x) (fun x => x)
               (run (fun x => x) (fun x => x) 800 600 a_session) (Resize 800 0))
     = Some cam /\
     aspect cam = infinity).
Proof.
  apply (aspect_of_a_container_without_height (fun x => x) (fun x => x)
           800 800 600 a_session); reflexivity.
Defined.

End SceneFacts.

(** ** Which events matter to what *)

Module EventFacts.
Import JS Three MapPortSDK Controller Mediator ControllerFacts.
Local Open Scope float_scope.

(** X14. The events of pointers that are not the primary one change
    nothing: leaving them out of a sequence of events gives the same
    controller state. *)
Theorem other_pointers_are_ignored
    (sin cos : number -> number) (s : t) (evs : list event) :
  fold_left (dispatch sin cos) (List.filter of_primary_pointer evs) s
  = fold_left (dispatch sin cos) evs s.
Proof.
  revert s. induction evs as [|ev evs IH]; intros s; [reflexivity|].
  cbn [List.filter fold_left].
  destruct (of_primary_pointer ev) eqn:Hp; cbn [fold_left]; [apply IH|].
  rewrite IH. f_equal.
  destruct ev as [e|e|e|e|w h|]; cbn in Hp; try discriminate;
    cbn [dispatch]; unfold onMouseDown, onMouseMove, onMouseUp;
    rewrite Hp; reflexivity.
Qed.

Lemma ready_dispatch sin cos s ev : ready s -> ready (dispatch sin cos s ev).
Proof.
  intros Hr. destruct (ready_unfold s Hr) as (cam & sc & rd & Hc & Hs & Hrd).
  destruct ev as [e|e|e|e|w h|]; cbn [dispatch].
  - unfold onMouseDown. destruct (isPrimary e); [|exact Hr].
    unfold ready. cbn. rewrite Hc, Hs, Hrd. repeat split; eauto.
  - unfold onMouseMove.
    destruct (negb (isPrimary e) || negb (isUserInteracting s)); [exact Hr|].
    unfold ready. cbn. rewrite Hc, Hs, Hrd. repeat split; eauto.
  - unfold onMouseUp. destruct (isPrimary e); [|exact Hr].
    unfold ready. cbn. rewrite Hc, Hs, Hrd. repeat split; eauto.
  - unfold onDocumentMouseWheel. rewrite Hc.
    unfold ready. cbn. rewrite Hs, Hrd. repeat split; eauto.
  - unfold onWindowResize, ready. cbn. rewrite Hc. cbn. rewrite Hs, Hrd.
    repeat split; eauto.
  - rewrite (animate_ready _ _ _ _ _ _ Hc Hs Hrd). unfold ready. cbn.
    repeat split; eauto.
Qed.

Lemma orientation_view_event sin cos s ev :
  is_wheel_or_resize ev = true ->
  orientation (dispatch sin cos s ev) = orientation s.
Proof.
  destruct ev as [e|e|e|e|w h|]; try discriminate; intros _; cbn [dispatch].
  - unfold onDocumentMouseWheel. destruct (camera s); reflexivity.
  - unfold onWindowResize. cbn. destruct (camera s); reflexivity.
Qed.

Lemma orientation_dispatch sin cos s1 s2 ev :
  ready s1 -> ready s2 -> orientation s1 = orientation s2 ->
  orientation (dispatch sin cos s1 ev) = orientation (dispatch sin cos s2 ev).
Proof.
  intros R1 R2 Ho.
  destruct (ready_unfold s1 R1) as (cam1 & sc1 & rd1 & Hc1 & Hs1 & Hr1).
  destruct (ready_unfold s2 R2) as (cam2 & sc2 & rd2 & Hc2 & Hs2 & Hr2).
  unfold orientation in Ho.
  injection Ho as Hi Hx Hy Hlon Htlon Hmlon Hlat Htlat Hmlat Hphi Htheta.
  destruct ev as [e|e|e|e|w h|].
  - cbn [dispatch]. unfold onMouseDown.
    destruct (isPrimary e); unfold orientation; cbn; congruence.
  - cbn [dispatch]. unfold onMouseMove. rewrite Hi.
    destruct (negb (isPrimary e) || negb (isUserInteracting s2));
      unfold orientation; cbn; congruence.
  - cbn [dispatch]. unfold onMouseUp.
    destruct (isPrimary e); unfold orientation; cbn; congruence.
  - rewrite !orientation_view_event by reflexivity.
    unfold orientation. congruence.
  - rewrite !orientation_view_event by reflexivity.
    unfold orientation. congruence.
  - cbn [dispatch]. rewrite (animate_ready _ _ _ _ _ _ Hc1 Hs1 Hr1).
    rewrite (animate_ready _ _ _ _ _ _ Hc2 Hs2 Hr2).
    unfold orientation. cbn. congruence.
Qed.

Lemma field_of_view_dispatch sin cos s1 s2 ev :
  field_of_view s1 = field_of_view s2 ->
  field_of_view (dispatch sin cos s1 ev) =
    if is_wheel ev then field_of_view (dispatch sin cos s2 ev)
    else field_of_view s2.
Proof.
  unfold field_of_view. intros Hf.
  destruct ev as [e|e|e|e|w h|]; cbn [dispatch is_wheel].
  - unfold onMouseDown. destruct (isPrimary e); cbn; exact Hf.
  - unfold onMouseMove.
    destruct (negb (isPrimary e) || negb (isUserInteracting s1)); cbn; exact Hf.
  - unfold onMouseUp. destruct (isPrimary e); cbn; exact Hf.
  - unfold onDocumentMouseWheel.
    destruct (camera s1) as [c1|] eqn:E1, (camera s2) as [c2|] eqn:E2;
      cbn in Hf; try discriminate Hf; cbn.
    + injection Hf as ->. reflexivity.
    + rewrite E1, E2. reflexivity.
  - unfold onWindowResize. cbn.
    destruct (camera s1) as [c1|] eqn:E1; cbn; [exact Hf|].
    rewrite E1. exact Hf.
  - unfold animate.
    destruct (camera s1) as [c1|] eqn:E1; [|rewrite E1; exact Hf].
    destruct (scene s1); [|rewrite E1; exact Hf].
    destruct (renderer s1); [|rewrite E1; exact Hf]. cbn. exact Hf.
Qed.

(** X15. Zooming and turning are independent: on every run the
    orientation and the drag session are those of the run without its
    wheel and resize events, and the field of view is that of the run
    reduced to its wheel events. *)
Theorem zoom_and_orientation_are_independent
    (sin cos : number -> number) (w h : number) (evs : list event) :
  orientation (run sin cos w h evs)
  = orientation (run sin cos w h
                   (List.filter (fun ev => negb (is_wheel_or_resize ev)) evs)) /\
  field_of_view (run sin cos w h evs)
  = field_of_view (run sin cos w h (List.filter is_wheel evs)).
Proof.
  unfold run. split.
  - assert (forall s1 s2, ready s1 -> ready s2 -> orientation s1 = orientation s2 ->
              orientation (fold_left (dispatch sin cos) evs s1)
              = orientation
                  (fold_left (dispatch sin cos)
                     (List.filter (fun ev => negb (is_wheel_or_resize ev)) evs) s2))
      as H.
    { induction evs as [|ev evs IH]; intros s1 s2 R1 R2 Ho; [exact Ho|].
      cbn [List.filter fold_left].
      destruct (is_wheel_or_resize ev) eqn:Hv; cbn [negb fold_left].
      - apply IH; [apply ready_dispatch, R1 | exact R2 |].
        rewrite orientation_view_event by exact Hv. exact Ho.
      - apply IH; [apply ready_dispatch, R1 | apply ready_dispatch, R2 |].
        apply orientation_dispatch; assumption. }
    apply H; [apply init_ready | apply init_ready | reflexivity].
  - assert (forall s1 s2, field_of_view s1 = field_of_view s2 ->
              field_of_view (fold_left (dispatch sin cos) evs s1)
              = field_of_view
                  (fold_left (dispatch sin cos) (List.filter is_wheel evs) s2))
      as H.
    { induction evs as [|ev evs IH]; intros s1 s2 Hf; [exact Hf|].
      cbn [List.filter fold_left].
      pose proof (field_of_view_dispatch sin cos s1 s2 ev Hf) as Hd.
      destruct (is_wheel ev); cbn [fold_left]; apply IH, Hd. }
    apply H. reflexivity.
Qed.

End EventFacts.

(** ** The pin overlay: requests, failures and the returned object *)

Module RegistrationFacts.
Import JS Promise MapportExtension Overlay Registration OverlayFacts.

Lemma first_rejection_time {A} (ps : list (promise A)) t e :
  first_rejection ps = Some (t, e) ->
  exists j q, ps !! j = Some q /\ result q = Rejected e /\ settles_at q = t.
Proof.
  revert t e. induction ps as [|p ps IH]; simpl; intros t e; [discriminate|].
  destruct (result p) as [v|e0] eqn:Hp.
  - intros H. destruct (IH _ _ H) as (j & q & Hj & Hq & Ht).
    exists (S j), q. auto.
  - destruct (first_rejection ps) as [[t' e']|] eqn:Hf.
    + destruct (settles_at p <=? t')%nat; intros [= <- <-].
      * exists 0%nat, p. auto.
      * destruct (IH _ _ eq_refl) as (j & q & Hj & Hq & Ht).
        exists (S j), q. auto.
    + intros [= <- <-]. exists 0%nat, p. auto.
Qed.

(** *** The fetch *)

(** X16. When the fetch of the model's pins fails, [addPins] is rejected
    with the reason of the fetch, whatever [pins] is; no request is
    sent to the platform and no array of the caller is changed. *)
Theorem addPins_rethrows_fetch_failure
    (getPins : string -> settled (list Pin)) (mapport : option Platform)
    (pins : pins_arg) (model : string) (h : store) (e : error) :
  model <> "" -> getPins model = Rejected e ->
  let r := addPins getPins mapport pins (Some model) h in
  outcome r = Rejected e /\
  sandbox_requests r = [] /\ add_requests r = [] /\
  forall l ws, h !! l = Some ws -> final_store r !! l = Some ws.
Proof.
  intros Hm Hg r. unfold r, addPins, collect_pins.
  destruct (String.eqb_spec model "") as [->|_]; [contradiction|].
  destruct pins as [| |l0]; cbn; rewrite ?andb_false_r;
    destruct (String.eqb_spec model "") as [->|_]; try contradiction;
    rewrite Hg; cbn; repeat split; trivial.
  intros l ws Hl. etransitivity; [apply lookup_insert_ne|exact Hl].
  intros <-. apply (is_fresh (dom h)). apply elem_of_dom. eexists. exact Hl.
Qed.

Lemma addPins_rethrows_fetch_failure_witness :
  let r := addPins fetch_fails (Some obliging) (array 1%positive)
             (Some "model-1") two_pins_p1 in
  outcome r = Rejected (Failure "no such model") /\
  sandbox_requests r = [] /\ add_requests r = [] /\
  final_store r !! 1%positive
    = Some [pin "p1" "<b>first</b>"; pin "p1" "<b>second</b>"].
Proof.
  destruct (addPins_rethrows_fetch_failure fetch_fails (Some obliging)
              (array 1%positive) "model-1" two_pins_p1
              (Failure "no such model")) as (H1 & H2 & H3 & H4).
  - discriminate.
  - reflexivity.
  - split; [exact H1|]. split; [exact H2|]. split; [exact H3|].
    apply H4. reflexivity.
Defined.

(** *** The two rounds of requests *)

(** X17. The sandbox requests all go out before any overlay is
    registered: there is one for every pin of the array, the pins
    that will be dropped included, and when one of them is rejected
    no overlay-add request is issued at all. *)
Theorem sandbox_requests_come_first
    (getPins : string -> settled (list Pin)) (mp : Platform)
    (arg : pins_arg) (model : option string) (h h' : store) (l : loc)
    (ws : list Pin) :
  collect_pins getPins arg model h = inr (l, h') -> h' !! l = Some ws ->
  let r := addPins getPins (Some mp) arg model h in
  sandbox_requests r = html <$> ws /\
  ((exists i pin, ws !! i = Some pin /\
                  is_rejected (Tag_registerSandbox mp i (html pin))) ->
   add_requests r = [] /\ exists e, outcome r = Rejected e).
Proof.
  intros Hc Hl r. unfold r.
  rewrite (addPins_unfold _ _ _ _ _ _ _ _ Hc Hl). cbn [sandbox_requests add_requests outcome].
  unfold register_pins. split.
  - destruct (Promise.all (attach_all (Some mp) ws 0)); [|reflexivity].
    destruct (register_all _ _ _ _ _). reflexivity.
  - intros (i & pin & Hi & Hrej).
    destruct (attach_all_rejected mp ws 0 i pin Hi Hrej) as [e ->].
    cbn. eauto.
Qed.

Lemma sandbox_requests_come_first_witness :
  let r := addPins no_pins_of_model (Some refuses_two) (array 1%positive) None
             p1_p2_p1 in
  sandbox_requests r = ["<b>a</b>"; "<b>b</b>"; "<b>c</b>"] /\
  add_requests r = [] /\ exists e, outcome r = Rejected e.
Proof.
  destruct (sandbox_requests_come_first no_pins_of_model refuses_two
              (array 1%positive) None p1_p2_p1 p1_p2_p1 1%positive
              [pin "p1" "<b>a</b>"; pin "p2" "<b>b</b>"; pin "p1" "<b>c</b>"]
              eq_refl eq_refl) as [H1 H2].
  split; [exact H1|]. apply H2.
  exists 0%nat. eexists. split; [reflexivity|]. eexists. reflexivity.
Defined.

Lemma register_all_new_requests mp ws : forall suf pre E issued,
  ws = pre ++ suf ->
  (register_all (Some mp) ws (attachments_from mp (length pre) suf) E issued).2
  = issued ++ new_requests mp (length pre) suf E.
Proof.
  induction suf as [|p suf IH]; intros pre E issued Hws.
  - cbn. rewrite app_nil_r. reflexivity.
  - cbn [attachments_from new_requests].
    assert (ws !! length pre = Some p) as Hi
      by (subst ws; apply list_lookup_middle; reflexivity).
    rewrite (register_all_cons _ _ _ _ _ _ _ _ Hi).
    assert (ws = (pre ++ [p]) ++ suf) as Hws'
      by (rewrite <- app_assoc; exact Hws).
    assert (S (length pre) = length (pre ++ [p])) as Hlen
      by (rewrite length_app; simpl; lia).
    rewrite Hlen.
    destruct (decide (id p ∈ E)); cbn zeta; cbn [snd].
    + apply IH, Hws'.
    + rewrite (IH _ _ _ Hws'), <- app_assoc. reflexivity.
Qed.

Lemma numbered_cons n p suf :
  numbered n (p :: suf) = (n, p) :: numbered (S n) suf.
Proof.
  unfold numbered. cbn. rewrite Nat.add_0_r. f_equal.
  apply imap_ext. intros j q _. cbn. f_equal. lia.
Qed.

Lemma new_requests_first_occurrences mp ws : forall suf pre E,
  ws = pre ++ suf ->
  (forall x, x ∈ E <-> x ∈ id <$> pre) ->
  new_requests mp (length pre) suf E =
    (fun ip => descriptor ip.2 (attach_of mp ip.1 ip.2))
      <$> filter (is_first ws) (numbered (length pre) suf).
Proof.
  induction suf as [|p suf IH]; intros pre E Hws HE; [reflexivity|].
  cbn [new_requests]. rewrite numbered_cons.
  assert (ws = (pre ++ [p]) ++ suf) as Hws'
    by (rewrite <- app_assoc; exact Hws).
  assert (S (length pre) = length (pre ++ [p])) as Hlen
    by (rewrite length_app; simpl; lia).
  assert (first_with_id (id p) ws =
            match first_with_id (id p) pre with
            | Some r => Some r
            | None => Some (length pre, p)
            end) as Hfirst.
  { rewrite Hws'. unfold first_with_id.
    pose proof (first_with_id_snoc (id p) pre p) as Hs.
    unfold first_with_id in Hs.
    rewrite decide_True in Hs by reflexivity.
    destruct (list_find (fun q => id q = id p) pre) as [[i q]|] eqn:Ef.
    - apply list_find_app_l. exact Hs.
    - apply list_find_app_l. exact Hs. }
  rewrite Hlen.
  destruct (decide (id p ∈ E)) as [Hin|Hnin].
  - rewrite filter_cons_False.
    + apply (IH _ _ Hws'). intros x.
      rewrite fmap_app, elem_of_app, HE. cbn.
      rewrite list_elem_of_singleton. split; [tauto|].
      intros [H| ->]; [exact H | apply HE, Hin].
    + unfold is_first. cbn [fst snd]. rewrite Hfirst.
      destruct (first_with_id (id p) pre) as [[i q]|] eqn:Ef.
      * apply list_find_Some in Ef as (Hl & _ & _).
        apply lookup_lt_Some in Hl. cbn. intros [= ->]. lia.
      * apply first_with_id_None in Ef. exfalso. apply Ef, HE, Hin.
  - rewrite filter_cons_True.
    + cbn [fmap list_fmap fst snd]. f_equal.
      apply (IH _ _ Hws'). intros x.
      rewrite fmap_app, elem_of_app, elem_of_union, elem_of_singleton, HE.
      cbn. rewrite list_elem_of_singleton. tauto.
    + unfold is_first. cbn [fst snd]. rewrite Hfirst.
      destruct (first_with_id (id p) pre) as [[i q]|] eqn:Ef; [|reflexivity].
      exfalso. apply Hnin, HE.
      apply list_find_Some in Ef as (Hl & Hp & _).
      apply list_elem_of_fmap. exists q. split; [congruence|].
      eapply list_elem_of_lookup_2, Hl.
Qed.

(** X18. When every sandbox request is fulfilled, the overlay-add
    requests are those of the pins that are the first of the array
    with their identifier, issued in the order of the array, each
    with the attachment rendered for that very pin. *)
Theorem add_requests_follow_the_array
    (getPins : string -> settled (list Pin)) (mp : Platform)
    (arg : pins_arg) (model : option string) (h h' : store) (l : loc)
    (ws : list Pin) :
  collect_pins getPins arg model h = inr (l, h') -> h' !! l = Some ws ->
  (forall i pin, ws !! i = Some pin ->
                 is_fulfilled (Tag_registerSandbox mp i (html pin))) ->
  add_requests (addPins getPins (Some mp) arg model h)
  = first_occurrences mp ws.
Proof.
  intros Hc Hl Hok.
  rewrite (addPins_unfold _ _ _ _ _ _ _ _ Hc Hl). cbn [add_requests].
  unfold register_pins. rewrite (attach_all_fulfilled mp ws 0 Hok).
  pose proof (register_all_new_requests mp ws ws [] ∅ [] eq_refl) as Hn.
  cbn [length app] in Hn.
  destruct (register_all (Some mp) ws (attachments_from mp 0 ws) ∅ [])
    as [ps issued]. cbn [snd] in *. subst issued.
  apply (new_requests_first_occurrences mp ws ws [] ∅ eq_refl).
  intros x. cbn. rewrite elem_of_nil, elem_of_empty. tauto.
Qed.

Lemma add_requests_follow_the_array_witness :
  tag_id <$> add_requests (addPins no_pins_of_model (Some obliging)
                             (array 1%positive) None p1_p2_p1)
  = ["p1"; "p2"].
Proof.
  rewrite (add_requests_follow_the_array no_pins_of_model obliging
             (array 1%positive) None p1_p2_p1 p1_p2_p1 1%positive
             [pin "p1" "<b>a</b>"; pin "p2" "<b>b</b>"; pin "p1" "<b>c</b>"]
             eq_refl eq_refl).
  - reflexivity.
  - intros i p _. eexists. reflexivity.
Defined.

Lemma register_all_descriptors mapport ws atts : forall E issued d,
  d ∈ (register_all mapport ws atts E issued).2 ->
  d ∈ issued \/ exists p a, p ∈ ws /\ d = descriptor p a.
Proof.
  induction atts as [|[a i] atts IH]; intros E issued d; cbn [register_all].
  - cbn. auto.
  - destruct (ws !! i) as [p|] eqn:Hi.
    + destruct (decide (id p ∈ E)).
      * destruct (register_all mapport ws atts E issued) as [ps out] eqn:Er.
        cbn [snd]. intros Hd. apply (IH E issued). rewrite Er. exact Hd.
      * destruct mapport as [mp|].
        -- destruct (register_all (Some mp) ws atts ({[id p]} ∪ E)
                       (issued ++ [descriptor p a])) as [ps out] eqn:Er.
           cbn [snd]. intros Hd.
           destruct (IH ({[id p]} ∪ E) (issued ++ [descriptor p a]) d)
             as [Hin|Hex]; [rewrite Er; exact Hd| |right; exact Hex].
           apply elem_of_app in Hin as [Hin|Hin]; [left; exact Hin|].
           apply list_elem_of_singleton in Hin. right. exists p, a.
           split; [eapply list_elem_of_lookup_2, Hi | exact Hin].
        -- destruct (register_all None ws atts ({[id p]} ∪ E) issued)
             as [ps out] eqn:Er.
           cbn [snd]. intros Hd. apply (IH ({[id p]} ∪ E) issued).
           rewrite Er. exact Hd.
    + destruct (register_all mapport ws atts E issued) as [ps out] eqn:Er.
      cbn [snd]. intros Hd. apply (IH E issued). rewrite Er. exact Hd.
Qed.

Lemma color_or_default_not_empty c : color_or_default c <> "".
Proof.
  destruct c as [c|]; cbn; [|discriminate].
  destruct (String.eqb_spec c ""); [discriminate | assumption].
Qed.

Lemma icon_or_undefined_not_empty i : icon_or_undefined i <> Some "".
Proof.
  destruct i as [i|]; cbn; [|discriminate].
  destruct (String.eqb_spec i ""); [discriminate | congruence].
Qed.

(** X19. Whatever the arguments, the store and the platform's answers,
    every overlay-add request that [addPins] issues is built from a
    pin of the array: it carries exactly one attachment, a colour
    that is not empty (["#000"] when the pin has none) and an icon
    that is either absent or not empty. *)
Theorem add_requests_carry_defaults
    (getPins : string -> settled (list Pin)) (mapport : option Platform)
    (arg : pins_arg) (model : option string) (h : store) (d : TagDescriptor) :
  d ∈ add_requests (addPins getPins mapport arg model h) ->
  tag_color d <> "" /\ iconId d <> Some "" /\
  (exists a, attachments d = [a]) /\
  exists l ws p,
    final_store (addPins getPins mapport arg model h) !! l = Some ws /\
    p ∈ ws /\ tag_id d = id p /\ anchorPosition d = position p /\
    stemVector d = offset p /\
    tag_color d = color_or_default (color p).
Proof.
  unfold addPins.
  destruct (collect_pins getPins arg model h) as [[e h']|[l h']];
    [cbn; intros H; apply elem_of_nil in H; contradiction|].
  destruct (h' !! l) as [ws|] eqn:Hl;
    [|cbn; intros H; apply elem_of_nil in H; contradiction].
  unfold register_pins.
  destruct (Promise.all (attach_all mapport ws 0)) as [atts|e];
    [|cbn; intros H; apply elem_of_nil in H; contradiction].
  pose proof (register_all_descriptors mapport ws atts ∅ [] d) as Hd.
  destruct (register_all mapport ws atts ∅ []) as [ps issued].
  cbn [add_requests final_store snd] in *. intros Hin.
  destruct (Hd Hin) as [Hnil|(p & a & Hp & ->)];
    [apply elem_of_nil in Hnil; contradiction|].
  cbn. split; [apply color_or_default_not_empty|].
  split; [apply icon_or_undefined_not_empty|].
  split; [eauto|]. exists l, ws, p. auto 10.
Qed.

Lemma add_requests_carry_defaults_witness :
  let r := addPins no_pins_of_model (Some obliging) (array 1%positive) None
             two_pins_p1 in
  let d := descriptor (pin "p1" "<b>first</b>") (Some "sandbox:<b>first</b>") in
  d ∈ add_requests r /\ tag_color d <> "" /\ iconId d <> Some "" /\
  exists a, attachments d = [a].
Proof.
  intros r d.
  assert (d ∈ add_requests r) as Hin by apply list_elem_of_here.
  split; [exact Hin|].
  destruct (add_requests_carry_defaults no_pins_of_model (Some obliging)
              (array 1%positive) None two_pins_p1 d Hin) as (H1 & H2 & H3 & _).
  auto.
Defined.

(** *** Which failure is reported *)

Lemma first_rejection_earliest {A} (ps : list (promise A)) : forall i p e,
  ps !! i = Some p -> result p = Rejected e ->
  (forall j q, j <> i -> ps !! j = Some q -> is_rejected q ->
               (settles_at p < settles_at q)%nat) ->
  first_rejection ps = Some (settles_at p, e).
Proof.
  induction ps as [|q ps IH]; intros i p e Hi He Hfirst; [discriminate|].
  cbn [first_rejection]. destruct i as [|i]; cbn in Hi.
  - injection Hi as ->. rewrite He.
    destruct (first_rejection ps) as [[t' e']|] eqn:Hf; [|reflexivity].
    destruct (first_rejection_time ps t' e' Hf) as (j & q & Hj & Hq & Ht).
    specialize (Hfirst (S j) q ltac:(lia) Hj ltac:(eexists; exact Hq)).
    destruct (Nat.leb_spec (settles_at p) t'); [reflexivity | lia].
  - assert (first_rejection ps = Some (settles_at p, e)) as ->.
    { apply (IH i p e Hi He). intros j q' Hne Hj Hr.
      apply (Hfirst (S j) q'); [lia | exact Hj | exact Hr]. }
    destruct (result q) as [v|e0] eqn:Hq; [reflexivity|].
    specialize (Hfirst 0%nat q ltac:(lia) eq_refl ltac:(eexists; exact Hq)).
    destruct (Nat.leb_spec (settles_at q) (settles_at p)); [lia | reflexivity].
Qed.

Lemma attach_all_lookup mp ws : forall n j pin,
  ws !! j = Some pin ->
  exists p, attach_all (Some mp) ws n !! j = Some p /\
    settles_at p = settles_at (Tag_registerSandbox mp (n + j) (html pin)) /\
    (forall e, result (Tag_registerSandbox mp (n + j) (html pin)) = Rejected e ->
               result p = Rejected e) /\
    (is_rejected p -> is_rejected (Tag_registerSandbox mp (n + j) (html pin))).
Proof.
  induction ws as [|q ws IH]; intros n j pin Hj; [discriminate|].
  destruct j as [|j]; cbn in Hj.
  - injection Hj as ->. rewrite Nat.add_0_r. eexists.
    split; [reflexivity|]. cbn. split; [reflexivity|]. split.
    + intros e0 ->. reflexivity.
    + unfold is_rejected. cbn.
      destruct (result (Tag_registerSandbox mp n (html pin))) as [v|e0];
        intros [e1 He1]; [discriminate | eauto].
  - destruct (IH (S n) j pin Hj) as (p & Hp & H1 & H2 & H3).
    replace (n + S j)%nat with (S n + j)%nat by lia.
    exists p. cbn [attach_all lookup]. auto.
Qed.

Lemma attach_all_lookup_inv mp ws : forall n j p,
  attach_all (Some mp) ws n !! j = Some p -> exists pin, ws !! j = Some pin.
Proof.
  induction ws as [|q ws IH]; intros n j p Hj; [discriminate|].
  destruct j as [|j]; cbn in *; [eauto|]. eapply IH, Hj.
Qed.

(** X20. Of several failures one is reported: when sandbox requests are
    rejected, [addPins] is rejected with the reason of the one that
    is rejected before all the others; the other reasons are lost. *)
Theorem earliest_sandbox_failure_is_reported
    (getPins : string -> settled (list Pin)) (mp : Platform)
    (arg : pins_arg) (model : option string) (h h' : store) (l : loc)
    (ws : list Pin) (i : nat) (pin : Pin) (e : error) :
  collect_pins getPins arg model h = inr (l, h') -> h' !! l = Some ws ->
  ws !! i = Some pin ->
  result (Tag_registerSandbox mp i (html pin)) = Rejected e ->
  (forall j other, j <> i -> ws !! j = Some other ->
     is_rejected (Tag_registerSandbox mp j (html other)) ->
     (settles_at (Tag_registerSandbox mp i (html pin))
      < settles_at (Tag_registerSandbox mp j (html other)))%nat) ->
  outcome (addPins getPins (Some mp) arg model h) = Rejected e.
Proof.
  intros Hc Hl Hi He Hfirst.
  rewrite (addPins_unfold _ _ _ _ _ _ _ _ Hc Hl). cbn [outcome].
  unfold register_pins, Promise.all.
  destruct (attach_all_lookup mp ws 0 i pin Hi) as (p & Hp & Ht & Hr & _).
  cbn [Nat.add] in *.
  rewrite (first_rejection_earliest _ i p e Hp (Hr e He)); [reflexivity|].
  intros j q Hne Hj Hq.
  destruct (attach_all_lookup_inv mp ws 0 j q Hj) as [other Ho].
  destruct (attach_all_lookup mp ws 0 j other Ho) as (q' & Hq' & Ht' & _ & Hrej).
  cbn [Nat.add] in *. rewrite Hj in Hq'. injection Hq' as <-.
  rewrite Ht, Ht'. apply (Hfirst j other Hne Ho). apply Hrej, Hq.
Qed.

Lemma earliest_sandbox_failure_is_reported_witness :
  outcome (addPins no_pins_of_model (Some refuses_two) (array 1%positive) None
             p1_p2_p1)
  = Rejected (Failure "second refused").
Proof.
  apply (earliest_sandbox_failure_is_reported no_pins_of_model refuses_two
           (array 1%positive) None p1_p2_p1 p1_p2_p1 1%positive
           [pin "p1" "<b>a</b>"; pin "p2" "<b>b</b>"; pin "p1" "<b>c</b>"]
           1%nat (pin "p2" "<b>b</b>") (Failure "second refused")
           eq_refl eq_refl eq_refl eq_refl).
  intros [|[|[|j]]] other Hne Hj [e' He']; cbn in *;
    try congruence; try discriminate; lia.
Defined.

End RegistrationFacts.

(** ** setupSdk and the object it returns *)

Module SdkFacts.
Import JS Three Promise MapportExtension Overlay Registration Controller Mediator.
Import ReturnedObject OverlayFacts SceneFacts.
Local Open Scope float_scope.


Lemma register_pins_null ws :
  register_pins None ws =
    (match ws with [] => Fulfilled tt | _ => Rejected null_Tag end, [], []).
Proof.
  destruct ws as [|p ws]; [reflexivity|].
  unfold register_pins, Promise.all. cbn [attach_all first_rejection].
  cbn [result rejected settles_at].
  destruct (first_rejection (attach_all None ws 1)) as [[t e]|]; reflexivity.
Qed.

Lemma setupSdk_fulfilled container model sdk :
  setupSdk container model = Returns (Fulfilled sdk) ->
  MapportExtension.model sdk <> "".
Proof.
  unfold setupSdk. destruct container as [[w h]|]; [|discriminate].
  destruct model as [m|]; [|discriminate].
  destruct (String.eqb_spec m "") as [->|Hne]; [discriminate|].
  intros [= <-]. exact Hne.
Qed.

(** X22. Through the object that [setupSdk] returns, [addPins] never
    reaches the platform, since [mapport] is [null] there: no request
    is sent.  When the fetch of the model's pins succeeds, the pins
    fetched are pushed onto the caller's array, and the call is
    fulfilled if there is no pin at all and rejected with a
    [TypeError] otherwise. *)
Theorem Sdk_addPins_never_reaches_platform
    (container : option (number * number)) (model : option string) (sdk : Sdk)
    (getPins : string -> settled (list Pin)) (pins : pins_arg) (h : store) :
  setupSdk container model = Returns (Fulfilled sdk) ->
  let r := Sdk_addPins getPins sdk pins h in
  sandbox_requests r = [] /\ add_requests r = [] /\
  forall l original fetched,
    pins = array l -> h !! l = Some original ->
    getPins (MapportExtension.model sdk) = Fulfilled fetched ->
    final_store r !! l = Some (original ++ fetched) /\
    outcome r = match original ++ fetched with
                | [] => Fulfilled tt
                | _ => Rejected null_Tag
                end.
Proof.
  intros Hsdk r. pose proof (setupSdk_fulfilled _ _ _ Hsdk) as Hm.
  unfold r, Sdk_addPins, mapport. split; [|split].
  - unfold addPins.
    destruct (collect_pins _ _ _ _) as [[e h']|[l h']]; [reflexivity|].
    destruct (h' !! l); [|reflexivity].
    rewrite register_pins_null. reflexivity.
  - unfold addPins.
    destruct (collect_pins _ _ _ _) as [[e h']|[l h']]; [reflexivity|].
    destruct (h' !! l); [|reflexivity].
    rewrite register_pins_null. reflexivity.
  - intros l original fetched -> Hl Hg.
    assert (collect_pins getPins (array l) (Some (MapportExtension.model sdk)) h
            = inr (l, <[ l := original ++ fetched ]> h)) as Hc.
    { unfold collect_pins. cbn.
      destruct (String.eqb_spec (MapportExtension.model sdk) "") as [E|_];
        [contradiction|].
      rewrite Hg, Hl. reflexivity. }
    rewrite (addPins_unfold _ _ _ _ _ _ _ (original ++ fetched) Hc)
      by apply lookup_insert_eq.
    rewrite register_pins_null. cbn.
    split; [apply lookup_insert_eq | reflexivity].
Qed.

Lemma Sdk_addPins_never_reaches_platform_witness :
  exists sdk,
    setupSdk (Some (800, 600)) (Some "model-1") = Returns (Fulfilled sdk) /\
    let r := Sdk_addPins one_pin_of_model sdk (array 1%positive) two_pins_p1 in
    sandbox_requests r = [] /\ add_requests r = [] /\
    outcome r = Rejected null_Tag.
Proof.
  eexists. split; [reflexivity|].
  destruct (Sdk_addPins_never_reaches_platform (Some (800, 600))
              (Some "model-1") _ one_pin_of_model (array 1%positive)
              two_pins_p1 eq_refl) as (H1 & H2 & H3).
  split; [exact H1|]. split; [exact H2|].
  destruct (H3 1%positive
              [pin "p1" "<b>first</b>"; pin "p1" "<b>second</b>"]
              [pin "p3" "<i>fetched</i>"] eq_refl eq_refl eq_refl) as [_ H4].
  exact H4.
Defined.

Lemma Sdk_calls sdk calls :
  mapportSdk (fold_left Sdk_call_method calls sdk)
  = fold_left call_method calls (mapportSdk sdk) /\
  MapportExtension.model (fold_left Sdk_call_method calls sdk)
  = MapportExtension.model sdk.
Proof.
  revert sdk. induction calls as [|c calls IH]; intros sdk; [split; reflexivity|].
  cbn [fold_left]. destruct (IH (Sdk_call_method sdk c)) as [-> ->].
  destruct c; split; reflexivity.
Qed.

(** X23. The scene methods of the object that [setupSdk] returns act
    on the scene of the controller that [setupSdk] has created and
    initialised: after any sequence of calls of its [addScene],
    [removeMesh] and [updateScene], no mesh is shown twice and the
    meshes shown are those of the set that the calls describe; the
    model identifier is untouched. *)
Theorem Sdk_scene_methods_keep_a_set
    (container : option (number * number)) (model : option string) (sdk : Sdk)
    (calls : list mesh_call) :
  setupSdk container model = Returns (Fulfilled sdk) ->
  let sdk' := fold_left Sdk_call_method calls sdk in
  MapportExtension.model sdk' = MapportExtension.model sdk /\
  NoDup (meshes (mapportSdk sdk')) /\
  forall x, x ∈ meshes (mapportSdk sdk') <-> x ∈ fold_left as_set_operation calls ∅.
Proof.
  intros Hsdk sdk'. unfold sdk'.
  destruct (Sdk_calls sdk calls) as [-> ->]. split; [reflexivity|].
  unfold setupSdk in Hsdk. destruct container as [[w h]|]; [|discriminate].
  destruct model as [m|]; [|discriminate].
  destruct (String.eqb m ""); [discriminate|].
  injection Hsdk as <-. cbn [mapportSdk].
  apply calls_keep_a_set.
Qed.

Lemma Sdk_scene_methods_keep_a_set_witness :
  exists sdk,
    setupSdk (Some (800, 600)) (Some "model-1") = Returns (Fulfilled sdk) /\
    meshes (mapportSdk
              (fold_left Sdk_call_method
                 [AddScene 1%nat; AddScene 2%nat; UpdateScene 1%nat 3%nat] sdk))
    = [2%nat; 3%nat].
Proof.
  eexists. split; [reflexivity|].
  destruct (Sdk_scene_methods_keep_a_set (Some (800, 600)) (Some "model-1") _
              [AddScene 1%nat; AddScene 2%nat; UpdateScene 1%nat 3%nat]
              eq_refl) as (_ & _ & _).
  reflexivity.
Defined.


End SdkFacts.

(** ** generateUUID *)

Module UuidFacts.
Import Strings.Ascii JS Order Rounding NumberOps Uuid UuidShape.
Import NumberFacts RoundingFacts MonotoneRounding SumFacts.

(** *** The integer part of a number between 0 and 16 *)

Lemma floor_value_scaled m e E0 :
  E0 <= 0 -> E0 <= e ->
  floor_value (S754_finite false m e) = (Zpos m * 2 ^ (e - E0)) / 2 ^ (- E0).
Proof.
  intros H0 He. cbn [floor_value].
  assert (0 < 2 ^ (- E0)) by (apply Z.pow_pos_nonneg; lia).
  destruct (Z.leb_spec 0 e).
  - replace (e - E0) with (e + - E0) by lia.
    rewrite Z.pow_add_r, Z.mul_assoc by lia.
    rewrite Z.div_mul by lia. reflexivity.
  - replace (- E0) with (e - E0 + - e) by lia.
    rewrite Z.pow_add_r by lia.
    assert (0 < 2 ^ (e - E0)) by (apply Z.pow_pos_nonneg; lia).
    assert (0 < 2 ^ (- e)) by (apply Z.pow_pos_nonneg; lia).
    rewrite (Z.mul_comm (2 ^ (e - E0))).
    rewrite Z.div_mul_cancel_r by lia. reflexivity.
Qed.

Lemma floor_value_mono m1 e1 m2 e2 :
  bounded m1 e1 = true -> bounded m2 e2 = true ->
  key_le (1, e1, Zpos m1) (1, e2, Zpos m2) ->
  floor_value (S754_finite false m1 e1) <= floor_value (S754_finite false m2 e2).
Proof.
  intros B1 B2 Hk.
  set (E0 := Z.min 0 (Z.min e1 e2)).
  rewrite (floor_value_scaled m1 e1 E0), (floor_value_scaled m2 e2 E0)
    by (unfold E0; lia).
  apply Z.div_le_mono; [apply Z.pow_pos_nonneg; lia|].
  apply key_le_value_pos; try assumption; unfold E0; lia.
Qed.

Lemma floor_value_nonneg s : 0 <= floor_value s.
Proof.
  destruct s as [b|b| |[] m e]; cbn [floor_value]; try lia.
  destruct (Z.leb_spec 0 e).
  - apply Z.mul_nonneg_nonneg; [lia|]. apply Z.pow_nonneg. lia.
  - apply Z.div_pos; [lia|]. apply Z.pow_pos_nonneg; lia.
Qed.

Lemma of_Z_index q :
  0 <= q < 16 -> to_index (of_Z q) = Some (Z.to_nat q).
Proof.
  intros Hq.
  assert (q = 0 \/ q = 1 \/ q = 2 \/ q = 3 \/ q = 4 \/ q = 5 \/ q = 6 \/ q = 7 \/
          q = 8 \/ q = 9 \/ q = 10 \/ q = 11 \/ q = 12 \/ q = 13 \/ q = 14 \/
          q = 15) as H by lia.
  repeat (destruct H as [-> |H]; [vm_compute; reflexivity|]).
  subst. vm_compute. reflexivity.
Qed.

(** The largest product of 16 and a number below 1. *)
Lemma SF_16_normal :
  exists m e, SF 16%float = S754_finite false m e /\ Zdigits2 (Zpos m) = 53.
Proof. do 2 eexists. vm_compute. split; reflexivity. Qed.

Lemma lt_1_below_1 x : lt x 1%float -> le x below_1.
Proof.
  rewrite lt_key, le_key. intros (Nx & _ & Hk).
  split; [exact Nx|]. split; [reflexivity|].
  pose proof (Prim2SF_valid x) as Hv.
  change (key (SF 1%float)) with (1, -52, 4503599627370496) in Hk.
  change (key (SF below_1)) with (1, -53, 9007199254740991).
  destruct (SF x) as [[]|[]| |[] m e]; cbn in *; try lia.
  destruct (bounded_mantissa m e Hv) as (Hm & He & Hn).
  change (2 ^ 53) with 9007199254740992 in Hm.
  change (2 ^ 52) with 4503599627370496 in Hn.
  lia.
Qed.

Lemma sixteenths x :
  unit_interval x -> between 0%float (below_1 * 16)%float (x * 16)%float.
Proof.
  intros [H0 H1]. destruct SF_16_normal as (m & e & Hc & Hd).
  split.
  - exact (mul_mono 0%float x 16%float m e Hc Hd H0).
  - exact (mul_mono x below_1 16%float m e Hc Hd (lt_1_below_1 x H1)).
Qed.

Lemma floor_index p :
  between 0%float (below_1 * 16)%float p ->
  to_index (Math_floor p) = Some (Z.to_nat (floor_value (SF p))) /\
  0 <= floor_value (SF p) < 16.
Proof.
  intros [Hlo Hhi]. apply le_key in Hlo as (_ & Np & Hlo).
  apply le_key in Hhi as (_ & _ & Hhi).
  change (key (SF 0%float)) with (0, 0, 0) in Hlo.
  change (key (SF (below_1 * 16)%float)) with (1, -49, 9007199254740991) in Hhi.
  pose proof (Prim2SF_valid p) as Hv. apply is_number_SF in Np.
  unfold Math_floor, to_index.
  destruct (SF p) as [b|b| |s m e] eqn:Ep; try congruence.
  - rewrite Ep. cbn. split; [reflexivity | lia].
  - destruct b; cbn in *; lia.
  - destruct s; [cbn in Hlo; lia|].
    assert (floor_value (S754_finite false m e) <= 15) as Hle.
    { change 15 with (floor_value (S754_finite false 9007199254740991 (-49))).
      apply floor_value_mono; [exact Hv | reflexivity | exact Hhi]. }
    pose proof (floor_value_nonneg (S754_finite false m e)) as Hge.
    split; [|lia].
    cbn [floor_value] in *. destruct (Z.leb_spec 0 e).
    + rewrite Ep. destruct (Z.leb_spec 0 e); [reflexivity | lia].
    + apply of_Z_index. lia.
Qed.

Lemma chars_length : of_Z (Z.of_nat (String.length chars)) = 16%float.
Proof. vm_compute. reflexivity. Qed.

Lemma get_hex n : (n < 16)%nat -> String.get n chars = Some (hex n).
Proof.
  intros H. do 16 (destruct n as [|n]; [reflexivity|]). lia.
Qed.

(** One round of the loop appends the hexadecimal digit of the
    integer part of [16 * Math.random()]. *)
Lemma round_digit r :
  unit_interval r ->
  String_at chars (Math_floor (r * of_Z (Z.of_nat (String.length chars)))%float)
    = Some (hex (drawn r)) /\ (drawn r < 16)%nat.
Proof.
  intros Hr. rewrite chars_length.
  destruct (floor_index _ (sixteenths r Hr)) as [Hi Hb].
  unfold String_at. rewrite Hi. fold (drawn r).
  assert (drawn r < 16)%nat as Hlt by (unfold drawn; lia).
  split; [apply get_hex, Hlt | exact Hlt].
Qed.

Lemma append_assoc (a b c : string) : (a +:+ b) +:+ c = a +:+ (b +:+ c).
Proof.
  induction a as [|x a IH]; [reflexivity|].
  change (String x ((a +:+ b) +:+ c) = String x (a +:+ b +:+ c)).
  exact (f_equal (String x) IH).
Qed.

Lemma append_empty (a : string) : a +:+ "" = a.
Proof.
  induction a as [|x a IH]; [reflexivity|].
  change (String x (a +:+ "") = String x a).
  exact (f_equal (String x) IH).
Qed.

Lemma loop_digits Math_random : forall count calls uuid,
  (forall i, (calls <= i < calls + count)%nat -> unit_interval (Math_random i)) ->
  loop Math_random count calls uuid =
    (uuid +:+ String.string_of_list_ascii
                ((fun i => hex (drawn (Math_random i))) <$> seq calls count),
     (calls + count)%nat).
Proof.
  induction count as [|count IH]; intros calls uuid Hr.
  - cbn [loop seq fmap list_fmap String.string_of_list_ascii].
    rewrite Nat.add_0_r, append_empty. reflexivity.
  - cbn [loop seq fmap list_fmap].
    destruct (round_digit (Math_random calls)) as [-> _]; [apply Hr; lia|].
    rewrite IH by (intros i Hi; apply Hr; lia).
    cbn [append_char String.string_of_list_ascii]. rewrite append_assoc.
    replace (S calls + count)%nat with (calls + S count)%nat by lia.
    reflexivity.
Qed.

Lemma drawn_lt r : unit_interval r -> (drawn r < 16)%nat.
Proof. intros Hr. apply (round_digit r Hr). Qed.

Lemma generateUUID_format Math_random calls :
  (forall i, (calls <= i < calls + 32)%nat -> unit_interval (Math_random i)) ->
  generateUUID Math_random calls =
    (String.string_of_list_ascii
       (format ((fun i => hex (drawn (Math_random i))) <$> seq calls 32)),
     (calls + 32)%nat).
Proof.
  intros Hr. unfold generateUUID. rewrite (loop_digits _ _ _ _ Hr).
  reflexivity.
Qed.

(** X25. With a random source that answers numbers from 0 up to, not
    including, 1, [generateUUID] draws 32 numbers and returns a
    string of 36 characters: a hyphen at the positions 8, 13, 18 and
    23, and one of the digits [0-9a-f] at each of the others. *)
Theorem generateUUID_shape (Math_random : nat -> number) (calls : nat) :
  (forall i, (calls <= i < calls + 32)%nat -> unit_interval (Math_random i)) ->
  let r := generateUUID Math_random calls in
  r.2 = (calls + 32)%nat /\ String.length r.1 = 36%nat /\
  forall k, (k < 36)%nat ->
    exists c, String.get k r.1 = Some c /\
              if hyphen_at k then c = "-"%char else is_hex c.
Proof.
  intros Hr r. unfold r. rewrite (generateUUID_format _ _ Hr).
  split; [reflexivity|]. split; [reflexivity|].
  assert (forall i, (calls <= i < calls + 32)%nat ->
                    is_hex (hex (drawn (Math_random i)))) as Hhex.
  { intros i Hi. eexists. split; [|reflexivity]. apply drawn_lt, Hr, Hi. }
  intros k Hk.
  do 36 (destruct k as [|k];
         [eexists; split; [reflexivity|]; cbn [hyphen_at Nat.eqb orb];
          first [reflexivity | apply Hhex; lia]|]).
  lia.
Qed.

Lemma generateUUID_shape_witness :
  let r := generateUUID (constant 0.5%float) 0 in
  r.2 = 32%nat /\ String.length r.1 = 36%nat /\
  String.get 8 r.1 = Some "-"%char /\ String.get 14 r.1 = Some "8"%char.
Proof.
  destruct (generateUUID_shape (constant 0.5%float) 0) as (H1 & H2 & _).
  - intros i _. split; reflexivity.
  - split; [exact H1|]. split; [exact H2|]. split; reflexivity.
Defined.

(** X26. The digits are those of the numbers drawn, in the order of the
    draws: the digit at round [k] is [chars[n]] where [n] is the
    integer part of 16 times the [k]-th number drawn, and it stands
    at position [k] plus the number of hyphens before it. *)
Theorem generateUUID_digits (Math_random : nat -> number) (calls : nat) :
  (forall i, (calls <= i < calls + 32)%nat -> unit_interval (Math_random i)) ->
  forall k, (k < 32)%nat ->
    String.get (position k) (generateUUID Math_random calls).1
    = Some (hex (drawn (Math_random (k + calls)%nat))) /\
    String.get (drawn (Math_random (k + calls)%nat)) chars
    = Some (hex (drawn (Math_random (k + calls)%nat))).
Proof.
  intros Hr k Hk. rewrite (generateUUID_format _ _ Hr).
  split.
  - do 32 (destruct k as [|k]; [reflexivity|]). lia.
  - apply get_hex, drawn_lt, Hr. lia.
Qed.

Lemma generateUUID_digits_witness :
  String.get (position 12) (generateUUID (constant 0.75%float) 7).1
  = Some "c"%char.
Proof.
  destruct (generateUUID_digits (constant 0.75%float) 7) with (k := 12%nat)
    as [H _].
  - intros i _. split; reflexivity.
  - lia.
  - exact H.
Defined.

Lemma sixteenth n :
  (n < 16)%nat ->
  let r := (of_Z (Z.of_nat n) / 16)%float in
  unit_interval r /\ drawn r = n.
Proof.
  intros H. do 16 (destruct n as [|n]; [repeat split|]). lia.
Qed.

(** X27. No digit is fixed: for each of the sixteen digits there is a
    random source within the contract of [Math.random] for which the
    result consists of that digit alone, so neither a version digit
    nor a variant digit is set. *)
Theorem generateUUID_fixes_no_digit (n : nat) :
  (n < 16)%nat ->
  exists x, unit_interval x /\
    forall calls,
      (generateUUID (constant x) calls).1
      = String.string_of_list_ascii (format (replicate 32 (hex n))).
Proof.
  intros Hn. destruct (sixteenth n Hn) as [Hu Hd].
  exists (of_Z (Z.of_nat n) / 16)%float. split; [exact Hu|].
  intros calls. rewrite generateUUID_format by (intros i _; exact Hu).
  cbn [fst seq fmap list_fmap constant]. unfold constant. rewrite Hd.
  reflexivity.
Qed.

Lemma generateUUID_fixes_no_digit_witness :
  exists x, unit_interval x /\
    forall calls,
      (generateUUID (constant x) calls).1
      = "ffffffff-ffff-ffff-ffff-ffffffffffff".
Proof.
  destruct (generateUUID_fixes_no_digit 15) as (x & Hx & H); [lia|].
  exists x. split; [exact Hx|]. exact H.
Defined.

End UuidFacts.
